(** * toonstream-cloudflare: the scraper's resolution, parsing and fetch logic

    A shallow embedding of the parts of [toonstream-supabase-sync.js] (the
    Node script) and [src/index.js] (the Cloudflare Worker) that the
    specification's testable properties talk about, followed by the
    properties themselves.

    Conventions.
    - JavaScript strings are [string], read as UTF-8; the patterns the
      code matches are ASCII, so matching on bytes and on UTF-16 code
      units agree. White space ([trim], [parseInt]) is the white space of
      ECMAScript in UTF-8. Changes of case and the classes [\w] and [\s]
      of [cleanSlug] are modelled on ASCII, and the properties of
      [cleanSlug] are stated for ASCII names.
    - JavaScript numbers that hold integers (season, episode, depth,
      counters) are [Z]; [parseInt] on a run of decimal digits and the
      printing of a number are exact on the safe integers (up to
      2^53 - 1), which is the range the model speaks about.
    - [null]/[undefined] is [None]; a call that can throw returns a sum,
      with the value on the left and the message of the error on the
      right.
    - Libraries (the WHATWG URL parser, cheerio, the regular expression
      engine on script text, axios and the network, Supabase, the Worker's
      [fetch] and KV store) are fields of an environment class: the code's
      own logic is modelled on top of whatever they answer. *)

From Stdlib Require Import ZArith String Ascii List DecimalString DecimalZ Sorted Permutation.
From stdpp Require Import base gmap strings list.

Local Open Scope Z_scope.

(** ** JavaScript string primitives used by the code *)

Module Js.

(** [s.startsWith(p)] *)
Fixpoint startsWith (s p : string) {struct p} : bool :=
  match p, s with
  | EmptyString, _ => true
  | String a p', String b s' => Ascii.eqb a b && startsWith s' p'
  | String _ _, EmptyString => false
  end.

(** [s.includes(p)] *)
Fixpoint includes (s p : string) : bool :=
  startsWith s p ||
  match s with
  | EmptyString => false
  | String _ s' => includes s' p
  end.

(** ASCII part of [toLowerCase]; it is only applied to serialised URLs. *)
Definition lower_ascii (c : ascii) : ascii :=
  let n := N_of_ascii c in
  if ((65 <=? n) && (n <=? 90))%N then ascii_of_N (n + 32) else c.

Fixpoint toLowerCase (s : string) : string :=
  match s with
  | EmptyString => EmptyString
  | String c s' => String (lower_ascii c) (toLowerCase s')
  end.

(** Truthiness of a possibly undefined string: [undefined], [null] and the
    empty string are falsy. *)
Definition truthy (o : option string) : bool :=
  match o with
  | Some (String _ _) => true
  | _ => false
  end.

(** [a || b] on possibly undefined strings. *)
Definition or_else (a b : option string) : option string :=
  if truthy a then a else b.

(** [a || "literal"] *)
Definition or_default (a : option string) (d : string) : string :=
  match a with
  | Some (String c r) => String c r
  | _ => d
  end.

(** [\d] without the unicode flag: the ten ASCII digits. *)
Definition is_digit (c : ascii) : bool :=
  let n := N_of_ascii c in ((48 <=? n) && (n <=? 57))%N.

Definition digit_value (c : ascii) : Z := Z.of_N (N_of_ascii c) - 48.

Fixpoint all_digits (s : string) : bool :=
  match s with
  | EmptyString => true
  | String c s' => is_digit c && all_digits s'
  end.

(** [Number.MAX_SAFE_INTEGER] and [Number.isSafeInteger] on integers.
    JavaScript numbers are doubles: up to this bound every integer is
    one, [parseInt] on a run of digits returns the integer the digits
    write, and a template literal prints the digits of the integer.
    Beyond it [parseInt] rounds (and ends at [Infinity]), and from 1e21
    on a number prints with an exponent. [parseInt_digits] and
    [Number_toString] below are exact on all of [Z]: they stand for the
    code on safe integers, and the properties that depend on the value
    read or on the digits printed say so. *)
Definition MAX_SAFE_INTEGER : Z := 9007199254740991.

Definition isSafeInteger (z : Z) : bool :=
  (- MAX_SAFE_INTEGER <=? z) && (z <=? MAX_SAFE_INTEGER).

(** [parseInt(s, 10)] on a string of decimal digits that write a safe
    integer. *)
Fixpoint parseInt_acc (acc : Z) (s : string) : Z :=
  match s with
  | EmptyString => acc
  | String c s' => parseInt_acc (10 * acc + digit_value c) s'
  end.

Definition parseInt_digits (s : string) : Z := parseInt_acc 0 s.

(** The longest prefix of decimal digits, and what follows it: what a
    greedy [\d+] (or [\d*]) consumes. *)
Fixpoint span_digits (s : string) : string * string :=
  match s with
  | String c s' =>
      if is_digit c
      then let '(d, r) := span_digits s' in (String c d, r)
      else (EmptyString, s)
  | EmptyString => (EmptyString, EmptyString)
  end.

(** Number to string inside a template literal, for safe integers. *)
Definition Number_toString (z : Z) : string :=
  NilEmpty.string_of_int (Z.to_int z).

(** The ASCII blanks: space, tab, line feed, vertical tab, form feed
    and carriage return. *)
Definition is_blank (c : ascii) : bool :=
  let n := N_of_ascii c in ((n =? 32) || ((9 <=? n) && (n <=? 13)))%N.

(** The text after one white-space character or line terminator of
    ECMAScript at its head, for a text in UTF-8: an ASCII blank, U+00A0,
    U+1680, U+2000 to U+200A, U+2028, U+2029, U+202F, U+205F, U+3000 or
    U+FEFF. *)
Definition after_blank (s : string) : option string :=
  match s with
  | String c r =>
      if is_blank c then Some r
      else
        match r with
        | String c2 r2 =>
            let n := N_of_ascii c in
            let n2 := N_of_ascii c2 in
            if ((n =? 194) && (n2 =? 160))%N then Some r2
            else
              match r2 with
              | String c3 r3 =>
                  let n3 := N_of_ascii c3 in
                  if ((n =? 225) && (n2 =? 154) && (n3 =? 128))%N then Some r3
                  else if ((n =? 226) && (n2 =? 128) &&
                           (((128 <=? n3) && (n3 <=? 138)) || (n3 =? 168) ||
                            (n3 =? 169) || (n3 =? 175)))%N then Some r3
                  else if ((n =? 226) && (n2 =? 129) && (n3 =? 159))%N then Some r3
                  else if ((n =? 227) && (n2 =? 128) && (n3 =? 128))%N then Some r3
                  else if ((n =? 239) && (n2 =? 187) && (n3 =? 191))%N then Some r3
                  else None
              | EmptyString => None
              end
        | EmptyString => None
        end
  | EmptyString => None
  end.

(** The text without the white space at its head. [fuel] is the number
    of characters that may still be dropped. *)
Fixpoint skip_blanks_upto (fuel : nat) (s : string) : string :=
  match fuel with
  | O => s
  | S fuel' =>
      match after_blank s with
      | Some r => skip_blanks_upto fuel' r
      | None => s
      end
  end.

Definition skip_blanks (s : string) : string := skip_blanks_upto (String.length s) s.

(** [parseInt(s)] without a radix: optional white space, an optional
    sign, then either 0x or 0X and the longest run of hexadecimal digits,
    or the longest run of decimal digits; [NaN] ([None]) when the run is
    empty. *)

Definition hex_value (c : ascii) : option Z :=
  let n := N_of_ascii c in
  if ((48 <=? n) && (n <=? 57))%N then Some (Z.of_N n - 48)
  else if ((97 <=? n) && (n <=? 102))%N then Some (Z.of_N n - 87)
  else if ((65 <=? n) && (n <=? 70))%N then Some (Z.of_N n - 55)
  else None.

Fixpoint parse_hex (acc : option Z) (s : string) : option Z :=
  match s with
  | String c s' =>
      match hex_value c with
      | Some v => parse_hex (Some (16 * match acc with Some a => a | None => 0 end + v)) s'
      | None => acc
      end
  | EmptyString => acc
  end.

Definition parse_unsigned (t : string) : option Z :=
  match t with
  | String "0" (String "x" r) | String "0" (String "X" r) => parse_hex None r
  | _ =>
      match fst (span_digits t) with
      | EmptyString => None
      | d => Some (parseInt_digits d)
      end
  end.

Definition parseInt (s : string) : option Z :=
  match skip_blanks s with
  | String "-" t => match parse_unsigned t with Some z => Some (- z) | None => None end
  | String "+" t => parse_unsigned t
  | t => parse_unsigned t
  end.

(** [s.trim()]: the white space at the head and at the end is dropped.
    The text ends where what is left is white space only. *)
Definition all_blank (s : string) : bool :=
  match skip_blanks s with
  | EmptyString => true
  | _ => false
  end.

Fixpoint trimEnd (s : string) : string :=
  match s with
  | EmptyString => EmptyString
  | String c s' => if all_blank s then EmptyString else String c (trimEnd s')
  end.

Definition trim (s : string) : string := trimEnd (skip_blanks s).

(** Attributes of an element, as cheerio's [.attr(name)] reads them. *)
Definition attrs := list (string * string).

Fixpoint attr (a : attrs) (name : string) : option string :=
  match a with
  | [] => None
  | (k, v) :: a' => if String.eqb k name then Some v else attr a' name
  end.

End Js.

(** ** The Node script: [toonstream-supabase-sync.js] *)

Module Sync.
Import Js.

(** *** What the libraries answer *)

(** An element as the code reads it through cheerio: its attributes, its
    text, its inner HTML and the attributes of the [img] elements below
    it, in document order. *)
Record element := {
  el_attrs : attrs;
  el_text : string;
  el_html : string;
  el_imgs : list attrs;
}.

(** A JavaScript error as the code inspects it: [err.message], [err.code]
    and [err.response?.status]. *)
Record js_error := {
  err_message : option string;
  err_code : option string;
  err_status : option Z;
}.

(** What one [axios.get] meets on the network: a transport failure, or
    the response reached after some number of redirects. *)
Inductive raw_outcome :=
| NetworkError (e : js_error)
| Response (redirects : nat) (status : Z) (data : string).

(** The selectors the code hands to cheerio. *)
Inductive selector :=
| SelVideoSource     (* video, source *)
| SelIframe          (* iframe *)
| SelScript          (* script *)
| SelPlayerOption    (* li.dooplay_player_option *)
| SelEpisodeAnchor.  (* a[href*=/episode/] *)

Class Env := {
  (** [CONFIG.homeUrl] and [CONFIG.embedMaxDepth], an integer *)
  homeUrl : string;
  embedMaxDepth : Z;
  (** [new URL(raw, base).href]; [None] when the constructor throws *)
  URL_href : string -> string -> option string;
  (** [new URL(url).hostname]; [None] when the constructor throws *)
  URL_hostname : string -> option string;
  (** [cheerio.load(html)(selector)], in document order *)
  select : string -> selector -> list element;
  (** for the k-th pattern of [pickFromScripts] and a script body, the
      candidates [match[1] || match[0]] of [content.matchAll(pattern)] *)
  script_matches : nat -> string -> list string;
  (** [proxyManager.getNextProxy()] before the k-th request of the run *)
  getNextProxy : nat -> option string;
  (** what the k-th request of the run, sent to a URL, meets *)
  network : nat -> string -> raw_outcome;
}.

(** *** Observable effects *)

Inductive event :=
| EvVisit (url : string)           (* visited.add(url) inside resolve *)
| EvPage (url referer : string)   (* a call of fetchHtmlWithRetry *)
| EvRequest (url : string) (attempt : Z) (proxy : option string) (* axios.get *)
| EvProxyFailed (proxy : string)  (* proxyManager.markProxyAsFailed *)
| EvDelay (ms : Z).               (* await delay(ms) *)

Record state := {
  requests : nat;        (* requests sent so far *)
  trace : list event;    (* effects so far, oldest first *)
}.

Definition emit (e : event) (s : state) : state :=
  {| requests := requests s; trace := trace s ++ [e] |}.

Definition tick (s : state) : state :=
  {| requests := S (requests s); trace := trace s |}.

Definition initial : state := {| requests := 0; trace := [] |}.

(** The URLs of the pages asked for, oldest first. *)
Fixpoint pages (t : list event) : list string :=
  match t with
  | [] => []
  | EvPage u _ :: t' => u :: pages t'
  | _ :: t' => pages t'
  end.

(** The attempts made on the network, oldest first. *)
Fixpoint attempts (t : list event) : list (string * Z) :=
  match t with
  | [] => []
  | EvRequest u k _ :: t' => (u, k) :: attempts t'
  | _ :: t' => attempts t'
  end.

(** The delays slept, oldest first. *)
Fixpoint delays (t : list event) : list Z :=
  match t with
  | [] => []
  | EvDelay ms :: t' => ms :: delays t'
  | _ :: t' => delays t'
  end.

(** *** Constants *)

Definition CONFIG_maxRetries : Z := 3.
Definition maxRedirects : nat := 5.

(** [validateStatus: (status) => status >= 200 && status < 400] *)
Definition validateStatus (status : Z) : bool :=
  (200 <=? status) && (status <? 400).

(** axios over one outcome of the network, under the configuration the
    code passes: more redirects than [maxRedirects] and statuses refused
    by [validateStatus] reject, anything else resolves with the body. *)
Definition axios_get (r : raw_outcome) : string + js_error :=
  match r with
  | NetworkError e => inr e
  | Response redirects status data =>
      if (maxRedirects <? redirects)%nat
      then inr {| err_message := Some "Maximum number of redirects exceeded";
                  err_code := Some "ERR_FR_TOO_MANY_REDIRECTS";
                  err_status := None |}
      else if validateStatus status then inl data
      else inr {| err_message :=
                    Some ("Request failed with status code " +:+ Number_toString status);
                  err_code := Some (if status <? 500 then "ERR_BAD_REQUEST"
                                    else "ERR_BAD_RESPONSE");
                  err_status := Some status |}
  end.

(** *** Pure helpers *)

(** [s.replace(/pat/g, rep)] for a literal, non-empty pattern. *)
Fixpoint replace_go (pat rep : string) (skip : nat) (s : string) : string :=
  match s with
  | EmptyString => EmptyString
  | String c s' =>
      match skip with
      | S k => replace_go pat rep k s'
      | O =>
          if startsWith s pat
          then rep +:+ replace_go pat rep (String.length pat - 1) s'
          else String c (replace_go pat rep 0 s')
      end
  end.

Definition replaceAll (s pat rep : string) : string := replace_go pat rep 0 s.

Definition decodeHtmlEntities (str : string) : string :=
  let amp := "&" in
  let apos := "'" in
  let quot := String (ascii_of_N 34) EmptyString in
  let s1 := replaceAll str "&#038;" amp in
  let s2 := replaceAll s1 "&#38;" amp in
  let s3 := replaceAll s2 "&amp;" amp in
  let s4 := replaceAll s3 "&#039;" apos in
  let s5 := replaceAll s4 "&#39;" apos in
  let s6 := replaceAll s5 "&apos;" apos in
  let s7 := replaceAll s6 "&#034;" quot in
  let s8 := replaceAll s7 "&#34;" quot in
  let s9 := replaceAll s8 "&quot;" quot in
  let s10 := replaceAll s9 "&lt;" "<" in
  replaceAll s10 "&gt;" ">".

Section WithEnv.
Context `{Env}.

Definition normalizeUrl (rawUrl : option string) (base : string) : option string :=
  match rawUrl with
  | Some (String c r) =>
      let raw := String c r in
      if startsWith (toLowerCase raw) "javascript:" then None
      else URL_href (decodeHtmlEntities raw) base
  | _ => None
  end.

Fixpoint drop_chars (n : nat) (s : string) : string :=
  match n, s with
  | S n', String _ s' => drop_chars n' s'
  | _, _ => s
  end.

(** [hostname.replace(/^www\./, empty)] *)
Definition strip_www (h : string) : string :=
  if startsWith h "www." then drop_chars 4 h else h.

Definition TOONSTREAM_HOST : option string :=
  match URL_hostname homeUrl with
  | Some h => Some (strip_www h)
  | None => None
  end.

Definition isToonstreamUrl (url : option string) : bool :=
  match url, TOONSTREAM_HOST with
  | Some (String c r), Some (String c' r') =>
      match URL_hostname (String c r) with
      | Some h => String.eqb (strip_www h) (String c' r')
      | None => false
      end
  | _, _ => false
  end.

(** [parseEpisodeCode]: the leftmost match of [/(\d+)x(\d+)/i]. A match
    at the head of [s] needs the whole run of digits there to be followed
    by [x] or [X] and one more digit: a shorter run is followed by a
    digit. *)
Record EpisodeCode := { season : Z; episode : Z }.

Definition is_x (c : ascii) : bool :=
  Ascii.eqb c "x" || Ascii.eqb c "X".

Definition match_code_here (s : string) : option (string * string) :=
  match span_digits s with
  | (String a d1, String c r) =>
      if is_x c then
        match span_digits r with
        | (String b d2, _) => Some (String a d1, String b d2)
        | _ => None
        end
      else None
  | _ => None
  end.

Fixpoint search_code (s : string) : option (string * string) :=
  match match_code_here s with
  | Some m => Some m
  | None =>
      match s with
      | EmptyString => None
      | String _ s' => search_code s'
      end
  end.

Definition parseEpisodeCode (url : string) : option EpisodeCode :=
  match search_code url with
  | Some (m1, m2) =>
      Some {| season := parseInt_digits m1; episode := parseInt_digits m2 |}
  | None => None
  end.

(** *** [fetchHtmlWithRetry] *)

(** Header construction does not influence control flow and is left out;
    the referer is kept in the [EvPage] event. *)

Definition is_connection_error (e : js_error) : bool :=
  match err_code e with
  | Some c => String.eqb c "ECONNREFUSED" || String.eqb c "ETIMEDOUT"
  | None => false
  end.

(** The [for] loop, with [todo] iterations left and [attempt] the loop
    variable. Left: the body text returned. Right: the loop ran out, with
    [lastErr]. *)
Fixpoint retry_loop (todo : nat) (attempt : Z) (url : string)
    (lastErr : option js_error) (s : state) : (string + option js_error) * state :=
  match todo with
  | O => (inr lastErr, s)
  | S todo' =>
      let currentProxy := getNextProxy (requests s) in
      let outcome := axios_get (network (requests s) url) in
      let s1 := tick (emit (EvRequest url attempt currentProxy) s) in
      match outcome with
      | inl data => (inl data, s1)
      | inr err =>
          let s2 :=
            match currentProxy with
            | Some (String c r) =>
                if is_connection_error err then emit (EvProxyFailed (String c r)) s1
                else s1
            | _ => s1
            end in
          let s3 := emit (EvDelay (500 * attempt)) s2 in
          retry_loop todo' (attempt + 1) url (Some err) s3
      end
  end.

(** Left: the text returned. Right: the message of the error thrown. *)
Definition fetchHtmlWithRetry (url : string) (retries : Z) (referer : string)
    (s : state) : (string + string) * state :=
  match retry_loop (Z.to_nat retries) 1 url None (emit (EvPage url referer) s) with
  | (inl text, s') => (inl text, s')
  | (inr lastErr, s') =>
      let msg :=
        match lastErr with
        | Some e => or_default (err_message e) "unknown error"
        | None => "unknown error"
        end in
      (inr ("Failed to fetch " +:+ url +:+ ": " +:+ msg), s')
  end.

(** *** [extractRealVideoUrl] *)

Definition MAX_DEPTH : Z := embedMaxDepth + 2.

Definition any_includes (url : string) (pats : list string) : bool :=
  existsb (includes url) pats.

Definition needsFollow (url : option string) : bool :=
  match url with
  | Some (String c r) =>
      let u := String c r in
      includes u "trembed" || includes u "trid=" || includes u "trtype=" ||
      isToonstreamUrl url ||
      (includes u "/embed/" || includes u "/player/" || includes u "/e/")
  | _ => false
  end.

Definition videoExtensions : list string :=
  [".mp4"; ".m3u8"; ".webm"; ".mkv"; ".avi"; ".mov"; ".flv"].

Definition isVideoUrl (url : option string) : bool :=
  match url with
  | Some (String c r) =>
      let u := String c r in
      any_includes (toLowerCase u) videoExtensions ||
      (includes u "/video/" || includes u "/stream/" || includes u "/hls/") ||
      (includes u "googlevideo.com" || includes u "googleusercontent.com") ||
      (includes u "streamtape" || includes u "filemoon" || includes u "voe.sx") ||
      (includes u "dood" || includes u "mixdrop" || includes u "streamlare")
  | _ => false
  end.

(** What one [video]/[source] element offers [pickDirectVideo]:
    [src || data-src], normalised against the page, unless it is missing
    or a blob. *)
Definition video_source_url (node : element) (url : string) : option string :=
  let src := or_else (attr (el_attrs node) "src") (attr (el_attrs node) "data-src") in
  match normalizeUrl src url with
  | Some (String c r) =>
      if negb (startsWith (String c r) "blob:") then Some (String c r) else None
  | _ => None
  end.

(** [pickDirectVideo]: the first element, in document order, that offers
    something. *)
Fixpoint pickDirectVideo_loop (videoTags : list element) (url : string) : option string :=
  match videoTags with
  | [] => None
  | node :: rest =>
      match video_source_url node url with
      | Some normalized => Some normalized
      | None => pickDirectVideo_loop rest url
      end
  end.

Definition pickDirectVideo (html url : string) : option string :=
  pickDirectVideo_loop (select html SelVideoSource) url.

(** The test both [pickIframe] and [pickFromScripts] apply to a
    normalised candidate. *)
Definition usable (visited : gset string) (url : string) (normalized : option string) : bool :=
  match normalized with
  | Some (String c r) =>
      negb (String.eqb (String c r) url) && negb (bool_decide (String c r ∈ visited))
  | _ => false
  end.

Fixpoint iframeUrls (iframes : list element) (url : string) (visited : gset string)
    : list string :=
  match iframes with
  | [] => []
  | iframe :: rest =>
      let raw := or_else (attr (el_attrs iframe) "src")
                   (or_else (attr (el_attrs iframe) "data-src")
                            (attr (el_attrs iframe) "data-lazy-src")) in
      let normalized := normalizeUrl raw url in
      if usable visited url normalized
      then match normalized with
           | Some n => n :: iframeUrls rest url visited
           | None => iframeUrls rest url visited
           end
      else iframeUrls rest url visited
  end.

Definition pickIframe (html url : string) (visited : gset string) : option string :=
  head (iframeUrls (select html SelIframe) url visited).

(** The seven patterns of [pickFromScripts], by position. *)
Definition pattern_count : nat := 7.

Definition candidates_of_script (url : string) (visited : gset string) (content : string)
    : list string :=
  flat_map
    (fun k =>
       flat_map
         (fun candidate =>
            match candidate with
            | EmptyString => []
            | _ =>
                let normalized := normalizeUrl (Some candidate) url in
                if usable visited url normalized
                then match normalized with Some n => [n] | None => [] end
                else []
            end)
         (script_matches k content))
    (seq 0 pattern_count).

Definition pickFromScripts (html url : string) (visited : gset string) : option string :=
  let allCandidates :=
    flat_map (fun script => candidates_of_script url visited (el_html script))
             (select html SelScript) in
  match find (fun u => isVideoUrl (Some u)) allCandidates with
  | Some videoUrl => Some videoUrl
  | None =>
      match find (fun u => needsFollow (Some u) || includes u "/embed/" || includes u "/player/")
                 allCandidates with
      | Some embedUrl => Some embedUrl
      | None => head allCandidates
      end
  end.

Definition iframeNotToonstream (iframeUrl : string) : bool :=
  negb (includes iframeUrl "toonstream.one") &&
  negb (includes iframeUrl "trembed") &&
  negb (includes iframeUrl "trid=") &&
  negb (includes iframeUrl "trtype=").

Definition playerMarkers : list string :=
  ["play."; "player."; "/video/"; "/embed/"; "/e/"; "/t/"; "zephyrflick"; "filemoon";
   "streamtape"; "dood"; "voe.sx"; "mixdrop"; "emturbovid"; "turbovid"; "vidmoly";
   "streamwish"; "vidhide"; "vidguard"; "vidsrc"; "embedsito"; "upstream"; "mp4upload";
   "okru"; "sbplay"; "streamsb"; "vidcloud"; "goload"; "gogo"].

Definition isVideoPlayer (iframeUrl : string) : bool :=
  any_includes iframeUrl playerMarkers.

(** How the body of [resolve] ends once the page is there: with a value,
    or with the tail call [return resolve(next, depth + 1)]. *)
Inductive verdict :=
| Return (result : option string)
| Follow (next : string).

(** The [if (iframeUrl && depth < MAX_DEPTH)] block; [None] when control
    falls through it. *)
Definition iframe_block (iframeUrl : option string) (depth : Z) : option verdict :=
  match iframeUrl with
  | Some (String c r) =>
      let u := String c r in
      if depth <? MAX_DEPTH then
        if iframeNotToonstream u && (isVideoPlayer u || isVideoUrl (Some u))
        then Some (Return (Some u))
        else if iframeNotToonstream u && startsWith u "http"
        then Some (Return (Some u))
        else if needsFollow (Some u) then Some (Follow u)
        else None
      else None
  | _ => None
  end.

(** The [if (scriptUrl)] block. *)
Definition script_block (scriptUrl : option string) (depth : Z) : option verdict :=
  match scriptUrl with
  | Some (String c r) =>
      let u := String c r in
      if isVideoUrl (Some u) then Some (Return (Some u))
      else if needsFollow (Some u) && (depth <? MAX_DEPTH) then Some (Follow u)
      else None
  | _ => None
  end.

(** The body of [resolve] after the page was fetched and [url] added to
    [visited]. *)
Definition resolve_page (html url : string) (visited : gset string) (depth : Z) : verdict :=
  let directVideo := pickDirectVideo html url in
  if truthy directVideo && isVideoUrl directVideo then Return directVideo
  else
    let iframeUrl := pickIframe html url visited in
    match iframe_block iframeUrl depth with
    | Some v => v
    | None =>
        match script_block (pickFromScripts html url visited) depth with
        | Some v => v
        | None =>
            match iframeUrl with
            | Some (String c r) =>
                if depth <? MAX_DEPTH then Follow (String c r)
                else Return (Some (or_default directVideo url))
            | _ => Return (Some (or_default directVideo url))
            end
        end
    end.

(** [options.referer || options.parent || CONFIG.homeUrl] *)
Record resolve_options := { opt_referer : option string; opt_parent : option string }.

Definition referer_of (options : resolve_options) : string :=
  or_default (or_else (opt_referer options) (opt_parent options)) homeUrl.

(** [resolve], with the visited set of the enclosing call passed along.
    [fuel] bounds the nesting of calls; [None] means it ran out. *)
Fixpoint resolve (fuel : nat) (options : resolve_options) (visited : gset string)
    (url : string) (depth : Z) (s : state)
    : option (option string * gset string * state) :=
  match fuel with
  | O => None
  | S fuel' =>
      if negb (truthy (Some url)) then Some (None, visited, s)
      else if bool_decide (url ∈ visited) then Some (Some url, visited, s)
      else if MAX_DEPTH <? depth then Some (Some url, visited, s)
      else
        let visited' := {[url]} ∪ visited in
        match fetchHtmlWithRetry url CONFIG_maxRetries (referer_of options)
                (emit (EvVisit url) s) with
        | (inr _, s') => Some (None, visited', s')
        | (inl html, s') =>
            match resolve_page html url visited' depth with
            | Return result => Some (result, visited', s')
            | Follow next => resolve fuel' options visited' next (depth + 1) s'
            end
        end
  end.

(** Calls nest at most [MAX_DEPTH + 1] deep. *)
Definition resolve_fuel : nat := S (Z.to_nat MAX_DEPTH).

Definition extractRealVideoUrl (intermediateUrl : string) (options : resolve_options)
    (s : state) : option (option string * state) :=
  match resolve resolve_fuel options ∅ intermediateUrl 0 s with
  | Some (result, _, s') => Some (result, s')
  | None => None
  end.

(** *** [extractEmbeds] *)

Record serverOption := {
  so_name : string;
  so_trembedUrl : option string;
  so_directUrl : option string;
  so_option : option Z;          (* [None] is NaN *)
}.

Record embed := {
  em_name : string;
  em_url : string;
  em_real_video : string;
  em_type : string;
  em_intermediate_url : option string;
  em_option : option Z;
}.

(** [parseInt(nume) + 1] and its rendering in a template literal. *)
Definition succ_number (n : option Z) : option Z :=
  match n with Some z => Some (z + 1) | None => None end.

Definition show_number (n : option Z) : string :=
  match n with Some z => Number_toString z | None => "NaN" end.

(** First pass: the [li.dooplay_player_option] elements. *)
Fixpoint playerOptions (els : list element) (seen : gset string)
    (serverOptions : list serverOption) : gset string * list serverOption :=
  match els with
  | [] => (seen, serverOptions)
  | el :: rest =>
      let type := attr (el_attrs el) "data-type" in
      let post := attr (el_attrs el) "data-post" in
      let nume := attr (el_attrs el) "data-nume" in
      match post, nume with
      | Some (String pc pr), Some (String nc nr) =>
          let trembedUrl :=
            "https://toonstream.one/?trembed=" +:+ String nc nr +:+
            "&trid=" +:+ String pc pr +:+ "&trtype=" +:+ or_default type "2" in
          if bool_decide (trembedUrl ∈ seen) then playerOptions rest seen serverOptions
          else
            let n := succ_number (parseInt (String nc nr)) in
            playerOptions rest ({[trembedUrl]} ∪ seen)
              (serverOptions ++
               [{| so_name := "Server " +:+ show_number n;
                   so_trembedUrl := Some trembedUrl;
                   so_directUrl := None;
                   so_option := n |}])
      | _, _ => playerOptions rest seen serverOptions
      end
  end.

Definition isExternal (url : string) : bool :=
  negb (includes url "toonstream.one") &&
  negb (includes url "trembed") &&
  negb (includes url "trid=").

(** Second pass: the bare [iframe] elements. *)
Fixpoint iframeOptions (els : list element) (seen : gset string)
    (serverOptions : list serverOption) : gset string * list serverOption :=
  match els with
  | [] => (seen, serverOptions)
  | el :: rest =>
      let src := or_else (attr (el_attrs el) "src")
                   (or_else (attr (el_attrs el) "data-src")
                            (attr (el_attrs el) "data-lazy-src")) in
      match normalizeUrl src homeUrl with
      | Some (String c r) =>
          let url := String c r in
          if bool_decide (url ∈ seen) then iframeOptions rest seen serverOptions
          else
            let n := Z.of_nat (length serverOptions) + 1 in
            iframeOptions rest ({[url]} ∪ seen)
              (serverOptions ++
               [{| so_name := "Server " +:+ Number_toString n;
                   so_trembedUrl := if isExternal url then None else Some url;
                   so_directUrl := if isExternal url then Some url else None;
                   so_option := Some n |}])
      | _ => iframeOptions rest seen serverOptions
      end
  end.

Definition serverOptions_of (html : string) : list serverOption :=
  let '(seen, opts) := playerOptions (select html SelPlayerOption) ∅ [] in
  snd (iframeOptions (select html SelIframe) seen opts).

(** The test on a URL that [extractRealVideoUrl] returned for a candidate. *)
Definition accepted (realVideoUrl trembedUrl : string) : bool :=
  negb (String.eqb realVideoUrl trembedUrl) &&
  negb (includes realVideoUrl "toonstream.one") &&
  negb (includes realVideoUrl "trembed").

Definition direct_embed (server : serverOption) (directUrl : string) : embed :=
  {| em_name := so_name server; em_url := directUrl; em_real_video := directUrl;
     em_type := "iframe"; em_intermediate_url := None; em_option := so_option server |}.

Definition resolved_embed (server : serverOption) (realVideoUrl trembedUrl : string) : embed :=
  {| em_name := so_name server; em_url := realVideoUrl; em_real_video := realVideoUrl;
     em_type := "iframe"; em_intermediate_url := Some trembedUrl;
     em_option := so_option server |}.

(** The loop over [serverOptions]; [None] only if a resolution ran out of
    fuel. *)
Fixpoint embeds_loop (servers : list serverOption) (episodeUrl : string)
    (embeds : list embed) (s : state) : option (list embed * state) :=
  match servers with
  | [] => Some (embeds, s)
  | server :: rest =>
      match so_directUrl server with
      | Some (String c r) =>
          embeds_loop rest episodeUrl (embeds ++ [direct_embed server (String c r)]) s
      | _ =>
          match so_trembedUrl server with
          | Some (String c r) =>
              let t := String c r in
              match extractRealVideoUrl t
                      {| opt_referer := Some episodeUrl; opt_parent := Some episodeUrl |} s with
              | None => None
              | Some (realVideoUrl, s') =>
                  let embeds' :=
                    match realVideoUrl with
                    | Some (String c' r') =>
                        if accepted (String c' r') t
                        then embeds ++ [resolved_embed server (String c' r') t]
                        else embeds
                    | _ => embeds
                    end in
                  embeds_loop rest episodeUrl embeds' (emit (EvDelay 300) s')
              end
          | _ => embeds_loop rest episodeUrl embeds s
          end
      end
  end.

Definition extractEmbeds (html episodeUrl : string) (s : state)
    : option (list embed * state) :=
  embeds_loop (serverOptions_of html) episodeUrl [] s.

(** *** [extractSeriesEpisodeLinks] *)

Record link := {
  ln_url : string;
  ln_season : Z;
  ln_episode : Z;
  ln_title : string;
  ln_thumb : option string;
}.

(** The key of the [seen] set: [`${code.season}x${code.episode}`]. *)
Definition code_key (season episode : Z) : string :=
  Number_toString season +:+ "x" +:+ Number_toString episode.

(** What [addLink] makes of one anchor when it does not return early on
    the URL or the code. *)
Definition link_of_anchor (node : element) (seriesUrl : string) : option link :=
  match normalizeUrl (attr (el_attrs node) "href") seriesUrl with
  | Some (String c r) =>
      let url := String c r in
      if negb (includes url "/episode/") then None
      else
        match parseEpisodeCode url with
        | None => None
        | Some code =>
            let thumb :=
              match el_imgs node with
              | img :: _ =>
                  normalizeUrl (or_else (attr img "data-src") (attr img "src")) seriesUrl
              | [] => None
              end in
            Some {| ln_url := url; ln_season := season code;
                    ln_episode := episode code;
                    ln_title := trim (el_text node); ln_thumb := thumb |}
        end
  | _ => None
  end.

Definition link_key (l : link) : string := code_key (ln_season l) (ln_episode l).

(** [addLink] over the anchors in document order: a link is pushed
    unless its key was seen. *)
Fixpoint addLinks (anchors : list element) (seriesUrl : string) (seen : gset string)
    (links : list link) : list link :=
  match anchors with
  | [] => links
  | node :: rest =>
      match link_of_anchor node seriesUrl with
      | None => addLinks rest seriesUrl seen links
      | Some l =>
          if bool_decide (link_key l ∈ seen) then addLinks rest seriesUrl seen links
          else addLinks rest seriesUrl ({[link_key l]} ∪ seen) (links ++ [l])
      end
  end.

(** The comparator handed to [sort]. *)
Definition compareLinks (a b : link) : Z :=
  if ln_season a =? ln_season b then ln_episode a - ln_episode b
  else ln_season a - ln_season b.

(** [Array.prototype.sort] with a comparator: a stable sort. Insertion
    keeps an element before the later ones it does not exceed. *)
Fixpoint sort_insert {A : Type} (cmp : A -> A -> Z) (x : A) (l : list A) : list A :=
  match l with
  | [] => [x]
  | y :: l' => if cmp x y <=? 0 then x :: y :: l' else y :: sort_insert cmp x l'
  end.

Definition Array_sort {A : Type} (cmp : A -> A -> Z) (l : list A) : list A :=
  fold_right (sort_insert cmp) [] l.

Definition extractSeriesEpisodeLinks (seriesHtml seriesUrl : string) : list link :=
  Array_sort compareLinks
    (addLinks (select seriesHtml SelEpisodeAnchor) seriesUrl ∅ []).

(** *** [buildEpisodeRecord] *)

Record hints := {
  h_seriesUrl : option string;
  h_cardTitle : option string;
  h_code : option EpisodeCode;
}.

Record seriesCtx := {
  sc_slug : string;
  sc_title : string;
  sc_poster : option string;
}.

(** What the collaborators of one [buildEpisodeRecord] call answer:
    [resolveSeriesContext] for the series URL derived from the page (the
    message of the error it throws, or the context), the title read by
    [extractEpisodeMeta], and the clock. *)
Record collaborators := {
  co_series : seriesCtx + string;
  co_meta_title : option string;
  co_now : Z;
}.

Record episodeRecord := {
  er_series : seriesCtx;
  er_code : EpisodeCode;
  er_title : string;
  er_servers : list embed;
}.

(** [hints.code || parseEpisodeCode(episodeUrl) ||
     { season: 1, episode: Math.floor(Date.now() / 1000) }] *)
Definition episodeCodeFor (hint : option EpisodeCode) (episodeUrl : string) (now : Z)
    : EpisodeCode :=
  match hint with
  | Some code => code
  | None =>
      match parseEpisodeCode episodeUrl with
      | Some code => code
      | None => {| season := 1; episode := now / 1000 |}
      end
  end.

(** Left: the record. Right: the message of the error thrown. The image
    fields of the payload, which come from the collaborators alone, are
    left out. *)
Definition buildEpisodeRecord (episodeUrl : string) (h : hints) (co : collaborators)
    (s : state) : option ((episodeRecord + string) * state) :=
  match fetchHtmlWithRetry episodeUrl CONFIG_maxRetries
          (or_default (h_seriesUrl h) homeUrl) s with
  | (inr msg, s1) => Some (inr msg, s1)
  | (inl episodeHtml, s1) =>
      match co_series co with
      | inr msg => Some (inr msg, s1)
      | inl ctx =>
          let code := episodeCodeFor (h_code h) episodeUrl (co_now co) in
          match extractEmbeds episodeHtml episodeUrl s1 with
          | None => None
          | Some (embeds, s2) =>
              Some (inl {| er_series := ctx;
                           er_code := code;
                           er_title :=
                             or_default (or_else (co_meta_title co) (h_cardTitle h))
                               ("Episode " +:+ Number_toString (episode code));
                           er_servers := embeds |}, s2)
          end
      end
  end.

End WithEnv.
End Sync.

(** ** The Cloudflare Worker: [src/index.js] *)

Module Worker.
Import Js.

Record episode := {
  ep_id : string;
  ep_anime : string;
  ep_animeSlug : string;
  ep_season : Z;
  ep_episode : Z;
  ep_url : string;
}.

(** What the platform's [fetch] answers: it rejects, or it resolves with
    a response of which the code reads [ok], [status] and [text()]. *)
Inductive fetch_outcome :=
| Rejected (message : string)
| Responded (ok : bool) (status : Z) (text : string).

Class Env := {
  (** [fetch(url, ...)] for the k-th outbound page fetch *)
  fetch : nat -> string -> fetch_outcome;
  (** the pure scanners of the file, by what they return on a page *)
  extractEpisodesFromHomepage : string -> list episode;
  extractTrembedUrls : string -> list string;
  (** [match[1]] of every match of the iframe pattern of [resolveVideoUrl] *)
  iframeMatches : string -> list string;
  (** [match[1]] of the first of the two location patterns that matches *)
  locationMatch : string -> option string;
  (** Supabase: is the episode at loop index [i] already stored, and does
      its upsert report an error *)
  db_existing : nat -> bool;
  db_upsert_error : nat -> bool;
}.

Definition MAX_SUBREQUESTS : Z := 45.

Record state := {
  subrequestCount : Z;          (* the module-level counter *)
  fetched : list string;        (* outbound page fetches, oldest first *)
  progress : option nat;        (* last_index stored under sync_progress *)
}.

Record summary := {
  success : bool;
  error : option string;
  synced : Z;
  skipped : Z;
  subrequests : option Z;
}.

Section WithEnv.
Context `{Env}.

Definition canFetch (s : state) : bool := subrequestCount s <? MAX_SUBREQUESTS.

(** Left: the page text. Right: the message of the error thrown. *)
Definition fetchHtml (url : string) (s : state) : (string + string) * state :=
  if negb (canFetch s) then (inr "Subrequest limit reached", s)
  else
    let s1 := {| subrequestCount := subrequestCount s + 1;
                 fetched := fetched s ++ [url];
                 progress := progress s |} in
    match fetch (length (fetched s)) url with
    | Rejected message => (inr message, s1)
    | Responded ok status text =>
        if ok then (inl text, s1)
        else (inr ("HTTP " +:+ Number_toString status), s1)
    end.

(** [if (u.startsWith('//')) u = 'https:' + u] *)
Definition with_scheme (u : string) : string :=
  if startsWith u "//" then "https:" +:+ u else u.

Definition is_external (embedUrl : string) : bool :=
  negb (includes embedUrl "toonstream.one") &&
  negb (includes embedUrl "trembed") &&
  negb (includes embedUrl "trid=").

(** The part of [resolveVideoUrl] after the loop over the iframes. *)
Definition from_location (html : string) : option string :=
  match locationMatch html with
  | Some m =>
      let redirectUrl := with_scheme m in
      if negb (includes redirectUrl "toonstream.one") && negb (includes redirectUrl "trembed")
      then Some redirectUrl
      else None
  | None => None
  end.

(** [resolveVideoUrl]; [fuel] bounds the nesting of calls, [None] means
    it ran out. *)
Fixpoint resolveVideoUrl (fuel : nat) (trembedUrl : string) (depth : Z) (s : state)
    : option (option string * state) :=
  match fuel with
  | O => None
  | S fuel' =>
      if (3 <? depth) || negb (canFetch s) then Some (None, s)
      else
        match fetchHtml trembedUrl s with
        | (inr _, s1) => Some (None, s1)
        | (inl html, s1) =>
            (fix iframes (ms : list string) (s : state) : option (option string * state) :=
               match ms with
               | [] => Some (from_location html, s)
               | m :: ms' =>
                   let embedUrl := with_scheme m in
                   if is_external embedUrl then Some (Some embedUrl, s)
                   else if includes embedUrl "trembed" || includes embedUrl "trid=" then
                     match resolveVideoUrl fuel' embedUrl (depth + 1) s with
                     | None => None
                     | Some (Some (String c r), s') => Some (Some (String c r), s')
                     | Some (_, s') => iframes ms' s'
                     end
                   else iframes ms' s
               end) (iframeMatches html) s1
        end
  end.

(** Depths 0 to 4 are entered from depth 0. *)
Definition resolve_fuel : nat := 5.

Definition saveProgress (lastIndex : nat) (s : state) : state :=
  {| subrequestCount := subrequestCount s; fetched := fetched s;
     progress := Some lastIndex |}.

Definition getProgress (s : state) : nat :=
  match progress s with Some i => i | None => 0%nat end.

(** The loop over the server options of one episode. *)
Fixpoint servers_loop (trembedUrls : list string) (s : state)
    : option (option string * state) :=
  match trembedUrls with
  | [] => Some (None, s)
  | trembedUrl :: rest =>
      if negb (canFetch s) then Some (None, s)
      else
        match resolveVideoUrl resolve_fuel trembedUrl 0 s with
        | None => None
        | Some (Some (String c r), s') => Some (Some (String c r), s')
        | Some (_, s') => servers_loop rest s'
        end
  end.

Record counters := {
  syncedCount : Z;
  skippedCount : Z;
  processedIndex : nat;
}.

(** The [for] loop of [runSync] from index [i] over the episodes that
    are left. *)
Fixpoint episodes_loop (eps : list episode) (i : nat) (c : counters) (s : state)
    : option (counters * state) :=
  match eps with
  | [] => Some (c, s)
  | ep :: rest =>
      if negb (canFetch s) then Some (c, saveProgress i s)
      else
        let c1 := {| syncedCount := syncedCount c; skippedCount := skippedCount c;
                     processedIndex := i |} in
        if db_existing i then
          episodes_loop rest (S i)
            {| syncedCount := syncedCount c; skippedCount := skippedCount c + 1;
               processedIndex := i |} s
        else if negb (canFetch s) then Some (c1, saveProgress i s)
        else
          match fetchHtml (ep_url ep) s with
          | (inr _, s1) => episodes_loop rest (S i) c1 s1
          | (inl episodeHtml, s1) =>
              match extractTrembedUrls episodeHtml with
              | [] => episodes_loop rest (S i) c1 s1
              | trembedUrls =>
                  match servers_loop trembedUrls s1 with
                  | None => None
                  | Some (None, s2) => episodes_loop rest (S i) c1 s2
                  | Some (Some videoUrl, s2) =>
                      if db_upsert_error i then episodes_loop rest (S i) c1 s2
                      else
                        episodes_loop rest (S i)
                          {| syncedCount := syncedCount c + 1;
                             skippedCount := skippedCount c;
                             processedIndex := i |} s2
                  end
              end
          end
  end.

(** [runSync] from start to end with no other task of the isolate in
    between: the counter it resets is moved by its own fetches only. The
    run among other tasks is [Isolate.runSync] below. *)
Definition runSync (s : state) : option (summary * state) :=
  let s0 := {| subrequestCount := 0; fetched := fetched s; progress := progress s |} in
  match fetchHtml "https://toonstream.one/" s0 with
  | (inr message, s1) =>
      Some ({| success := false; error := Some message; synced := 0; skipped := 0;
               subrequests := None |}, s1)
  | (inl html, s1) =>
      let episodes := extractEpisodesFromHomepage html in
      match episodes with
      | [] =>
          Some ({| success := true; error := None; synced := 0; skipped := 0;
                   subrequests := None |}, s1)
      | _ =>
          let startIndex :=
            if (length episodes <=? getProgress s1)%nat then 0%nat else getProgress s1 in
          match episodes_loop (drop startIndex episodes) startIndex
                  {| syncedCount := 0; skippedCount := 0; processedIndex := startIndex |}
                  s1 with
          | None => None
          | Some (c, s2) =>
              let s3 :=
                if (length episodes - 1 <=? processedIndex c)%nat
                then saveProgress 0 s2 else s2 in
              Some ({| success := true; error := None; synced := syncedCount c;
                       skipped := skippedCount c;
                       subrequests := Some (subrequestCount s3) |}, s3)
          end
      end
  end.

End WithEnv.
End Worker.

(** ** Vocabulary of the properties, in the specification's words *)

Module Stated.
Import Js Sync.

(** [d1 x d2], the whole of [s]: two non-empty runs of digits around a
    lower-case x. *)
Definition is_code (s : string) : bool :=
  match span_digits s with
  | (String _ _, String "x" (String b r)) => all_digits (String b r)
  | _ => false
  end.

Fixpoint dash_code_tail (s : string) : bool :=
  match s with
  | EmptyString => false
  | String c s' => (Ascii.eqb c "-" && is_code s') || dash_code_tail s'
  end.

(** The slug pattern of the specification: some text, a dash, digits, x,
    digits, and nothing after. *)
Definition matches_slug_pattern (s : string) : bool :=
  match s with
  | EmptyString => false
  | String _ s' => dash_code_tail s'
  end.

(** [s] reads [pre], digits [d1], the letter [c], digits [d2], [post]. *)
Definition code_at (pre d1 : string) (c : ascii) (d2 post s : string) : Prop :=
  s = pre +:+ d1 +:+ String c (d2 +:+ post) /\
  d1 <> EmptyString /\ all_digits d1 = true /\
  is_x c = true /\
  d2 <> EmptyString /\ all_digits d2 = true.

Definition contains_code (s : string) : Prop :=
  exists pre d1 c d2 post, code_at pre d1 c d2 post s.

(** The leftmost place of [s] that holds a code, with the longest runs
    of digits [d1] and [d2] there. *)
Definition leftmost_place (s d1 d2 : string) : Prop :=
  exists pre c post,
    code_at pre d1 c d2 post s /\
    fst (span_digits post) = EmptyString /\
    forall pre' d1' c' d2' post',
      code_at pre' d1' c' d2' post' s -> (String.length pre <= String.length pre')%nat.

(** No lower-case x in the text: the digits of the keys of the seen-set
    have none. *)
Fixpoint lacks_x (s : string) : bool :=
  match s with
  | EmptyString => true
  | String c r => negb (Ascii.eqb c "x") && lacks_x r
  end.

(** Not after, for a comparator in the manner of [Array.prototype.sort]. *)
Definition cmp_le {A : Type} (cmp : A -> A -> Z) (x y : A) : Prop := cmp x y <= 0.

(** The loop variable of [fetchHtmlWithRetry] over [n] iterations that
    start at [from]. *)
Fixpoint attempt_numbers (from : Z) (n : nat) : list Z :=
  match n with
  | O => []
  | S n' => from :: attempt_numbers (from + 1) n'
  end.

Section Links.
Context `{Env}.

(** The request with this index meets a failure, as axios sees it. *)
Definition fails (k : nat) (url : string) : Prop :=
  exists e, axios_get (network k url) = inr e.

(** Every page asked for comes right after the [visited.add] of its
    URL; [prev] is the event before the trace. *)
Fixpoint page_after (prev : option event) (t : list event) : bool :=
  match t with
  | [] => true
  | e :: t' =>
      match e with
      | EvPage u _ =>
          match prev with
          | Some (EvVisit v) => String.eqb v u
          | _ => false
          end
      | _ => true
      end && page_after (Some e) t'
  end.

Definition page_after_visit (t : list event) : bool := page_after None t.

(** One call of [resolve]: its arguments, the visited set of the
    enclosing [extractRealVideoUrl] and the state it starts in. *)
Record call := {
  c_visited : gset string;
  c_url : string;
  c_depth : Z;
  c_state : state;
}.

(** The call gets past the three guards and asks for its page. *)
Definition live (c : call) : Prop :=
  c_url c <> EmptyString /\ (c_url c ∉ c_visited c) /\ c_depth c <= MAX_DEPTH.

Definition page_of (options : resolve_options) (c : call) : (string + string) * state :=
  fetchHtmlWithRetry (c_url c) CONFIG_maxRetries (referer_of options)
    (emit (EvVisit (c_url c)) (c_state c)).

(** A hop of the chain: the call [c] gets its page and ends in the tail
    call [c']. *)
Inductive hop (options : resolve_options) : call -> call -> Prop :=
| hop_follow (c : call) (html next : string) (s1 : state) :
    live c ->
    page_of options c = (inl html, s1) ->
    resolve_page html (c_url c) ({[c_url c]} ∪ c_visited c) (c_depth c) = Follow next ->
    hop options c {| c_visited := {[c_url c]} ∪ c_visited c; c_url := next;
                     c_depth := c_depth c + 1; c_state := s1 |}.

(** The first call of [extractRealVideoUrl]. *)
Definition first_call (intermediateUrl : string) (s : state) : call :=
  {| c_visited := ∅; c_url := intermediateUrl; c_depth := 0; c_state := s |}.

(** What stands behind an entry of the list: a server option with a
    direct URL, or a candidate whose resolution returned this URL. *)
Definition entry_from (servers : list serverOption) (episodeUrl : string) (e : embed) : Prop :=
  em_real_video e = em_url e /\
  em_url e <> EmptyString /\
  match em_intermediate_url e with
  | None =>
      exists server, server ∈ servers /\ so_directUrl server = Some (em_url e)
  | Some trembedUrl =>
      (exists server,
         server ∈ servers /\ so_trembedUrl server = Some trembedUrl /\
         so_name server = em_name e) /\
      em_url e <> trembedUrl /\
      includes (em_url e) "toonstream.one" = false /\
      includes (em_url e) "trembed" = false /\
      exists s0 s1,
        extractRealVideoUrl trembedUrl
          {| opt_referer := Some episodeUrl; opt_parent := Some episodeUrl |} s0
        = Some (Some (em_url e), s1)
  end.

(** A direct URL among the server options is an external one. *)
Definition direct_is_external (server : serverOption) : Prop :=
  forall u, so_directUrl server = Some u -> isExternal u = true /\ u <> EmptyString.

Definition pair_of (l : link) : Z * Z := (ln_season l, ln_episode l).

(** Ascending by season, then by episode. *)
Definition link_lt (a b : link) : Prop :=
  ln_season a < ln_season b \/ (ln_season a = ln_season b /\ ln_episode a < ln_episode b).

(** [l] comes from an anchor before which, in document order, no anchor
    offers the same season and episode. *)
Definition first_offer (anchors : list element) (seriesUrl : string) (l : link) : Prop :=
  exists pre node post,
    anchors = pre ++ node :: post /\
    link_of_anchor node seriesUrl = Some l /\
    forall n l', n ∈ pre -> link_of_anchor n seriesUrl = Some l' -> pair_of l' <> pair_of l.

End Links.

End Stated.

(** ** A fixture site

    A small closed world to run the model on: a handful of pages, a URL
    parser that covers the URLs of those pages, a cheerio that knows their
    markup, and a network that serves them. *)

Module Fixture.
Import Js Sync Stated.

Definition el (a : attrs) : element :=
  {| el_attrs := a; el_text := EmptyString; el_html := EmptyString; el_imgs := [] |}.

Definition anchor (href text : string) : element :=
  {| el_attrs := [("href", href)]; el_text := text; el_html := EmptyString; el_imgs := [] |}.

Record page := {
  pg_url : string;
  pg_html : string;
  pg_select : selector -> list element;
}.

Definition only (sel : selector) (els : list element) : selector -> list element :=
  fun q =>
    match sel, q with
    | SelVideoSource, SelVideoSource | SelIframe, SelIframe | SelScript, SelScript
    | SelPlayerOption, SelPlayerOption | SelEpisodeAnchor, SelEpisodeAnchor => els
    | _, _ => []
    end.

Definition both (f g : selector -> list element) : selector -> list element :=
  fun q => f q ++ g q.

Definition trembed (nume : string) : string :=
  "https://toonstream.one/?trembed=" +:+ nume +:+ "&trid=42&trtype=2".

Definition streamtape : string := "https://streamtape.com/e/abc".
Definition mp4 : string := "https://cdn.example.com/x.mp4".
Definition clip : string := "https://cdn.example.com/media/12345".
Definition blank : string := "about:blank".

(** Option 0 embeds an external player; options 3 and 4 embed each other;
    option 5 has a direct video and an external iframe; option 6 has a
    video element whose address does not look like a video, and an
    external iframe; option 7 embeds a frame that is not http; options 10
    to 15 form a chain of same-site frames that ends on an external one.
    Option 1 is not served. *)
Definition pages_list : list page :=
  [ {| pg_url := trembed "0"; pg_html := "<iframe src='https://streamtape.com/e/abc'>";
       pg_select := only SelIframe [el [("src", streamtape)]] |};
    {| pg_url := trembed "3"; pg_html := "<iframe data-src='?trembed=4'>";
       pg_select := only SelIframe [el [("data-src", trembed "4")]] |};
    {| pg_url := trembed "4"; pg_html := "<iframe src='?trembed=3'>";
       pg_select := only SelIframe [el [("src", trembed "3")]] |};
    {| pg_url := trembed "5"; pg_html := "<video src='x.mp4'><iframe src='streamtape'>";
       pg_select := both (only SelVideoSource [el [("src", mp4)]])
                         (only SelIframe [el [("src", streamtape)]]) |};
    {| pg_url := trembed "6"; pg_html := "<video src='media/12345'><iframe src='streamtape'>";
       pg_select := both (only SelVideoSource [el [("src", clip)]])
                         (only SelIframe [el [("src", streamtape)]]) |};
    {| pg_url := trembed "7"; pg_html := "<iframe src='about:blank'>";
       pg_select := only SelIframe [el [("src", blank)]] |};
    {| pg_url := trembed "10"; pg_html := "<iframe src='?trembed=11'>";
       pg_select := only SelIframe [el [("src", trembed "11")]] |};
    {| pg_url := trembed "11"; pg_html := "<iframe src='?trembed=12'>";
       pg_select := only SelIframe [el [("src", trembed "12")]] |};
    {| pg_url := trembed "12"; pg_html := "<iframe src='?trembed=13'>";
       pg_select := only SelIframe [el [("src", trembed "13")]] |};
    {| pg_url := trembed "13"; pg_html := "<iframe src='?trembed=14'>";
       pg_select := only SelIframe [el [("src", trembed "14")]] |};
    {| pg_url := trembed "14"; pg_html := "<iframe src='?trembed=15'>";
       pg_select := only SelIframe [el [("src", trembed "15")]] |};
    {| pg_url := trembed "15"; pg_html := "<iframe src='streamtape' class='deep'>";
       pg_select := only SelIframe [el [("src", streamtape)]] |};
    {| pg_url := "https://toonstream.one/episode/naruto-2x5/";
       pg_html := "<li class='dooplay_player_option' ...> x3 <iframe src='streamtape'>";
       pg_select :=
         both (only SelPlayerOption
                 [el [("data-type", "2"); ("data-post", "42"); ("data-nume", "0")];
                  el [("data-type", "2"); ("data-post", "42"); ("data-nume", "1")];
                  el [("data-type", "2"); ("data-post", "42"); ("data-nume", "3")]])
              (only SelIframe [el [("src", "https://vidmoly.to/embed-xyz.html")]]) |};
    {| pg_url := "https://toonstream.one/episode/naruto-special/";
       pg_html := "<li class='dooplay_player_option' data-post='42' data-nume='0'>";
       pg_select :=
         only SelPlayerOption
           [el [("data-type", "2"); ("data-post", "42"); ("data-nume", "0")]] |};
    {| pg_url := "https://toonstream.one/series/naruto/";
       pg_html := "<a href='/episode/naruto-2x1/'>...";
       pg_select :=
         only SelEpisodeAnchor
           [anchor "https://toonstream.one/episode/naruto-2x1/" "Two-One";
            anchor "https://toonstream.one/episode/naruto-1x2/" " One-Two ";
            anchor "https://toonstream.one/episode/naruto-special/" "Special";
            anchor "https://toonstream.one/episode/naruto-1x1/" "One-One";
            anchor "https://toonstream.one/episode/naruto-01x02/" "One-Two again"] |} ].

Fixpoint find_page (key : page -> string) (k : string) (l : list page) : option page :=
  match l with
  | [] => None
  | p :: l' => if String.eqb (key p) k then Some p else find_page key k l'
  end.

(** The part of a URL between [://] and the next slash. *)
Fixpoint until_slash (s : string) : string :=
  match s with
  | EmptyString => EmptyString
  | String c s' => if Ascii.eqb c "/" then EmptyString else String c (until_slash s')
  end.

Fixpoint hostname_of (s : string) : option string :=
  match s with
  | EmptyString => None
  | String c s' =>
      if startsWith s "://"
      then match s' with
           | String _ (String _ r) => Some (until_slash r)
           | _ => None
           end
      else hostname_of s'
  end.

(** The fixture's URL parser: anything with a scheme is taken as it is,
    anything else is appended to the base. *)
Definition fixture_href (raw base : string) : option string :=
  if includes raw ":" then Some raw else Some (base +:+ raw).

Definition fixture_select (html : string) (sel : selector) : list element :=
  match find_page pg_html html pages_list with
  | Some p => pg_select p sel
  | None => []
  end.

Definition unreachable : raw_outcome :=
  NetworkError {| err_message := Some "connect ECONNREFUSED";
                  err_code := Some "ECONNREFUSED"; err_status := None |}.

Definition fixture_network (k : nat) (url : string) : raw_outcome :=
  match find_page pg_url url pages_list with
  | Some p => Response 0 200 (pg_html p)
  | None => unreachable
  end.

#[local] Instance site : Env := {|
  homeUrl := "https://toonstream.one/home/";
  embedMaxDepth := 3;
  URL_href := fixture_href;
  URL_hostname := hostname_of;
  select := fixture_select;
  script_matches := fun _ _ => [];
  getNextProxy := fun _ => None;
  network := fixture_network;
|}.

(** The same site behind a network that refuses the first two requests
    of the run, and one that answers 503 to everything through a proxy. *)
Definition flaky_network (k : nat) (url : string) : raw_outcome :=
  if (k <? 2)%nat then unreachable else fixture_network k url.

#[local] Instance flaky_site : Env := {|
  homeUrl := "https://toonstream.one/home/";
  embedMaxDepth := 3;
  URL_href := fixture_href;
  URL_hostname := hostname_of;
  select := fixture_select;
  script_matches := fun _ _ => [];
  getNextProxy := fun _ => None;
  network := flaky_network;
|}.

#[local] Instance down_site : Env := {|
  homeUrl := "https://toonstream.one/home/";
  embedMaxDepth := 3;
  URL_href := fixture_href;
  URL_hostname := hostname_of;
  select := fixture_select;
  script_matches := fun _ _ => [];
  getNextProxy := fun _ => Some "10.0.0.1:8080";
  network := fun k _ => if (k =? 2)%nat then unreachable
                        else Response 0 503 "Service Unavailable";
|}.

Definition no_options : resolve_options := {| opt_referer := None; opt_parent := None |}.

(** What a resolution from a fresh state returns, and the pages it asked
    for. *)
Definition run (E : Env) (intermediateUrl : string) : option (option string * list string) :=
  match @extractRealVideoUrl E intermediateUrl no_options initial with
  | Some (result, s) => Some (result, pages (trace s))
  | None => None
  end.

Definition html_of (url : string) : string :=
  match find_page pg_url url pages_list with
  | Some p => pg_html p
  | None => EmptyString
  end.

(** The call on option 7 and the call it ends in, on the frame that is
    not http. *)
Definition call_7 : call := first_call (trembed "7") initial.

Definition page_7 : (string + string) * state :=
  Eval vm_compute in @page_of site no_options call_7.

Definition call_blank : call :=
  {| c_visited := {[trembed "7"]} ∪ ∅; c_url := blank; c_depth := 0 + 1;
     c_state := snd page_7 |}.

Definition page_blank : (string + string) * state :=
  Eval vm_compute in @page_of site no_options call_blank.

Definition thrown (r : (string + string) * state) : string :=
  match fst r with inr message => message | inl _ => EmptyString end.

(** The call on option 5, whose page has a direct video and an external
    frame, and the call on option 0, whose page has the frame alone. *)
Definition call_5 : call := first_call (trembed "5") initial.
Definition page_5 : (string + string) * state :=
  Eval vm_compute in @page_of site no_options call_5.

(** The call on option 6, whose page has a video element that does not
    look like a video, and an external frame. *)
Definition call_6 : call := first_call (trembed "6") initial.
Definition page_6 : (string + string) * state :=
  Eval vm_compute in @page_of site no_options call_6.

Definition call_0 : call := first_call (trembed "0") initial.
Definition page_0 : (string + string) * state :=
  Eval vm_compute in @page_of site no_options call_0.

(** The episode page with three player options and an external frame,
    and what [extractEmbeds] makes of it. *)
Definition episode_2x5 : string := "https://toonstream.one/episode/naruto-2x5/".

Definition embeds_2x5 : list embed * state :=
  Eval vm_compute in
    match @extractEmbeds site (html_of episode_2x5) episode_2x5 initial with
    | Some r => r
    | None => ([], initial)
    end.

Definition server_1 : embed :=
  {| em_name := "Server 1"; em_url := streamtape; em_real_video := streamtape;
     em_type := "iframe"; em_intermediate_url := Some (trembed "0");
     em_option := Some 1 |}.

(** An episode page whose address holds no season and episode, and the
    answers of the collaborators for it. *)
Definition episode_special : string := "https://toonstream.one/episode/naruto-special/".

Definition no_hints : hints :=
  {| h_seriesUrl := None; h_cardTitle := None; h_code := None |}.

Definition naruto : seriesCtx :=
  {| sc_slug := "naruto"; sc_title := "Naruto"; sc_poster := None |}.

Definition answers : collaborators :=
  {| co_series := inl naruto; co_meta_title := None; co_now := 1700000000123 |}.

Definition page_special : (string + string) * state :=
  Eval vm_compute in
    @fetchHtmlWithRetry site episode_special CONFIG_maxRetries "https://toonstream.one/home/"
      initial.

(** A mirror of the site, as [TOONSTREAM_HOME_URL] configures one: the
    episode page frames a trembed page of the mirror, which frames a
    watch page of the mirror. *)
Definition mirror_episode : string := "https://toonworld.example/episode/naruto-2x5/".
Definition mirror_trembed : string := "https://toonworld.example/?trembed=0&trid=42&trtype=2".
Definition mirror_watch : string := "https://toonworld.example/watch/naruto-2x5".

Definition mirror_pages : list page :=
  [ {| pg_url := mirror_episode; pg_html := "<iframe src='/?trembed=0&trid=42&trtype=2'>";
       pg_select := only SelIframe [el [("src", mirror_trembed)]] |};
    {| pg_url := mirror_trembed; pg_html := "<iframe src='/watch/naruto-2x5'>";
       pg_select := only SelIframe [el [("src", mirror_watch)]] |} ].

#[local] Instance mirror : Env := {|
  homeUrl := "https://toonworld.example/home/";
  embedMaxDepth := 3;
  URL_href := fixture_href;
  URL_hostname := hostname_of;
  select := fun html sel =>
    match find_page pg_html html mirror_pages with
    | Some p => pg_select p sel
    | None => []
    end;
  script_matches := fun _ _ => [];
  getNextProxy := fun _ => None;
  network := fun _ url =>
    match find_page pg_url url mirror_pages with
    | Some p => Response 0 200 (pg_html p)
    | None => unreachable
    end;
|}.

Definition mirror_html : string := "<iframe src='/?trembed=0&trid=42&trtype=2'>".

Definition mirror_entry : embed :=
  {| em_name := "Server 1"; em_url := mirror_watch; em_real_video := mirror_watch;
     em_type := "iframe"; em_intermediate_url := Some mirror_trembed;
     em_option := Some 1 |}.

End Fixture.

(** ** A fixture for the Worker

    A homepage with three episodes whose pages embed an external player
    directly behind one trembed frame. *)

Module WorkerFixture.
Import Js Worker.

(** From [s] to [s'] the counter has advanced by the number of pages
    fetched, and it has not passed the cap if it was not beyond it. *)
Definition grows (s s' : state) : Prop :=
  exists new,
    fetched s' = fetched s ++ new /\
    subrequestCount s' = subrequestCount s + Z.of_nat (length new) /\
    (subrequestCount s <= MAX_SUBREQUESTS -> subrequestCount s' <= MAX_SUBREQUESTS).


Definition ep (n : Z) : episode :=
  {| ep_id := "naruto-s1e" +:+ Number_toString n;
     ep_anime := "Naruto"; ep_animeSlug := "naruto";
     ep_season := 1; ep_episode := n;
     ep_url := "https://toonstream.one/episode/naruto-1x" +:+ Number_toString n +:+ "/" |}.

#[local] Instance site : Env := {|
  fetch := fun _ url =>
    if includes url "trembed" then Responded true 200 "<iframe src='//streamtape.com/e/abc'>"
    else if includes url "/episode/" then Responded true 200 "<iframe src='/?trembed=0&trid=42'>"
    else Responded true 200 "home";
  extractEpisodesFromHomepage := fun _ => [ep 1; ep 2; ep 3];
  extractTrembedUrls := fun html =>
    if includes html "trembed" then ["https://toonstream.one/?trembed=0&trid=42"] else [];
  iframeMatches := fun html =>
    if includes html "streamtape" then ["//streamtape.com/e/abc"] else [];
  locationMatch := fun _ => None;
  db_existing := fun i => (i =? 0)%nat;
  db_upsert_error := fun _ => false;
|}.

(** The same site with thirty new episodes on the homepage: two page
    fetches each, more than one run may issue. *)
#[local] Instance busy : Env := {|
  fetch := @fetch site;
  extractEpisodesFromHomepage := fun _ => map (fun n => ep (Z.of_nat n)) (seq 1 30);
  extractTrembedUrls := @extractTrembedUrls site;
  iframeMatches := @iframeMatches site;
  locationMatch := fun _ => None;
  db_existing := fun _ => false;
  db_upsert_error := fun _ => false;
|}.

Definition fresh : state := {| subrequestCount := 0; fetched := []; progress := None |}.



End WorkerFixture.

(** ** The Node script: keys and addresses

    The small helpers of [toonstream-supabase-sync.js] that build keys
    and addresses and take them apart again. *)

Module Addresses.
Import Js Sync.

(** [`${slug}::${season}x${episode}`] *)
Definition makeEpisodeKey (slug : string) (season episode : Z) : string :=
  slug +:+ "::" +:+ Number_toString season +:+ "x" +:+ Number_toString episode.

(** [`${season}x${episode}`] *)
Definition makeSeasonEpisodeKey (season episode : Z) : string :=
  Number_toString season +:+ "x" +:+ Number_toString episode.

(** [new URL(url).pathname]; [None] when the constructor throws. *)
Class UrlPath := {
  URL_pathname : string -> option string;
}.

(** [pathname.split("/").filter(Boolean)]: the pieces between slashes
    that are not empty. [pieces] gives the piece that is open at the head
    of the text and the closed ones after it. *)
Definition keep (piece : string) (rest : list string) : list string :=
  match piece with
  | EmptyString => rest
  | _ => piece :: rest
  end.

Fixpoint pieces (s : string) : string * list string :=
  match s with
  | EmptyString => (EmptyString, [])
  | String c s' =>
      let '(cur, rest) := pieces s' in
      if Ascii.eqb c "/" then (EmptyString, keep cur rest) else (String c cur, rest)
  end.

Definition path_parts (pathname : string) : list string :=
  let '(cur, rest) := pieces pathname in keep cur rest.

(** Digits, x or X, digits, and nothing else. *)
Definition is_code_tail (s : string) : bool :=
  match span_digits s with
  | (String _ _, String c (String b r)) => is_x c && all_digits (String b r)
  | _ => false
  end.

(** [s.replace(/-\d+x\d+$/i, empty)]: the text before the leftmost dash
    that is followed by a code up to the end. *)
Fixpoint strip_code_suffix (s : string) : string :=
  match s with
  | EmptyString => EmptyString
  | String c s' =>
      if Ascii.eqb c "-" && is_code_tail s' then EmptyString
      else String c (strip_code_suffix s')
  end.

Section WithEnv.
Context `{Env} `{UrlPath}.

Definition extractSeriesSlugFromUrl (seriesUrl : string) : option string :=
  match URL_pathname seriesUrl with
  | Some pathname => last (path_parts pathname)
  | None => None
  end.

Definition deriveSeriesUrlFromEpisode (episodeUrl : string) : option string :=
  match URL_pathname episodeUrl with
  | Some pathname =>
      let parts := path_parts pathname in
      let episodeSlug :=
        match parts with
        | _ :: second :: _ => second
        | [only] => only
        | [] => EmptyString
        end in
      match episodeSlug with
      | EmptyString => None
      | _ =>
          let baseSlug :=
            match strip_code_suffix episodeSlug with
            | EmptyString => episodeSlug
            | stripped => stripped
            end in
          Some (homeUrl +:+ "series/" +:+ baseSlug +:+ "/")
      end
  | None => None
  end.

Definition buildSeriesUrlFromSlug (seriesSlug : string) : option string :=
  match seriesSlug with
  | EmptyString => None
  | _ => Some (homeUrl +:+ "series/" +:+ seriesSlug +:+ "/")
  end.

Definition buildEpisodeUrl (seriesSlug : string) (season episode : Z) : option string :=
  match seriesSlug with
  | EmptyString => None
  | _ =>
      Some (homeUrl +:+ "episode/" +:+ seriesSlug +:+ "-" +:+ Number_toString season
            +:+ "x" +:+ Number_toString episode +:+ "/")
  end.

End WithEnv.
End Addresses.

(** ** Vocabulary for keys and addresses, and a URL parser to run them *)

Module AddressTerms.
Import Js Sync Addresses.

(** A character that can neither belong to a code nor continue one. *)
Definition separator (c : ascii) : Prop := is_digit c = false /\ is_x c = false.

(** The string [s] does not hold the character [c]. *)
Fixpoint lacks (c : ascii) (s : string) : bool :=
  match s with
  | EmptyString => true
  | String a r => negb (Ascii.eqb a c) && lacks c r
  end.

(** The path of an address without query or fragment: what follows the
    host, or a single slash. *)
Fixpoint from_slash (s : string) : string :=
  match s with
  | EmptyString => "/"
  | String c s' => if Ascii.eqb c "/" then s else from_slash s'
  end.

Fixpoint pathname_of (s : string) : option string :=
  match s with
  | EmptyString => None
  | String c s' =>
      if startsWith s "://"
      then match s' with
           | String _ (String _ r) => Some (from_slash r)
           | _ => None
           end
      else pathname_of s'
  end.

#[local] Instance paths : UrlPath := {| URL_pathname := pathname_of |}.

End AddressTerms.

(** ** Vocabulary for the effects of a fetch *)

Module FetchTerms.
Import Js Sync.

(** The proxies reported to [proxyManager.markProxyAsFailed], oldest
    first. *)
Fixpoint marked (t : list event) : list string :=
  match t with
  | [] => []
  | EvProxyFailed p :: t' => p :: marked t'
  | _ :: t' => marked t'
  end.

(** The code of the error is one of the two that count against a proxy. *)
Definition connection_code (e : js_error) : Prop :=
  err_code e = Some "ECONNREFUSED" \/ err_code e = Some "ETIMEDOUT".

End FetchTerms.

(** ** Vocabulary for the server options of a page *)

Module EmbedTerms.
Import Js Sync.

Section WithEnv.
Context `{Env}.

(** The URL a server option stands for: [directUrl] when there is one,
    else [trembedUrl]. *)
Definition so_url (server : serverOption) : string :=
  match so_directUrl server with
  | Some (String c r) => String c r
  | _ => or_default (so_trembedUrl server) EmptyString
  end.

(** The address the first pass builds for a player option that has a
    [data-post] and a [data-nume]. *)
Definition player_option_url (el : element) : option string :=
  match attr (el_attrs el) "data-post", attr (el_attrs el) "data-nume" with
  | Some (String pc pr), Some (String nc nr) =>
      Some ("https://toonstream.one/?trembed=" +:+ String nc nr +:+
            "&trid=" +:+ String pc pr +:+ "&trtype=" +:+
            or_default (attr (el_attrs el) "data-type") "2")
  | _, _ => None
  end.

(** The address the second pass reads off a frame. *)
Definition iframe_option_url (el : element) : option string :=
  match normalizeUrl (or_else (attr (el_attrs el) "src")
                        (or_else (attr (el_attrs el) "data-src")
                                 (attr (el_attrs el) "data-lazy-src"))) homeUrl with
  | Some (String c r) => Some (String c r)
  | _ => None
  end.

(** An entry of the result stands for a server option. *)
Definition embed_of (e : embed) (server : serverOption) : Prop :=
  em_name e = so_name server /\ em_option e = so_option server /\
  match em_intermediate_url e with
  | None => so_directUrl server = Some (em_url e)
  | Some t => truthy (so_directUrl server) = false /\ so_trembedUrl server = Some t
  end.

(** What the two passes keep true of the set and the list they build:
    the options stand for pairwise different URLs, which are those of
    the set, none is empty, and an option is direct exactly when its URL
    is external. *)
Definition tidy (seen : gset string) (opts : list serverOption) : Prop :=
  NoDup (map so_url opts) /\
  (forall u, u ∈ map so_url opts <-> u ∈ seen) /\
  Forall (fun server =>
            so_url server <> EmptyString /\
            truthy (so_directUrl server) = isExternal (so_url server))
         opts.

End WithEnv.
End EmbedTerms.

(** ** The Node script: the homepage and the choice of episodes *)

Module Homepage.
Import Js Sync Addresses.

(** [Array.from(new Set(l))]: the first occurrences, in order. *)
Fixpoint Set_values (l : list string) (seen : gset string) : list string :=
  match l with
  | [] => []
  | x :: l' =>
      if bool_decide (x ∈ seen) then Set_values l' seen
      else x :: Set_values l' ({[x]} ∪ seen)
  end.

(** A row of the [episodes] table, as far as the script reads it here. *)
Record row := { row_season : Z; row_episode : Z }.

(** An entry of [fetchEpisodeDataFromAPI]. *)
Record apiLink := {
  al_url : string;
  al_season : Z;
  al_episode : Z;
  al_title : string;
}.

(** [triggeringEpisode] *)
Record trigger := { tr_season : Z; tr_episode : Z }.

(** The set [existingEpisodes] that [ensureSeriesComplete] builds from
    the rows of the series. *)
Definition existingEpisodes (existingData : list row) : gset string :=
  list_to_set (map (fun ep => makeSeasonEpisodeKey (row_season ep) (row_episode ep))
                   existingData).

Definition missing_links (allEpisodeLinks : list apiLink) (existing : gset string)
    : list apiLink :=
  filter (fun link =>
            makeSeasonEpisodeKey (al_season link) (al_episode link) ∉ existing)
         allEpisodeLinks.

(** The smart-sync choice of [ensureSeriesComplete]: the list the final
    loop runs over; empty where the function returns before it. *)
Definition episodesToSync (allEpisodeLinks : list apiLink) (existingData : list row)
    (triggeringEpisode : option trigger) : list apiLink :=
  let existing := existingEpisodes existingData in
  let missing := missing_links allEpisodeLinks existing in
  match missing with
  | [] => []
  | _ =>
      match triggeringEpisode with
      | Some t =>
          let prevEpisode := tr_episode t - 1 in
          let prevKey := makeSeasonEpisodeKey (tr_season t) prevEpisode in
          let prevExists := bool_decide (prevKey ∈ existing) || (prevEpisode <? 1) in
          if prevExists then
            match find (fun m => (al_season m =? tr_season t) &&
                                 (al_episode m =? tr_episode t)) missing with
            | Some newEp => [newEp]
            | None => []
            end
          else missing
      | None => missing
      end
  end.

Section WithEnv.
Context `{Env}.

Definition defaultFallbacks : list string :=
  [homeUrl +:+ "home/"; homeUrl +:+ "page/1/"].

(** [CONFIG.homepageCandidates], for the fallbacks of the environment
    already split, trimmed and filtered. *)
Definition homepageCandidates (envFallbacks : list string) : list string :=
  Set_values (homeUrl :: envFallbacks ++ defaultFallbacks) ∅.

(** The loop of [fetchHomepageHtml]; [lastErr] holds the message of the
    last error caught. Left: the page. Right: the message thrown. *)
Fixpoint homepage_loop (candidates : list string) (lastErr : option string) (s : state)
    : (string + string) * state :=
  match candidates with
  | [] =>
      (inr (match lastErr with
            | Some message => message
            | None => "All homepage candidates failed"
            end), s)
  | candidate :: rest =>
      match fetchHtmlWithRetry candidate CONFIG_maxRetries homeUrl s with
      | (inl html, s') => (inl html, s')
      | (inr message, s') => homepage_loop rest (Some message) (emit (EvDelay 500) s')
      end
  end.

Definition fetchHomepageHtml (envFallbacks : list string) (s : state)
    : (string + string) * state :=
  homepage_loop (homepageCandidates envFallbacks) None s.

(** The state in which the candidates of [failed], asked for one after
    the other from [s], have all thrown, each followed by the delay of
    the [catch] block; [None] when one of them returns a page. *)
Fixpoint all_thrown (failed : list string) (s : state) : option state :=
  match failed with
  | [] => Some s
  | candidate :: rest =>
      match fetchHtmlWithRetry candidate CONFIG_maxRetries homeUrl s with
      | (inl _, _) => None
      | (inr _, s') => all_thrown rest (emit (EvDelay 500) s')
      end
  end.

End WithEnv.
End Homepage.

(** ** The Worker: the scanners of a page

    What [extractEpisodesFromHomepage] and [extractTrembedUrls] do with
    the matches of their patterns on the page. *)

Module WorkerScan.
Import Js Sync Worker Addresses.

(** The characters that [.] does not match: LF, CR and, as they are
    written in UTF-8, U+2028 and U+2029. *)
Definition line_breaks : list string :=
  [String (ascii_of_N 10) EmptyString; String (ascii_of_N 13) EmptyString;
   String (ascii_of_N 226) (String (ascii_of_N 128) (String (ascii_of_N 168) EmptyString));
   String (ascii_of_N 226) (String (ascii_of_N 128) (String (ascii_of_N 169) EmptyString))].

Definition no_line_break (s : string) : bool :=
  negb (any_includes s line_breaks).

(** The text before the last dash and the text after it. *)
Fixpoint split_last_dash (s : string) : option (string * string) :=
  match s with
  | EmptyString => None
  | String c s' =>
      match split_last_dash s' with
      | Some (a, b) => Some (String c a, b)
      | None => if Ascii.eqb c "-" then Some (EmptyString, s') else None
      end
  end.

(** [slug.match(/^(.+)-(\d+)x(\d+)$/i)]: the groups 1, 2 and 3. The two
    runs of digits hold no dash, so the dash of the pattern can only be
    the last one of the slug. *)
Definition slug_code (slug : string) : option (string * string * string) :=
  match split_last_dash slug with
  | Some (String a0 a, tail) =>
      if no_line_break (String a0 a) then
        match span_digits tail with
        | (String d0 d, String c (String e0 e)) =>
            if is_x c && all_digits (String e0 e)
            then Some (String a0 a, String d0 d, String e0 e)
            else None
        | _ => None
        end
      else None
  | _ => None
  end.

(** [s.replace(/\/$/, empty)] *)
Fixpoint strip_slash (s : string) : string :=
  match s with
  | EmptyString => EmptyString
  | String c EmptyString => if Ascii.eqb c "/" then EmptyString else s
  | String c s' => String c (strip_slash s')
  end.

(** [\w] and the ASCII part of [toUpperCase]. *)
Definition is_word (c : ascii) : bool :=
  let n := N_of_ascii c in
  (((48 <=? n) && (n <=? 57)) || ((65 <=? n) && (n <=? 90)) ||
   ((97 <=? n) && (n <=? 122)) || (n =? 95))%N.

Definition upper_ascii (c : ascii) : ascii :=
  let n := N_of_ascii c in
  if ((97 <=? n) && (n <=? 122))%N then ascii_of_N (n - 32) else c.

(** [s.replace(/\b\w/g, c => c.toUpperCase())] *)
Fixpoint capitalise (after_word : bool) (s : string) : string :=
  match s with
  | EmptyString => EmptyString
  | String c s' =>
      String (if is_word c && negb after_word then upper_ascii c else c)
             (capitalise (is_word c) s')
  end.

Definition episode_of (url animeSlug d1 d2 : string) : episode :=
  let season := parseInt_digits d1 in
  let episode := parseInt_digits d2 in
  {| ep_id := animeSlug +:+ "-s" +:+ Number_toString season +:+ "e" +:+ Number_toString episode;
     ep_anime := capitalise false (replaceAll animeSlug "-" " ");
     ep_animeSlug := animeSlug;
     ep_season := season;
     ep_episode := episode;
     ep_url := url |}.

(** The [while] loop of [extractEpisodesFromHomepage] over the matches
    of the link pattern, each with its groups 1 and 2. *)
Fixpoint episodes_of (matches : list (string * string)) (seen : gset string) : list episode :=
  match matches with
  | [] => []
  | (url, group2) :: rest =>
      let slug := strip_slash group2 in
      if bool_decide (slug ∈ seen) then episodes_of rest seen
      else
        match slug_code slug with
        | None => episodes_of rest ({[slug]} ∪ seen)
        | Some (animeSlug, d1, d2) =>
            episode_of url animeSlug d1 d2 :: episodes_of rest ({[slug]} ∪ seen)
        end
  end.

(** What [extractTrembedUrls] makes of group 1 of a match. *)
Definition absolute (group1 : string) : string :=
  let url := replaceAll (replaceAll group1 "&#038;" "&") "&amp;" "&" in
  if startsWith url "/" then "https://toonstream.one" +:+ url
  else if negb (startsWith url "http") then "https://toonstream.one/" +:+ url
  else url.

(** The [while] loop of [extractTrembedUrls] over the matches of the
    frame pattern. *)
Fixpoint trembedUrls_of (matches : list string) (seen : gset string) : list string :=
  match matches with
  | [] => []
  | group1 :: rest =>
      let url := absolute group1 in
      if bool_decide (url ∈ seen) then trembedUrls_of rest seen
      else url :: trembedUrls_of rest ({[url]} ∪ seen)
  end.

(** The slug reads [a], a dash, the digits [d1], an x and the digits
    [d2], with [a] on one line. *)
Definition slug_shape (slug a d1 d2 : string) : Prop :=
  exists c,
    slug = a +:+ String "-" (d1 +:+ String c d2) /\
    a <> EmptyString /\ no_line_break a = true /\
    d1 <> EmptyString /\ all_digits d1 = true /\
    is_x c = true /\
    d2 <> EmptyString /\ all_digits d2 = true.

(** [url] is the address of the first link of [matches] whose slug is
    [slug]. *)
Definition first_link (matches : list (string * string)) (url slug : string) : Prop :=
  exists pre group2 post,
    matches = pre ++ (url, group2) :: post /\
    strip_slash group2 = slug /\
    forall u g, (u, g) ∈ pre -> strip_slash g <> slug.

End WorkerScan.

(** ** The Node script: the cards of the homepage *)

Module Cards.
Import Js Sync.

Record card := {
  cd_url : string;
  cd_title : string;
  cd_thumb : option string;
}.

(** What cheerio finds in an [article.episodes] or [article.post]: the
    attributes of its first anchor to an episode, the text of its first
    [.entry-title] or [h2] (empty when there is none), and the
    attributes of its first image. *)
Record articleNode := {
  ar_anchor : option attrs;
  ar_title : string;
  ar_img : option attrs;
}.

(** An anchor to an episode or a watch page: its attributes, its text
    and the attributes of its first image. *)
Record anchorNode := {
  an_attrs : attrs;
  an_text : string;
  an_img : option attrs;
}.

Class Dom := {
  articles : string -> list articleNode;
  anchors : string -> list anchorNode;
}.

(** The first card of every URL, in order, leaving out the URLs of
    [seen]. *)
Fixpoint firsts (l : list card) (seen : gset string) : list card :=
  match l with
  | [] => []
  | c :: l' =>
      if bool_decide (cd_url c ∈ seen) then firsts l' seen
      else c :: firsts l' ({[cd_url c]} ∪ seen)
  end.

Section WithEnv.
Context `{Env} `{Dom}.

(** The protocol fix that both passes apply to the address of an
    image. *)
Definition fix_thumb (thumb : option string) : option string :=
  match thumb with
  | Some (String c r) =>
      if startsWith (String c r) "//" then Some ("https:" +:+ String c r)
      else normalizeUrl thumb homeUrl
  | _ => thumb
  end.

(** The body of the first [each]: the card of an article, or nothing
    when it has no anchor or no URL. *)
Definition article_card (article : articleNode) : option card :=
  match ar_anchor article with
  | None => None
  | Some anchor =>
      match normalizeUrl (attr anchor "href") homeUrl with
      | Some (String c r) =>
          Some {| cd_url := String c r;
                  cd_title := or_default (or_else (Some (trim (ar_title article)))
                                                  (attr anchor "title")) EmptyString;
                  cd_thumb :=
                    match ar_img article with
                    | Some img =>
                        fix_thumb (or_else (attr img "data-src")
                                     (or_else (attr img "src") (attr img "data-lazy-src")))
                    | None => None
                    end |}
      | _ => None
      end
  end.

(** The body of the second [each]. *)
Definition anchor_card (anchor : anchorNode) : option card :=
  match normalizeUrl (attr (an_attrs anchor) "href") homeUrl with
  | Some (String c r) =>
      Some {| cd_url := String c r;
              cd_title := trim (or_default (attr (an_attrs anchor) "title") (an_text anchor));
              cd_thumb :=
                match an_img anchor with
                | Some img => fix_thumb (or_else (attr img "data-src") (attr img "src"))
                | None => None
                end |}
  | _ => None
  end.

(** One [each] loop over the set [seen] and the array [cards]. *)
Fixpoint each_card {A : Type} (card_of : A -> option card) (els : list A)
    (seen : gset string) (cards : list card) : gset string * list card :=
  match els with
  | [] => (seen, cards)
  | el :: rest =>
      match card_of el with
      | Some c =>
          if bool_decide (cd_url c ∈ seen) then each_card card_of rest seen cards
          else each_card card_of rest ({[cd_url c]} ∪ seen) (cards ++ [c])
      | None => each_card card_of rest seen cards
      end
  end.

Definition extractEpisodeCards (html : string) : list card :=
  let '(seen, cards) := each_card article_card (articles html) ∅ [] in
  snd (each_card anchor_card (anchors html) seen cards).

(** What the elements of the page offer, the articles first. *)
Definition offers (html : string) : list card :=
  omap article_card (articles html) ++ omap anchor_card (anchors html).

End WithEnv.
End Cards.

(** ** The Node script: [cleanSlug]

    The replacements are written for names in ASCII; [\s] is then the
    blank of [Js.is_blank] and [\w] the word character of
    [WorkerScan.is_word]. *)

Module Slugs.
Import Js Sync WorkerScan.

Definition is_quote (c : ascii) : bool :=
  Ascii.eqb c "'" || Ascii.eqb c (ascii_of_N 34).

Definition is_dash (c : ascii) : bool := Ascii.eqb c "-".

(** [s.replace(/[...]/g, empty)] for a class of single characters:
    the characters outside the class stay. *)
Fixpoint remove_chars (drop : ascii -> bool) (s : string) : string :=
  match s with
  | EmptyString => EmptyString
  | String c s' =>
      if drop c then remove_chars drop s' else String c (remove_chars drop s')
  end.

(** [s.replace(/C+/g, dash)] for a class [C] of single characters: every
    run of them becomes one dash. [in_run] tells that the character
    before belongs to the run being replaced. *)
Fixpoint runs_to_dash (in_class : ascii -> bool) (in_run : bool) (s : string) : string :=
  match s with
  | EmptyString => EmptyString
  | String c s' =>
      if in_class c then
        if in_run then runs_to_dash in_class true s'
        else String "-" (runs_to_dash in_class true s')
      else String c (runs_to_dash in_class false s')
  end.

(** [s.replace(/^-+|-+$/g, empty)] *)
Fixpoint strip_leading (s : string) : string :=
  match s with
  | String c s' => if is_dash c then strip_leading s' else s
  | EmptyString => EmptyString
  end.

Fixpoint strip_trailing (s : string) : string :=
  match s with
  | EmptyString => EmptyString
  | String c s' =>
      match strip_trailing s' with
      | EmptyString => if is_dash c then EmptyString else String c EmptyString
      | r => String c r
      end
  end.

(** The class [[\w\s-]]. *)
Definition kept (c : ascii) : bool := is_word c || is_blank c || is_dash c.

Definition cleanSlug (name : option string) : string :=
  let s0 := toLowerCase (or_default name "item") in
  let s1 := remove_chars is_quote s0 in
  let s2 := remove_chars (fun c => negb (kept c)) s1 in
  let s3 := runs_to_dash is_blank false s2 in
  let s4 := runs_to_dash is_dash false s3 in
  strip_trailing (strip_leading s4).

(** A character of a slug: a digit, a small letter, the underscore or
    the dash. *)
Definition slug_char (c : ascii) : bool :=
  let n := N_of_ascii c in
  (((48 <=? n) && (n <=? 57)) || ((97 <=? n) && (n <=? 122)) || (n =? 95) || (n =? 45))%N.

Fixpoint all_chars (p : ascii -> bool) (s : string) : bool :=
  match s with
  | EmptyString => true
  | String c s' => p c && all_chars p s'
  end.

(** No two dashes in a row; with [after_dash], no dash at the head
    either. *)
Fixpoint spaced (after_dash : bool) (s : string) : bool :=
  match s with
  | EmptyString => true
  | String c s' => negb (after_dash && is_dash c) && spaced (is_dash c) s'
  end.

Fixpoint ends_with_dash (s : string) : bool :=
  match s with
  | EmptyString => false
  | String c EmptyString => is_dash c
  | String _ s' => ends_with_dash s'
  end.

(** The names for which the replacements are written. *)
Definition in_ascii (name : option string) : bool :=
  match name with
  | Some s => all_chars (fun c => (N_of_ascii c <? 128)%N) s
  | None => true
  end.

(** The normal form of a slug. *)
Definition clean (s : string) : Prop :=
  all_chars slug_char s = true /\
  startsWith s "-" = false /\
  ends_with_dash s = false /\
  includes s "--" = false.

End Slugs.

(** ** The server around the script: [sync-server.js] *)

Module Server.
Import Js.

(** *** The status of the sync *)

Record syncStatus := {
  isRunning : bool;
  lastRunSuccess : option bool;
  totalRuns : Z;
  successfulRuns : Z;
  failedRuns : Z;
}.

(** The status, and the calls of [runSync] that are suspended at their
    [await]. *)
Record server := {
  status : syncStatus;
  waiting : nat;
}.

Definition boot : server :=
  {| status := {| isRunning := false; lastRunSuccess := None; totalRuns := 0;
                  successfulRuns := 0; failedRuns := 0 |};
     waiting := 0 |}.

(** What the event loop runs: a call of [runSync] (from cron, from the
    [/sync] route or at start-up), or the script of a suspended call
    settling, fulfilled or rejected. *)
Inductive event :=
| Call
| Settle (fulfilled : bool).

(** [runSync] up to its [await]. *)
Definition runSync_enter (s : server) : server :=
  if isRunning (status s) then s
  else
    {| status := {| isRunning := true;
                    lastRunSuccess := lastRunSuccess (status s);
                    totalRuns := totalRuns (status s) + 1;
                    successfulRuns := successfulRuns (status s);
                    failedRuns := failedRuns (status s) |};
       waiting := S (waiting s) |}.

(** [runSync] from its [await] on: the [try], the [catch] and the
    [finally]. *)
Definition runSync_leave (fulfilled : bool) (s : server) : server :=
  {| status := {| isRunning := false;
                  lastRunSuccess := Some fulfilled;
                  totalRuns := totalRuns (status s);
                  successfulRuns := successfulRuns (status s) + (if fulfilled then 1 else 0);
                  failedRuns := failedRuns (status s) + (if fulfilled then 0 else 1) |};
     waiting := pred (waiting s) |}.

(** A script can only settle for a call that is suspended. *)
Definition handle (s : server) (e : event) : server :=
  match e with
  | Call => runSync_enter s
  | Settle fulfilled =>
      match waiting s with
      | O => s
      | S _ => runSync_leave fulfilled s
      end
  end.

Definition run (events : list event) : server := fold_left handle events boot.

(** The [/sync] route: its answer, and the server after it. *)
Definition route_sync (s : server) : string * server :=
  if isRunning (status s) then ("already_running", s)
  else ("triggered", runSync_enter s).

(** *** The log buffer *)

Definition MAX_LOG_AGE_MS : Z := 20 * 60 * 1000.
Definition MAX_LOGS : nat := 5000.

Record logEntry := {
  lg_time : Z;          (* the timestamp, in milliseconds *)
  lg_type : string;
  lg_message : string;
}.

(** The first [while] of [cleanupOldLogs]. *)
Fixpoint shift_old (cutoff : Z) (logs : list logEntry) : list logEntry :=
  match logs with
  | [] => []
  | entry :: rest => if lg_time entry <? cutoff then shift_old cutoff rest else logs
  end.

Definition cleanupOldLogs (now : Z) (logs : list logEntry) : list logEntry :=
  let logs1 := shift_old (now - MAX_LOG_AGE_MS) logs in
  drop (length logs1 - MAX_LOGS) logs1.

(** [captureLog] for a message already joined; [stamp] is the clock
    when the entry is made and [now] the clock inside the cleanup. *)
Definition captureLog (stamp now : Z) (type message : string) (logs : list logEntry)
    : list logEntry :=
  match trim message with
  | EmptyString => logs
  | text => cleanupOldLogs now (logs ++ [{| lg_time := stamp; lg_type := type;
                                            lg_message := text |}])
  end.

(** One call of the patched console. *)
Record logCall := {
  lc_stamp : Z;
  lc_now : Z;
  lc_type : string;
  lc_message : string;
}.

Definition capture (logs : list logEntry) (c : logCall) : list logEntry :=
  captureLog (lc_stamp c) (lc_now c) (lc_type c) (lc_message c) logs.

Definition by_time (a b : logEntry) : Prop := lg_time a <= lg_time b.

(** No entry is more than twenty minutes older than [now]. *)
Definition recent (now : Z) (logs : list logEntry) : Prop :=
  Forall (fun entry => now - MAX_LOG_AGE_MS <= lg_time entry) logs.

(** The clock does not run backwards over the calls. *)
Fixpoint clock_ok (last : Z) (calls : list logCall) : Prop :=
  match calls with
  | [] => True
  | c :: rest => last <= lc_stamp c /\ lc_stamp c <= lc_now c /\ clock_ok (lc_now c) rest
  end.

End Server.

(** ** The Node script: [syncEpisodeByUrl] *)

Module Episodes.
Import Js Sync Addresses.

(** What the loop reads of the record that [buildEpisodeRecord]
    returns: the slug of the series, the code, and
    [episodePayload.servers?.length || 0]. *)
Record built := {
  b_slug : string;
  b_season : Z;
  b_episode : Z;
  b_servers : Z;
}.

(** What the loop reads of the answer of [checkEpisodeNeedsUpdate]. *)
Record updateCheck := {
  uc_exists : bool;
  uc_needsUpdate : bool;
}.

(** The four awaited calls of one attempt, by the number of attempts
    made before it in the run: each returns, or throws a message. *)
Class Db := {
  buildEpisodeRecord_at : nat -> string -> built + string;
  checkEpisodeNeedsUpdate_at : nat -> built -> updateCheck + string;
  upsertEpisode_at : nat -> built -> option string;
  episodeExistsInSupabase_at : nat -> built -> bool + string;
}.

Record stats := {
  newEpisodes : Z;
  updatedEpisodes : Z;
  failedEpisodes : Z;
  totalServers : Z;
  seriesProcessed : gset string;
}.

(** The module-level state the function touches, and what it did: the
    attempts made, the keys upserted and the delays slept. *)
Record store := {
  processedEpisodes : gset string;
  statistics : stats;
  made : nat;
  upserted : list string;
  slept : list Z;
}.

(** [options.force] and the set [options.existingEpisodes], which the
    function changes in place. *)
Record sync_options := {
  o_force : bool;
  o_existingEpisodes : option (gset string);
}.

(** The series context with its season and episode, null, or an
    exception. *)
Inductive outcome :=
| Returned (ctx : option built)
| Threw (message : string).

Definition key_of (b : built) : string := makeEpisodeKey (b_slug b) (b_season b) (b_episode b).

Definition seasonEpisodeKey_of (b : built) : string :=
  makeSeasonEpisodeKey (b_season b) (b_episode b).

Definition has (set : option (gset string)) (k : string) : bool :=
  match set with
  | Some s => bool_decide (k ∈ s)
  | None => false
  end.

Definition add (set : option (gset string)) (k : string) : option (gset string) :=
  match set with
  | Some s => Some ({[k]} ∪ s)
  | None => None
  end.

Definition attempted (s : store) : store :=
  {| processedEpisodes := processedEpisodes s; statistics := statistics s;
     made := S (made s); upserted := upserted s; slept := slept s |}.

Definition with_upsert (k : string) (s : store) : store :=
  {| processedEpisodes := processedEpisodes s; statistics := statistics s;
     made := made s; upserted := upserted s ++ [k]; slept := slept s |}.

Definition with_delay (ms : Z) (s : store) : store :=
  {| processedEpisodes := processedEpisodes s; statistics := statistics s;
     made := made s; upserted := upserted s; slept := slept s ++ [ms] |}.

(** The block under [if (persisted)]. *)
Definition record_synced (b : built) (isUpdate : bool) (s : store) : store :=
  let st := statistics s in
  {| processedEpisodes := {[key_of b]} ∪ processedEpisodes s;
     statistics :=
       {| newEpisodes := newEpisodes st + (if isUpdate then 0 else 1);
          updatedEpisodes := updatedEpisodes st + (if isUpdate then 1 else 0);
          failedEpisodes := failedEpisodes st;
          totalServers := totalServers st + b_servers b;
          seriesProcessed := {[b_slug b]} ∪ seriesProcessed st |};
     made := made s; upserted := upserted s; slept := slept s |}.

(** The lines after the loop. *)
Definition record_failed (s : store) : store :=
  let st := statistics s in
  {| processedEpisodes := processedEpisodes s;
     statistics :=
       {| newEpisodes := newEpisodes st; updatedEpisodes := updatedEpisodes st;
          failedEpisodes := failedEpisodes st + 1;
          totalServers := totalServers st; seriesProcessed := seriesProcessed st |};
     made := made s; upserted := upserted s; slept := slept s |}.

Section WithDb.
Context `{Db}.

(** The [for] loop with [todo] attempts left; [lastSeriesCtx] and
    [lastCode] are kept together in [last]. *)
Fixpoint sync_loop (todo : nat) (attempt : Z) (episodeUrl : string) (force : bool)
    (existing : option (gset string)) (last : option built) (s : store)
    : outcome * option (gset string) * store :=
  match todo with
  | O => (Returned last, existing, record_failed s)
  | S todo' =>
      let k := made s in
      let s1 := attempted s in
      match buildEpisodeRecord_at k episodeUrl with
      | inr message => (Threw message, existing, s1)
      | inl b =>
          match checkEpisodeNeedsUpdate_at k b with
          | inr message => (Threw message, existing, s1)
          | inl updateCheck =>
              if negb force &&
                 (bool_decide (key_of b ∈ processedEpisodes s1) &&
                  negb (uc_needsUpdate updateCheck))
              then (Returned (Some b), existing, s1)
              else if negb force &&
                      (has existing (seasonEpisodeKey_of b) &&
                       negb (uc_needsUpdate updateCheck))
              then (Returned (Some b), existing, s1)
              else
                let isUpdate :=
                  if force then uc_exists updateCheck
                  else uc_exists updateCheck && uc_needsUpdate updateCheck in
                let s2 := with_upsert (key_of b) s1 in
                match upsertEpisode_at k b with
                | Some message => (Threw message, existing, s2)
                | None =>
                    match episodeExistsInSupabase_at k b with
                    | inr message => (Threw message, existing, s2)
                    | inl true =>
                        (Returned (Some b), add existing (seasonEpisodeKey_of b),
                         record_synced b isUpdate s2)
                    | inl false =>
                        sync_loop todo' (attempt + 1) episodeUrl force existing (Some b)
                          (with_delay (500 * attempt) s2)
                    end
                end
          end
      end
  end.

Definition syncEpisodeByUrl (episodeUrl : string) (options : sync_options) (s : store)
    : outcome * option (gset string) * store :=
  sync_loop 3 1 episodeUrl (o_force options) (o_existingEpisodes options) None s.

End WithDb.

(** The set of processed episodes and the statistics are as before. *)
Definition untouched (s s' : store) : Prop :=
  processedEpisodes s' = processedEpisodes s /\ statistics s' = statistics s.

(** The call returned early on [b]: only without [force], on an episode
    that is marked as processed or is in the caller's set. *)
Definition skipped (force : bool) (existing : option (gset string)) (b : built)
    (s s' : store) (existing' : option (gset string)) : Prop :=
  force = false /\ untouched s s' /\ existing' = existing /\
  (key_of b ∈ processedEpisodes s \/ has existing (seasonEpisodeKey_of b) = true).

(** The call counted the episode [b] as synced: as new or as updated,
    with its servers and its series, and marked it processed. *)
Definition synced (b : built) (s s' : store) : Prop :=
  processedEpisodes s' = {[key_of b]} ∪ processedEpisodes s /\
  newEpisodes (statistics s') + updatedEpisodes (statistics s')
  = newEpisodes (statistics s) + updatedEpisodes (statistics s) + 1 /\
  newEpisodes (statistics s) <= newEpisodes (statistics s') /\
  updatedEpisodes (statistics s) <= updatedEpisodes (statistics s') /\
  failedEpisodes (statistics s') = failedEpisodes (statistics s) /\
  totalServers (statistics s') = totalServers (statistics s) + b_servers b /\
  seriesProcessed (statistics s') = {[b_slug b]} ∪ seriesProcessed (statistics s).

(** The call counted one failure and nothing else. *)
Definition failed (s s' : store) : Prop :=
  processedEpisodes s' = processedEpisodes s /\
  newEpisodes (statistics s') = newEpisodes (statistics s) /\
  updatedEpisodes (statistics s') = updatedEpisodes (statistics s) /\
  failedEpisodes (statistics s') = failedEpisodes (statistics s) + 1 /\
  totalServers (statistics s') = totalServers (statistics s) /\
  seriesProcessed (statistics s') = seriesProcessed (statistics s).

End Episodes.

(** ** The Worker: one run among the other tasks of its isolate

    [subrequestCount] is a variable of the module, and both the [/sync]
    route and the [scheduled] handler hand [runSync(env)] to
    [ctx.waitUntil] without looking whether a run is in progress. A run
    executes on its own between two [await]s; while it waits, the other
    tasks of the isolate run on the same counter and the same KV store.
    [Worker.runSync] is the run of an isolate with no other task; here
    the other tasks are a parameter. *)

Module Isolate.
Import Js Worker.

(** The places at which [runSync] waits for the platform. *)
Inductive point :=
| Fetching (url : string)    (* fetch(url) and response.text(), in fetchHtml *)
| Reading                    (* env.PROGRESS.get, in getProgress *)
| Saving (lastIndex : nat)   (* env.PROGRESS.put, in saveProgress *)
| Querying (i : nat)         (* the lookup of the episode at index i *)
| Storing (i : nat).         (* the series lookup and insert and the two upserts
                                for the episode at index i *)

(** What a run sees: the state it shares with the other tasks, and the
    page fetches it has issued itself, oldest first. *)
Record view := {
  shared : state;
  own : list string;
}.

Section WithOthers.
Context `{Env}.

(** What the other tasks do to the shared state while this run waits at
    a point. *)
Variable others : point -> state -> state.

Definition wait (p : point) (v : view) : view :=
  {| shared := others p (shared v); own := own v |}.

(** [fetchHtml]: the test and the increment come before the first
    [await]; a call that throws on the test does not wait. *)
Definition fetchHtml (url : string) (v : view) : (string + string) * view :=
  if negb (canFetch (shared v)) then (inr "Subrequest limit reached", v)
  else
    match Worker.fetchHtml url (shared v) with
    | (r, s1) => (r, wait (Fetching url) {| shared := s1; own := own v ++ [url] |})
    end.

Fixpoint resolveVideoUrl (fuel : nat) (trembedUrl : string) (depth : Z) (v : view)
    : option (option string * view) :=
  match fuel with
  | O => None
  | S fuel' =>
      if (3 <? depth) || negb (canFetch (shared v)) then Some (None, v)
      else
        match fetchHtml trembedUrl v with
        | (inr _, v1) => Some (None, v1)
        | (inl html, v1) =>
            (fix iframes (ms : list string) (v : view) : option (option string * view) :=
               match ms with
               | [] => Some (from_location html, v)
               | m :: ms' =>
                   let embedUrl := with_scheme m in
                   if is_external embedUrl then Some (Some embedUrl, v)
                   else if includes embedUrl "trembed" || includes embedUrl "trid=" then
                     match resolveVideoUrl fuel' embedUrl (depth + 1) v with
                     | None => None
                     | Some (Some (String c r), v') => Some (Some (String c r), v')
                     | Some (_, v') => iframes ms' v'
                     end
                   else iframes ms' v
               end) (iframeMatches html) v1
        end
  end.

Definition saveProgress (lastIndex : nat) (v : view) : view :=
  wait (Saving lastIndex)
       {| shared := Worker.saveProgress lastIndex (shared v); own := own v |}.

Fixpoint servers_loop (trembedUrls : list string) (v : view)
    : option (option string * view) :=
  match trembedUrls with
  | [] => Some (None, v)
  | trembedUrl :: rest =>
      if negb (canFetch (shared v)) then Some (None, v)
      else
        match resolveVideoUrl resolve_fuel trembedUrl 0 v with
        | None => None
        | Some (Some (String c r), v') => Some (Some (String c r), v')
        | Some (_, v') => servers_loop rest v'
        end
  end.

(** The [for] loop of [runSync]. The second test of the cap comes after
    the wait for the lookup, during which the counter may have moved. *)
Fixpoint episodes_loop (eps : list episode) (i : nat) (c : counters) (v : view)
    : option (counters * view) :=
  match eps with
  | [] => Some (c, v)
  | ep :: rest =>
      if negb (canFetch (shared v)) then Some (c, saveProgress i v)
      else
        let c1 := {| syncedCount := syncedCount c; skippedCount := skippedCount c;
                     processedIndex := i |} in
        let v0 := wait (Querying i) v in
        if db_existing i then
          episodes_loop rest (S i)
            {| syncedCount := syncedCount c; skippedCount := skippedCount c + 1;
               processedIndex := i |} v0
        else if negb (canFetch (shared v0)) then Some (c1, saveProgress i v0)
        else
          match fetchHtml (ep_url ep) v0 with
          | (inr _, v1) => episodes_loop rest (S i) c1 v1
          | (inl episodeHtml, v1) =>
              match extractTrembedUrls episodeHtml with
              | [] => episodes_loop rest (S i) c1 v1
              | trembedUrls =>
                  match servers_loop trembedUrls v1 with
                  | None => None
                  | Some (None, v2) => episodes_loop rest (S i) c1 v2
                  | Some (Some videoUrl, v2) =>
                      let v3 := wait (Storing i) v2 in
                      if db_upsert_error i then episodes_loop rest (S i) c1 v3
                      else
                        episodes_loop rest (S i)
                          {| syncedCount := syncedCount c + 1;
                             skippedCount := skippedCount c;
                             processedIndex := i |} v3
                  end
              end
          end
  end.

(** [runSync], started on the shared state [s]. The index to resume from
    is the one stored when the answer of the KV store comes. *)
Definition runSync (s : state) : option (summary * view) :=
  let v0 := {| shared := {| subrequestCount := 0; fetched := fetched s;
                            progress := progress s |};
               own := [] |} in
  match fetchHtml "https://toonstream.one/" v0 with
  | (inr message, v1) =>
      Some ({| success := false; error := Some message; synced := 0; skipped := 0;
               subrequests := None |}, v1)
  | (inl html, v1) =>
      let episodes := extractEpisodesFromHomepage html in
      match episodes with
      | [] =>
          Some ({| success := true; error := None; synced := 0; skipped := 0;
                   subrequests := None |}, v1)
      | _ =>
          let v2 := wait Reading v1 in
          let startIndex :=
            if (length episodes <=? getProgress (shared v2))%nat
            then 0%nat else getProgress (shared v2) in
          match episodes_loop (drop startIndex episodes) startIndex
                  {| syncedCount := 0; skippedCount := 0; processedIndex := startIndex |}
                  v2 with
          | None => None
          | Some (c, v3) =>
              let v4 :=
                if (length episodes - 1 <=? processedIndex c)%nat
                then saveProgress 0 v3 else v3 in
              Some ({| success := true; error := None; synced := syncedCount c;
                       skipped := skippedCount c;
                       subrequests := Some (subrequestCount (shared v4)) |}, v4)
          end
      end
  end.

End WithOthers.






End Isolate.

(** A homepage with thirty new episodes, on a network that rejects the
    page fetch number 21 of the isolate. *)
Module IsolateFixture.
Import Js Worker Isolate.



End IsolateFixture.

(** * Properties *)

(** ** Strings *)

Module JsFacts.
Import Js.

Lemma append_cons (c : ascii) (s t : string) : String c s +:+ t = String c (s +:+ t).
Proof. reflexivity. Qed.

Lemma append_nil_l (t : string) : EmptyString +:+ t = t.
Proof. reflexivity. Qed.

Lemma append_nil_r (s : string) : s +:+ EmptyString = s.
Proof. induction s as [|c s IH]; [reflexivity | now rewrite append_cons, IH]. Qed.

Lemma append_assoc (a b c : string) : (a +:+ b) +:+ c = a +:+ (b +:+ c).
Proof. induction a as [|x a IH]; [reflexivity | now rewrite !append_cons, IH]. Qed.

Lemma length_append (a b : string) :
  String.length (a +:+ b) = (String.length a + String.length b)%nat.
Proof. induction a as [|x a IH]; [reflexivity | rewrite append_cons; simpl; now rewrite IH]. Qed.

Lemma startsWith_append (p r : string) : startsWith (p +:+ r) p = true.
Proof.
  induction p as [|c p IH]; [reflexivity |].
  rewrite append_cons. simpl. now rewrite Ascii.eqb_refl, IH.
Qed.

Lemma startsWith_inv (s p : string) :
  startsWith s p = true -> exists r, s = p +:+ r.
Proof.
  revert s. induction p as [|c p IH]; intros s Hs.
  - exists s. reflexivity.
  - destruct s as [|b s]; simpl in Hs; [discriminate |].
    apply andb_prop in Hs as [Hc Hs]. apply Ascii.eqb_eq in Hc. subst b.
    destruct (IH _ Hs) as [r ->]. now exists r.
Qed.

(** [includes] is the substring relation. *)
Lemma includes_spec (s p : string) :
  includes s p = true <-> exists pre post, s = pre +:+ p +:+ post.
Proof.
  split.
  - induction s as [|c s IH]; simpl; intros Hs.
    + rewrite orb_false_r in Hs. apply startsWith_inv in Hs as [r Hr].
      exists EmptyString, r. exact Hr.
    + apply orb_prop in Hs as [Hs|Hs].
      * apply startsWith_inv in Hs as [r Hr]. exists EmptyString, r. exact Hr.
      * destruct (IH Hs) as (pre & post & ->). now exists (String c pre), post.
  - intros (pre & post & ->). induction pre as [|c pre IH].
    + rewrite append_nil_l.
      assert (Hp : startsWith (p +:+ post) p = true) by apply startsWith_append.
      destruct (p +:+ post); simpl in *; now rewrite Hp.
    + rewrite append_cons. simpl. rewrite IH. apply orb_true_r.
Qed.

Lemma span_digits_split (s : string) :
  s = fst (span_digits s) +:+ snd (span_digits s).
Proof.
  induction s as [|c s IH]; simpl; [reflexivity |].
  destruct (is_digit c); [| reflexivity].
  destruct (span_digits s) as [d r]. simpl in *. now rewrite append_cons, <- IH.
Qed.

Lemma span_digits_all (s : string) : all_digits (fst (span_digits s)) = true.
Proof.
  induction s as [|c s IH]; simpl; [reflexivity |].
  destruct (is_digit c) eqn:E; [| reflexivity].
  destruct (span_digits s) as [d r]. simpl in *. now rewrite E, IH.
Qed.

(** After the longest run of digits comes no digit. *)
Lemma span_digits_rest (s : string) :
  fst (span_digits (snd (span_digits s))) = EmptyString.
Proof.
  induction s as [|c s IH]; simpl; [reflexivity |].
  destruct (is_digit c) eqn:E.
  - destruct (span_digits s) as [d r]. exact IH.
  - simpl. now rewrite E.
Qed.

Lemma span_digits_append (d r : string) :
  all_digits d = true ->
  span_digits (d +:+ r) = (d +:+ fst (span_digits r), snd (span_digits r)).
Proof.
  induction d as [|c d IH]; intros Hd.
  - rewrite !append_nil_l. now destruct (span_digits r).
  - simpl in Hd. apply andb_prop in Hd as [Hc Hd].
    rewrite !append_cons. simpl. rewrite Hc, (IH Hd). reflexivity.
Qed.

Lemma is_digit_value (c : ascii) : is_digit c = true -> 0 <= digit_value c <= 9.
Proof.
  unfold is_digit, digit_value. intros Hc.
  apply andb_prop in Hc as [H1 H2].
  apply N.leb_le in H1. apply N.leb_le in H2. lia.
Qed.

Lemma parseInt_acc_nonneg (s : string) (acc : Z) :
  all_digits s = true -> 0 <= acc -> 0 <= parseInt_acc acc s.
Proof.
  revert acc. induction s as [|c s IH]; simpl; intros acc Hs Hacc; [exact Hacc |].
  apply andb_prop in Hs as [Hc Hs]. apply IH; [exact Hs |].
  pose proof (is_digit_value c Hc). lia.
Qed.

Lemma parseInt_digits_nonneg (s : string) :
  all_digits s = true -> 0 <= parseInt_digits s.
Proof. intros Hs. apply parseInt_acc_nonneg; [exact Hs | lia]. Qed.

End JsFacts.

(** ** [parseEpisodeCode] *)

Module CodeFacts.
Import Js Sync Stated JsFacts.

Lemma is_x_not_digit (c : ascii) : is_x c = true -> is_digit c = false.
Proof.
  unfold is_x. intros Hc. apply orb_prop in Hc as [Hc|Hc];
    apply Ascii.eqb_eq in Hc; subst c; reflexivity.
Qed.

Lemma span_digits_stop (c : ascii) (r : string) :
  is_digit c = false -> span_digits (String c r) = (EmptyString, String c r).
Proof. intros Hc. simpl. now rewrite Hc. Qed.

(** A match at the head of the text. *)
Lemma match_code_here_sound (s d1 d2 : string) :
  match_code_here s = Some (d1, d2) ->
  exists c post,
    code_at EmptyString d1 c d2 post s /\ fst (span_digits post) = EmptyString.
Proof.
  unfold match_code_here. intros Hm.
  pose proof (span_digits_split s) as Hs.
  pose proof (span_digits_all s) as Hd.
  destruct (span_digits s) as [a b]. simpl in Hs, Hd.
  destruct a as [|a0 a]; [discriminate |].
  destruct b as [|c r]; [discriminate |].
  destruct (is_x c) eqn:Hx; [| discriminate].
  pose proof (span_digits_split r) as Hr.
  pose proof (span_digits_all r) as Hrd.
  pose proof (span_digits_rest r) as Hrest.
  destruct (span_digits r) as [e post]. simpl in Hr, Hrd, Hrest.
  destruct e as [|e0 e]; [discriminate |].
  injection Hm as <- <-.
  exists c, post. split; [| exact Hrest].
  unfold code_at. rewrite append_nil_l, <- Hr.
  repeat split; try assumption; discriminate.
Qed.

Lemma match_code_here_complete (s d1 d2 post : string) (c : ascii) :
  code_at EmptyString d1 c d2 post s ->
  match_code_here s = Some (d1, d2 +:+ fst (span_digits post)).
Proof.
  intros (Hs & Hn1 & Hd1 & Hx & Hn2 & Hd2).
  rewrite append_nil_l in Hs. subst s. unfold match_code_here.
  rewrite (span_digits_append _ _ Hd1).
  rewrite (span_digits_stop _ _ (is_x_not_digit _ Hx)). simpl fst. simpl snd.
  rewrite append_nil_r.
  destruct d1 as [|a d1]; [congruence |].
  rewrite Hx, (span_digits_append _ _ Hd2). simpl fst.
  destruct d2 as [|b d2]; [congruence |].
  rewrite append_cons. reflexivity.
Qed.

(** The search stops at the first place where the text matches. *)
Lemma search_code_sound (s d1 d2 : string) :
  search_code s = Some (d1, d2) ->
  exists pre c post,
    code_at pre d1 c d2 post s /\
    fst (span_digits post) = EmptyString /\
    forall pre' rest, s = pre' +:+ rest ->
      (String.length pre' < String.length pre)%nat -> match_code_here rest = None.
Proof.
  induction s as [|a s IH]; intros Hm.
  - discriminate.
  - cbn [search_code] in Hm.
    destruct (match_code_here (String a s)) as [m|] eqn:Hh.
    + injection Hm as ->.
      destruct (match_code_here_sound _ _ _ Hh) as (c & post & Hc & Hp).
      exists EmptyString, c, post. split; [exact Hc | split; [exact Hp |]].
      intros pre' rest _ Hlt. simpl in Hlt. lia.
    + destruct (IH Hm) as (pre & c & post & (Hs & Hrest) & Hp & Hleft).
      exists (String a pre), c, post. split; [| split; [exact Hp |]].
      * split; [| exact Hrest]. rewrite !append_cons. f_equal. exact Hs.
      * intros pre' rest Heq Hlt. destruct pre' as [|a' pre'].
        -- rewrite append_nil_l in Heq. now subst rest.
        -- rewrite append_cons in Heq. injection Heq as _ Heq.
           apply (Hleft pre' rest Heq). simpl in Hlt. lia.
Qed.

Lemma search_code_complete (s pre d1 d2 post : string) (c : ascii) :
  code_at pre d1 c d2 post s -> exists m, search_code s = Some m.
Proof.
  revert s. induction pre as [|a pre IH]; intros s Hc.
  - pose proof (match_code_here_complete _ _ _ _ _ Hc) as Hm.
    destruct s; cbn [search_code]; rewrite Hm; eauto.
  - destruct Hc as (Hs & Hrest). rewrite !append_cons in Hs. subst s.
    cbn [search_code].
    destruct (match_code_here _); [eauto |].
    apply IH. split; [reflexivity | exact Hrest].
Qed.

Lemma code_at_shift (pre d1 d2 post s : string) (c : ascii) :
  code_at pre d1 c d2 post s ->
  exists rest, s = pre +:+ rest /\ code_at EmptyString d1 c d2 post rest.
Proof.
  intros (Hs & Hrest). exists (d1 +:+ String c (d2 +:+ post)).
  split; [exact Hs | split; [reflexivity | exact Hrest]].
Qed.

(** A text of the form digits, x, digits. *)
Lemma is_code_inv (t : string) :
  is_code t = true ->
  exists d1 d2, t = d1 +:+ String "x" d2 /\
    d1 <> EmptyString /\ all_digits d1 = true /\
    d2 <> EmptyString /\ all_digits d2 = true.
Proof.
  unfold is_code. intros Ht.
  pose proof (span_digits_split t) as Hs.
  pose proof (span_digits_all t) as Hd.
  destruct (span_digits t) as [a b]. simpl in Hs, Hd.
  destruct a as [|a0 a]; [discriminate |].
  destruct b as [|c b]; [discriminate |].
  destruct (Ascii.eqb_spec c "x") as [->|Hne].
  - destruct b as [|b0 b]; [discriminate |].
    exists (String a0 a), (String b0 b). repeat split; try assumption; discriminate.
  - exfalso. destruct c as [[] [] [] [] [] [] [] []]; try discriminate.
    now apply Hne.
Qed.

Lemma dash_code_tail_contains (s : string) :
  dash_code_tail s = true -> contains_code s.
Proof.
  induction s as [|a s IH]; simpl; intros Hs; [discriminate |].
  apply orb_prop in Hs as [Hs|Hs].
  - apply andb_prop in Hs as [_ Hc].
    destruct (is_code_inv _ Hc) as (d1 & d2 & -> & Hn1 & Hd1 & Hn2 & Hd2).
    exists (String a EmptyString), d1, "x"%char, d2, EmptyString.
    unfold code_at. rewrite append_nil_r. repeat split; assumption.
  - destruct (IH Hs) as (pre & d1 & c & d2 & post & -> & Hrest).
    exists (String a pre), d1, c, d2, post. split; [reflexivity | exact Hrest].
Qed.

Lemma slug_pattern_contains (s : string) :
  matches_slug_pattern s = true -> contains_code s.
Proof.
  destruct s as [|a s]; simpl; intros Hs; [discriminate |].
  destruct (dash_code_tail_contains _ Hs) as (pre & d1 & c & d2 & post & -> & Hrest).
  exists (String a pre), d1, c, d2, post. split; [reflexivity | exact Hrest].
Qed.

Lemma parseEpisodeCode_Some (s : string) (code : EpisodeCode) :
  parseEpisodeCode s = Some code ->
  exists d1 d2, search_code s = Some (d1, d2) /\
    season code = parseInt_digits d1 /\ episode code = parseInt_digits d2.
Proof.
  unfold parseEpisodeCode. destruct (search_code s) as [[d1 d2]|]; [| discriminate].
  intros [= <-]. now exists d1, d2.
Qed.

(** C5 (as amended). [parseEpisodeCode] returns a pair exactly when the
    text holds, anywhere, a run of decimal digits, an x or X, and another
    run of digits. The pair is read at the leftmost such place from the
    longest runs there: a run that writes a safe integer is read as that
    integer, which is not negative and may be zero. (A longer run is
    read as a double; nothing is said of its value here.) Every text of
    the form text-digits-x-digits is such a text; the slug naruto-2x5
    gives season 2, episode 5, and naruto gives null. *)
Theorem parseEpisodeCode_leftmost_code (s : string) :
  ((exists code, parseEpisodeCode s = Some code) <-> contains_code s) /\
  (forall code, parseEpisodeCode s = Some code ->
     exists d1 d2,
       leftmost_place s d1 d2 /\
       (isSafeInteger (parseInt_digits d1) = true ->
        season code = parseInt_digits d1 /\ 0 <= season code) /\
       (isSafeInteger (parseInt_digits d2) = true ->
        episode code = parseInt_digits d2 /\ 0 <= episode code)) /\
  (matches_slug_pattern s = true -> exists code, parseEpisodeCode s = Some code) /\
  parseEpisodeCode "naruto-2x5" = Some {| season := 2; episode := 5 |} /\
  parseEpisodeCode "naruto" = None.
Proof.
  assert (Hcomplete : contains_code s -> exists code, parseEpisodeCode s = Some code).
  { intros (pre & d1 & c & d2 & post & Hc).
    destruct (search_code_complete _ _ _ _ _ _ Hc) as [[m1 m2] Hm].
    unfold parseEpisodeCode. rewrite Hm. eauto. }
  assert (Hsound : forall code, parseEpisodeCode s = Some code ->
            exists d1 d2,
              leftmost_place s d1 d2 /\
              (season code = parseInt_digits d1 /\ 0 <= season code) /\
              (episode code = parseInt_digits d2 /\ 0 <= episode code)).
  { intros code Hcode.
    destruct (parseEpisodeCode_Some _ _ Hcode) as (d1 & d2 & Hm & Hs & He).
    destruct (search_code_sound _ _ _ Hm) as (pre & c & post & Hc & Hp & Hleft).
    exists d1, d2. split.
    - exists pre, c, post. repeat (split; [assumption |]).
      intros pre' d1' c' d2' post' Hc'.
      destruct (Nat.le_gt_cases (String.length pre) (String.length pre')) as [Hle|Hlt];
        [exact Hle | exfalso].
      destruct (code_at_shift _ _ _ _ _ _ Hc') as (rest & Hrest & Hhere).
      pose proof (Hleft pre' rest Hrest Hlt) as Hnone.
      rewrite (match_code_here_complete _ _ _ _ _ Hhere) in Hnone. discriminate.
    - destruct Hc as (_ & _ & Hd1 & _ & _ & Hd2). rewrite Hs, He.
      split; (split; [reflexivity | now apply parseInt_digits_nonneg]). }
  split; [split |]; [| exact Hcomplete |].
  - intros [code Hcode].
    destruct (Hsound code Hcode) as (d1 & d2 & (pre & c & post & Hc & _) & _).
    now exists pre, d1, c, d2, post.
  - split.
    + intros code Hcode. destruct (Hsound code Hcode) as (d1 & d2 & Hplace & H1 & H2).
      exists d1, d2. split; [exact Hplace |]. split; intros _; assumption.
    + split; [| split; reflexivity].
      intros Hslug. apply Hcomplete. now apply slug_pattern_contains.
Qed.

Lemma parseEpisodeCode_leftmost_code_witness :
  matches_slug_pattern "one-piece-12x345" = true /\
  exists code, parseEpisodeCode "one-piece-12x345" = Some code.
Proof.
  split; [reflexivity |].
  destruct (parseEpisodeCode_leftmost_code "one-piece-12x345") as (_ & _ & Hslug & _).
  apply Hslug. reflexivity.
Defined.

(** C5 (as stated) fails in both directions of its reading: a text
    without the dash of the slug pattern still yields a pair, and a slug
    of the pattern with zeros yields components that are not positive. *)
Lemma parseEpisodeCode_beyond_slug_pattern :
  (matches_slug_pattern "naruto2x5" = false /\
   parseEpisodeCode "naruto2x5" = Some {| season := 2; episode := 5 |}) /\
  (matches_slug_pattern "naruto-0x0" = true /\
   parseEpisodeCode "naruto-0x0" = Some {| season := 0; episode := 0 |} /\
   ~ 0 < 0).
Proof. repeat split; lia. Qed.

End CodeFacts.

(** ** [extractSeriesEpisodeLinks] *)

Module LinkFacts.
Import Js Sync Stated JsFacts.

Lemma uint_lacks_x (d : Decimal.uint) : lacks_x (NilEmpty.string_of_uint d) = true.
Proof. induction d; simpl; auto. Qed.

Lemma Number_toString_lacks_x (z : Z) : lacks_x (Number_toString z) = true.
Proof.
  unfold Number_toString. destruct (Z.to_int z); simpl; apply uint_lacks_x.
Qed.

Lemma split_at_x (a b c d : string) :
  lacks_x a = true -> lacks_x c = true ->
  a +:+ String "x" b = c +:+ String "x" d -> a = c /\ b = d.
Proof.
  revert c. induction a as [|u a IH]; intros [|v c] Ha Hc Heq;
    rewrite ?append_cons, ?append_nil_l in Heq.
  - injection Heq as ->. now split.
  - injection Heq as <- _. simpl in Hc. discriminate.
  - injection Heq as -> _. simpl in Ha. discriminate.
  - injection Heq as -> Heq. simpl in Ha, Hc.
    apply andb_prop in Ha as [_ Ha]. apply andb_prop in Hc as [_ Hc].
    destruct (IH c Ha Hc Heq) as [-> ->]. now split.
Qed.

Lemma Number_toString_inj (a b : Z) : Number_toString a = Number_toString b -> a = b.
Proof.
  unfold Number_toString. intros Heq. apply DecimalZ.to_int_inj.
  pose proof (NilEmpty.isi (Z.to_int a)) as Ha.
  rewrite Heq, NilEmpty.isi in Ha. now injection Ha.
Qed.

Lemma code_key_inj (s1 e1 s2 e2 : Z) :
  code_key s1 e1 = code_key s2 e2 -> s1 = s2 /\ e1 = e2.
Proof.
  unfold code_key. intros Heq.
  apply split_at_x in Heq as [Hs He]; try apply Number_toString_lacks_x.
  split; now apply Number_toString_inj.
Qed.

Lemma link_key_pair (a b : link) : link_key a = link_key b <-> pair_of a = pair_of b.
Proof.
  unfold link_key, pair_of. split.
  - intros Heq. apply code_key_inj in Heq as [-> ->]. reflexivity.
  - intros [= -> ->]. reflexivity.
Qed.

(** *** The stable sort *)

Section Sort.
Context {A : Type} (cmp : A -> A -> Z).
Hypothesis cmp_total : forall x y, cmp x y <= 0 \/ cmp y x <= 0.
Hypothesis cmp_trans : forall x y z, cmp x y <= 0 -> cmp y z <= 0 -> cmp x z <= 0.

Lemma sort_insert_perm (x : A) (l : list A) : sort_insert cmp x l ≡ₚ x :: l.
Proof.
  induction l as [|y l IH]; simpl; [reflexivity |].
  destruct (cmp x y <=? 0); [reflexivity |].
  rewrite IH. apply Permutation_swap.
Qed.

Lemma Array_sort_perm (l : list A) : Array_sort cmp l ≡ₚ l.
Proof.
  induction l as [|x l IH]; simpl; [reflexivity |].
  rewrite sort_insert_perm. now rewrite IH.
Qed.

Lemma sort_insert_sorted (x : A) (l : list A) :
  StronglySorted (cmp_le cmp) l -> StronglySorted (cmp_le cmp) (sort_insert cmp x l).
Proof.
  induction 1 as [|y l Hl IH Hy]; simpl.
  - repeat constructor.
  - destruct (Z.leb_spec (cmp x y) 0) as [Hxy|Hxy].
    + constructor; [now constructor |].
      constructor; [exact Hxy |].
      eapply Forall_impl; [exact Hy |]. intros z Hz. now apply (cmp_trans x y z).
    + constructor; [exact IH |].
      rewrite sort_insert_perm. constructor; [| exact Hy].
      destruct (cmp_total x y) as [Hle|Hle]; [lia | exact Hle].
Qed.

Lemma Array_sort_sorted (l : list A) : StronglySorted (cmp_le cmp) (Array_sort cmp l).
Proof.
  induction l as [|x l IH]; simpl; [constructor |]. now apply sort_insert_sorted.
Qed.

End Sort.

Lemma compareLinks_total (x y : link) : compareLinks x y <= 0 \/ compareLinks y x <= 0.
Proof.
  unfold compareLinks.
  destruct (Z.eqb_spec (ln_season x) (ln_season y)), (Z.eqb_spec (ln_season y) (ln_season x)); lia.
Qed.

Lemma compareLinks_trans (x y z : link) :
  compareLinks x y <= 0 -> compareLinks y z <= 0 -> compareLinks x z <= 0.
Proof.
  unfold compareLinks.
  destruct (Z.eqb_spec (ln_season x) (ln_season y)), (Z.eqb_spec (ln_season y) (ln_season z)),
    (Z.eqb_spec (ln_season x) (ln_season z)); lia.
Qed.

Lemma compareLinks_lt (x y : link) :
  compareLinks x y <= 0 -> pair_of x <> pair_of y -> link_lt x y.
Proof.
  unfold compareLinks, pair_of, link_lt.
  destruct (Z.eqb_spec (ln_season x) (ln_season y)) as [Heq|Hne]; intros Hle Hpair.
  - right. split; [exact Heq |].
    destruct (Z.eq_dec (ln_episode x) (ln_episode y)) as [He|He]; [| lia].
    exfalso. apply Hpair. now rewrite Heq, He.
  - left. lia.
Qed.

Lemma sorted_distinct_strict (l : list link) :
  StronglySorted (cmp_le compareLinks) l -> NoDup (pair_of <$> l) ->
  StronglySorted link_lt l.
Proof.
  induction 1 as [|x l Hl IH Hx]; intros Hnd; [constructor |].
  rewrite fmap_cons in Hnd. apply NoDup_cons in Hnd as [Hnotin Hnd].
  constructor; [now apply IH |].
  apply Forall_forall. intros y Hy.
  apply compareLinks_lt.
  - rewrite Forall_forall in Hx. now apply Hx.
  - intros Heq. apply Hnotin. rewrite Heq. now apply list_elem_of_fmap_2.
Qed.

(** *** The pass over the anchors *)

Section Anchors.
Context `{Env}.

Ltac in_added := apply elem_of_union; left; apply elem_of_singleton; reflexivity.

Lemma first_offer_later (node : element) (rest : list element) (seriesUrl : string) (l : link) :
  (forall l', link_of_anchor node seriesUrl = Some l' -> pair_of l' <> pair_of l) ->
  first_offer rest seriesUrl l -> first_offer (node :: rest) seriesUrl l.
Proof.
  intros Hnode (pre & n & post & -> & Hn & Hpre).
  exists (node :: pre), n, post. split; [reflexivity |]. split; [exact Hn |].
  intros m l' Hm Hl'. apply elem_of_cons in Hm as [->|Hm]; [now apply Hnode |].
  now apply (Hpre m).
Qed.

Lemma addLinks_spec (anchors : list element) (seriesUrl : string)
    (seen : gset string) (links : list link) :
  exists new,
    addLinks anchors seriesUrl seen links = links ++ new /\
    NoDup (link_key <$> new) /\
    (forall l, l ∈ new -> (link_key l ∉ seen) /\ first_offer anchors seriesUrl l) /\
    (forall n l, n ∈ anchors -> link_of_anchor n seriesUrl = Some l ->
       link_key l ∈ seen \/ exists l', l' ∈ new /\ pair_of l' = pair_of l).
Proof.
  revert seen links. induction anchors as [|node rest IH]; intros seen links.
  - exists []. simpl. rewrite app_nil_r. repeat split.
    + constructor.
    + now apply elem_of_nil in H0.
    + now apply elem_of_nil in H0.
    + intros n l Hn. now apply elem_of_nil in Hn.
  - cbn [addLinks]. destruct (link_of_anchor node seriesUrl) as [l|] eqn:Hnode.
    + destruct (bool_decide_reflect (link_key l ∈ seen)) as [Hin|Hout].
      * destruct (IH seen links) as (new & Heq & Hnd & Hnew & Hall).
        exists new. split; [exact Heq |]. split; [exact Hnd |]. split.
        -- intros l0 Hl0. destruct (Hnew l0 Hl0) as [Hk Hf]. split; [exact Hk |].
           apply first_offer_later; [| exact Hf].
           intros l' Hl' Hpair. rewrite Hnode in Hl'. injection Hl' as <-.
           apply Hk. apply link_key_pair in Hpair. now rewrite <- Hpair.
        -- intros n l0 Hn Hl0. apply elem_of_cons in Hn as [->|Hn]; [| now apply (Hall n)].
           left. rewrite Hnode in Hl0. now injection Hl0 as <-.
      * destruct (IH ({[link_key l]} ∪ seen) (links ++ [l])) as (new & Heq & Hnd & Hnew & Hall).
        exists (l :: new). split; [now rewrite Heq, <- app_assoc |]. split; [| split].
        -- rewrite fmap_cons. apply NoDup_cons. split; [| exact Hnd].
           intros Hin. apply list_elem_of_fmap in Hin as (l0 & Hk & Hl0).
           destruct (Hnew l0 Hl0) as [Hk0 _]. apply Hk0. rewrite <- Hk. in_added.
        -- intros l0 Hl0. apply elem_of_cons in Hl0 as [->|Hl0].
           ++ split; [exact Hout |]. exists [], node, rest.
              split; [reflexivity |]. split; [exact Hnode |].
              intros n l' Hn. now apply elem_of_nil in Hn.
           ++ destruct (Hnew l0 Hl0) as [Hk Hf].
              split; [intros Hs; apply Hk; apply elem_of_union; now right |].
              apply first_offer_later; [| exact Hf].
              intros l' Hl' Hpair. rewrite Hnode in Hl'. injection Hl' as <-.
              apply Hk. apply link_key_pair in Hpair. rewrite <- Hpair. in_added.
        -- intros n l0 Hn Hl0. apply elem_of_cons in Hn as [->|Hn].
           ++ right. exists l. rewrite Hnode in Hl0. injection Hl0 as <-.
              split; [apply list_elem_of_here | reflexivity].
           ++ destruct (Hall n l0 Hn Hl0) as [Hin|(l' & Hl' & Hpair)].
              ** apply elem_of_union in Hin as [Hin|Hin]; [| now left].
                 apply elem_of_singleton in Hin. right. exists l.
                 split; [apply list_elem_of_here |]. now apply link_key_pair.
              ** right. exists l'. split; [now apply list_elem_of_further | exact Hpair].
    + destruct (IH seen links) as (new & Heq & Hnd & Hnew & Hall).
      exists new. split; [exact Heq |]. split; [exact Hnd |]. split.
      * intros l0 Hl0. destruct (Hnew l0 Hl0) as [Hk Hf]. split; [exact Hk |].
        apply first_offer_later; [| exact Hf]. intros l' Hl'. congruence.
      * intros n l0 Hn Hl0. apply elem_of_cons in Hn as [->|Hn]; [congruence |].
        now apply (Hall n).
Qed.

(** C9. The list [extractSeriesEpisodeLinks] returns is in strictly
    ascending order of (season, episode), season first and episode
    breaking ties; no two entries share a (season, episode) pair; every
    entry is the one offered by the first anchor of its pair in document
    order; and every anchor that offers a link has its pair in the list. *)
Theorem extractSeriesEpisodeLinks_sorted_first (seriesHtml seriesUrl : string) :
  let anchors := select seriesHtml SelEpisodeAnchor in
  let links := extractSeriesEpisodeLinks seriesHtml seriesUrl in
  StronglySorted link_lt links /\
  NoDup (pair_of <$> links) /\
  (forall l, l ∈ links -> first_offer anchors seriesUrl l) /\
  (forall n l, n ∈ anchors -> link_of_anchor n seriesUrl = Some l ->
     exists l', l' ∈ links /\ pair_of l' = pair_of l).
Proof.
  intros anchors links. subst links. unfold extractSeriesEpisodeLinks. fold anchors.
  destruct (addLinks_spec anchors seriesUrl ∅ []) as (new & Heq & Hnd & Hnew & Hall).
  rewrite Heq. simpl.
  pose proof (Array_sort_perm compareLinks new) as Hperm.
  assert (Hpairs : NoDup (pair_of <$> Array_sort compareLinks new)).
  { rewrite Hperm. clear -Hnd. induction new as [|l new IH]; [constructor |].
    rewrite !fmap_cons in *. apply NoDup_cons in Hnd as [Hl Hnd].
    apply NoDup_cons. split; [| now apply IH].
    intros Hin. apply Hl. apply list_elem_of_fmap in Hin as (l0 & Hp & Hl0).
    apply list_elem_of_fmap. exists l0. split; [| exact Hl0].
    now apply link_key_pair. }
  split; [| split; [exact Hpairs |]; split].
  - apply sorted_distinct_strict; [| exact Hpairs].
    apply Array_sort_sorted; [apply compareLinks_total | apply compareLinks_trans].
  - intros l Hl. rewrite Hperm in Hl. now apply Hnew.
  - intros n l Hn Hl. destruct (Hall n l Hn Hl) as [Hin|(l' & Hl' & Hp)]; [set_solver |].
    exists l'. split; [now rewrite Hperm | exact Hp].
Qed.

End Anchors.

Lemma extractSeriesEpisodeLinks_sorted_first_witness :
  exists l,
    l ∈ @extractSeriesEpisodeLinks Fixture.site
          "<a href='/episode/naruto-2x1/'>..." "https://toonstream.one/series/naruto/" /\
    pair_of l = (1, 2).
Proof.
  destruct (@extractSeriesEpisodeLinks_sorted_first Fixture.site
              "<a href='/episode/naruto-2x1/'>..." "https://toonstream.one/series/naruto/")
    as (_ & _ & _ & Hall).
  destruct (Hall (Fixture.anchor "https://toonstream.one/episode/naruto-01x02/" "One-Two again")
              {| ln_url := "https://toonstream.one/episode/naruto-01x02/";
                 ln_season := 1; ln_episode := 2;
                 ln_title := "One-Two again"; ln_thumb := None |})
    as (l' & Hl' & Hp).
  - vm_compute. repeat (apply list_elem_of_here || apply list_elem_of_further).
  - reflexivity.
  - exists l'. split; [exact Hl' | exact Hp].
Defined.

End LinkFacts.

(** ** [fetchHtmlWithRetry] *)

Module FetchFacts.
Import Js Sync Stated JsFacts.

Lemma attempts_app (a b : list event) : attempts (a ++ b) = attempts a ++ attempts b.
Proof.
  induction a as [|e a IH]; simpl; [reflexivity |]. destruct e; simpl; now rewrite IH.
Qed.

Lemma delays_app (a b : list event) : delays (a ++ b) = delays a ++ delays b.
Proof.
  induction a as [|e a IH]; simpl; [reflexivity |]. destruct e; simpl; now rewrite IH.
Qed.

Lemma pages_app (a b : list event) : pages (a ++ b) = pages a ++ pages b.
Proof.
  induction a as [|e a IH]; simpl; [reflexivity |]. destruct e; simpl; now rewrite IH.
Qed.

(** axios resolves exactly on a response reached within five redirects
    whose status lies in [200, 400), and then with its body. *)
Lemma axios_get_resolves (r : raw_outcome) (text : string) :
  axios_get r = inl text <->
  exists redirects status,
    r = Response redirects status text /\
    (redirects <= 5)%nat /\ 200 <= status < 400.
Proof.
  unfold axios_get, maxRedirects, validateStatus. split.
  - destruct r as [e|rd st data]; [discriminate |].
    destruct (Nat.ltb_spec 5 rd); [discriminate |].
    destruct (Z.leb_spec 200 st), (Z.ltb_spec st 400); simpl; try discriminate.
    intros [= ->]. exists rd, st. repeat split; lia.
  - intros (rd & st & -> & Hrd & Hst).
    destruct (Nat.ltb_spec 5 rd); [lia |].
    destruct (Z.leb_spec 200 st), (Z.ltb_spec st 400); simpl; try lia. reflexivity.
Qed.

Section Fetch.
Context `{Env}.

(** What one run of the loop does, in terms of the requests it sends. *)
Lemma retry_loop_spec (url : string) (todo : nat) :
  forall (attempt : Z) (lastErr : option js_error) (s : state),
  exists (n : nat) (new : list event),
    (n <= todo)%nat /\
    trace (snd (retry_loop todo attempt url lastErr s)) = trace s ++ new /\
    requests (snd (retry_loop todo attempt url lastErr s)) = (requests s + n)%nat /\
    attempts new = map (fun k => (url, k)) (attempt_numbers attempt n) /\
    pages new = [] /\
    match fst (retry_loop todo attempt url lastErr s) with
    | inl text =>
        (1 <= n)%nat /\
        axios_get (network (requests s + (n - 1)) url) = inl text /\
        (forall j, (j < n - 1)%nat -> fails (requests s + j) url) /\
        delays new = map (Z.mul 500) (attempt_numbers attempt (n - 1))
    | inr e =>
        n = todo /\
        (forall j, (j < n)%nat -> fails (requests s + j) url) /\
        delays new = map (Z.mul 500) (attempt_numbers attempt n) /\
        ((n = 0%nat /\ e = lastErr) \/
         (exists err, (1 <= n)%nat /\
            axios_get (network (requests s + (n - 1)) url) = inr err /\ e = Some err))
    end.
Proof.
  induction todo as [|todo IH]; intros attempt lastErr s.
  - exists 0%nat, []. simpl. rewrite app_nil_r, Nat.add_0_r.
    repeat split; try reflexivity; try lia. now left.
  - cbn [retry_loop].
    destruct (axios_get (network (requests s) url)) as [data|err] eqn:Hout.
    + exists 1%nat, [EvRequest url attempt (getNextProxy (requests s))].
      cbn [fst snd tick emit trace requests attempts pages attempt_numbers map Nat.sub].
      rewrite Nat.add_0_r, Nat.add_1_r.
      repeat split; try reflexivity; try lia. exact Hout.
    + set (s1 := tick (emit (EvRequest url attempt (getNextProxy (requests s))) s)).
      set (s2 := match getNextProxy (requests s) with
                 | Some (String c r) =>
                     if is_connection_error err then emit (EvProxyFailed (String c r)) s1
                     else s1
                 | _ => s1
                 end).
      set (s3 := emit (EvDelay (500 * attempt)) s2).
      assert (Hs2 : exists mid, trace s2 = trace s1 ++ mid /\ requests s2 = requests s1 /\
                      attempts mid = [] /\ pages mid = [] /\ delays mid = []).
      { subst s2. destruct (getNextProxy (requests s)) as [[|c r]|];
          [| destruct (is_connection_error err) |].
        - exists []. rewrite app_nil_r. now repeat split.
        - exists [EvProxyFailed (String c r)]. now repeat split.
        - exists []. rewrite app_nil_r. now repeat split.
        - exists []. rewrite app_nil_r. now repeat split. }
      destruct Hs2 as (mid & Hmid & Hreq2 & Hmid_a & Hmid_p & Hmid_d).
      destruct (IH (attempt + 1) (Some err) s3) as (n & new & Hn & Htr & Hreq & Hatt & Hpg & Hres).
      assert (Hreq3 : requests s3 = S (requests s)) by (subst s3; simpl; now rewrite Hreq2).
      assert (Htr3 : trace s3 = trace s ++ EvRequest url attempt (getNextProxy (requests s))
                                  :: mid ++ [EvDelay (500 * attempt)]).
      { subst s3. simpl. rewrite Hmid. subst s1. simpl. now rewrite <- !app_assoc. }
      assert (Hidx : forall j, (requests s3 + j = requests s + S j)%nat) by (intros; lia).
      exists (S n), (EvRequest url attempt (getNextProxy (requests s))
                     :: mid ++ [EvDelay (500 * attempt)] ++ new).
      split; [lia |]. split; [| split; [| split; [| split]]].
      * rewrite Htr, Htr3, <- !app_assoc. simpl. now rewrite <- !app_assoc.
      * rewrite Hreq, Hreq3. lia.
      * cbn [attempts attempt_numbers map]. rewrite !attempts_app, Hmid_a, Hatt. reflexivity.
      * cbn [pages]. rewrite !pages_app, Hmid_p, Hpg. reflexivity.
      * assert (Hfirst : fails (requests s + 0) url)
          by (rewrite Nat.add_0_r; now exists err).
        destruct (fst (retry_loop todo (attempt + 1) url (Some err) s3)) as [text|e].
        -- destruct Hres as (H1 & Hok & Hfail & Hdel).
           split; [lia |]. split; [| split].
           ++ rewrite Hidx in Hok. now replace (S n - 1)%nat with (S (n - 1)) by lia.
           ++ intros [|j] Hj; [exact Hfirst |]. rewrite <- Hidx. apply Hfail. lia.
           ++ cbn [delays]. rewrite !delays_app, Hmid_d, Hdel. simpl.
              replace (n - 0)%nat with (S (n - 1)) by lia. reflexivity.
        -- destruct Hres as (-> & Hfail & Hdel & Hlast).
           split; [reflexivity |]. split; [| split].
           ++ intros [|j] Hj; [exact Hfirst |]. rewrite <- Hidx. apply Hfail. lia.
           ++ cbn [delays]. rewrite !delays_app, Hmid_d, Hdel. reflexivity.
           ++ right. destruct Hlast as [[-> ->]|(err' & H1 & Herr & ->)].
              ** exists err. split; [lia |]. split; [| reflexivity].
                 simpl. now rewrite Nat.add_0_r.
              ** exists err'. split; [lia |]. split; [| reflexivity].
                 rewrite Hidx in Herr. now replace (S todo - 1)%nat with (S (todo - 1)) by lia.
Qed.

(** C6. [fetchHtmlWithRetry] sends at most [retries] requests (three by
    default), numbered from 1, and sleeps 500 ms times the number of the
    attempt after each one that fails. If it returns, the last request
    met a response reached within five redirects with a status in
    [200, 400), and the text returned is that response's body; the first
    attempt that meets such a response ends the call this way. If every
    attempt fails it throws, and the message is the fixed prefix followed
    by the message of the last error (or by the words unknown error when
    that message is missing or empty). *)
Theorem fetchHtmlWithRetry_retries (url referer : string) (retries : Z) (s : state) :
  let R := fetchHtmlWithRetry url retries referer s in
  CONFIG_maxRetries = 3 /\
  (exists (n : nat) (new : list event),
     Z.of_nat n <= Z.max 0 retries /\
     trace (snd R) = trace s ++ EvPage url referer :: new /\
     attempts new = map (fun k => (url, k)) (attempt_numbers 1 n) /\
     match fst R with
     | inl text =>
         (1 <= n)%nat /\
         (exists redirects status,
            network (requests s + (n - 1)) url = Response redirects status text /\
            (redirects <= 5)%nat /\ 200 <= status < 400) /\
         delays new = map (Z.mul 500) (attempt_numbers 1 (n - 1))
     | inr msg =>
         n = Z.to_nat retries /\
         (forall j, (j < n)%nat -> fails (requests s + j) url) /\
         delays new = map (Z.mul 500) (attempt_numbers 1 n) /\
         (forall err, (1 <= n)%nat ->
            axios_get (network (requests s + (n - 1)) url) = inr err ->
            msg = "Failed to fetch " +:+ url +:+ ": " +:+
                  or_default (err_message err) "unknown error" /\
            forall m, err_message err = Some m -> m <> EmptyString ->
              msg = "Failed to fetch " +:+ url +:+ ": " +:+ m)
     end) /\
  (forall (k redirects : nat) (status : Z) (data : string),
     (k < Z.to_nat retries)%nat ->
     (forall j, (j < k)%nat -> fails (requests s + j) url) ->
     network (requests s + k) url = Response redirects status data ->
     (redirects <= 5)%nat -> 200 <= status < 400 ->
     fst R = inl data).
Proof.
  intros R. subst R. unfold fetchHtmlWithRetry.
  destruct (retry_loop_spec url (Z.to_nat retries) 1 None (emit (EvPage url referer) s))
    as (n & new & Hn & Htr & Hreq & Hatt & _ & Hres).
  cbn [emit trace requests] in Htr, Hreq, Hres.
  destruct (retry_loop (Z.to_nat retries) 1 url None (emit (EvPage url referer) s))
    as [[text|lastErr] s'] eqn:Hloop; cbn [fst snd] in *.
  - destruct Hres as (H1 & Hok & Hfail & Hdel).
    split; [reflexivity |]. split.
    + exists n, new. split; [lia |]. split; [now rewrite Htr, <- app_assoc |].
      split; [exact Hatt |]. split; [exact H1 |]. split; [| exact Hdel].
      now apply axios_get_resolves.
    + intros k rd st data Hk Hbefore Hnet Hrd Hst.
      assert (Hdata : axios_get (network (requests s + k) url) = inl data)
        by (apply axios_get_resolves; eauto).
      destruct (Nat.lt_trichotomy k (n - 1)) as [Hlt|[->|Hgt]].
      * destruct (Hfail k Hlt) as [e He]. congruence.
      * congruence.
      * destruct (Hbefore (n - 1)%nat Hgt) as [e He]. congruence.
  - destruct Hres as (-> & Hfail & Hdel & Hlast).
    split; [reflexivity |]. split.
    + exists (Z.to_nat retries), new. split; [lia |].
      split; [now rewrite Htr, <- app_assoc |].
      split; [exact Hatt |]. split; [reflexivity |]. split; [exact Hfail |].
      split; [exact Hdel |].
      intros err H1 Herr.
      destruct Hlast as [[H0 _]|(err' & _ & Herr' & ->)]; [lia |].
      assert (err' = err) as -> by congruence.
      split; [reflexivity |].
      intros m Hm Hne. rewrite Hm. destruct m; [congruence | reflexivity].
    + intros k rd st data Hk Hbefore Hnet Hrd Hst.
      assert (Hdata : axios_get (network (requests s + k) url) = inl data)
        by (apply axios_get_resolves; eauto).
      destruct (Hfail k Hk) as [e He]. congruence.
Qed.

End Fetch.

(** Behind a proxy, against a site that answers 503 and once refuses
    the connection: three attempts, the proxy marked once, and the last
    error in the message. *)
Example three_failed_attempts :
  let r := @fetchHtmlWithRetry Fixture.down_site "https://toonstream.one/home/" 3
             "referer" initial in
  fst r = inr "Failed to fetch https://toonstream.one/home/: connect ECONNREFUSED" /\
  delays (trace (snd r)) = [500; 1000; 1500] /\
  attempts (trace (snd r))
  = [("https://toonstream.one/home/", 1); ("https://toonstream.one/home/", 2);
     ("https://toonstream.one/home/", 3)].
Proof. repeat split; vm_compute; reflexivity. Qed.

Lemma fetchHtmlWithRetry_retries_witness :
  fst (@fetchHtmlWithRetry Fixture.flaky_site (Fixture.trembed "0") 3 "referer" initial)
  = inl "<iframe src='https://streamtape.com/e/abc'>".
Proof.
  destruct (@fetchHtmlWithRetry_retries Fixture.flaky_site (Fixture.trembed "0")
              "referer" 3 initial) as (_ & _ & Hfirst).
  apply (Hfirst 2%nat 0%nat 200).
  - vm_compute. lia.
  - intros [|[|j]] Hj; [eexists; reflexivity | eexists; reflexivity | lia].
  - reflexivity.
  - lia.
  - lia.
Defined.

End FetchFacts.

(** ** [extractRealVideoUrl] *)

Module ResolveFacts.
Import Js Sync Stated JsFacts FetchFacts.

Lemma page_after_quiet (t : list event) (prev : option event) :
  pages t = [] -> page_after prev t = true.
Proof.
  revert prev. induction t as [|e t IH]; intros prev Hp; [reflexivity |].
  destruct e; simpl in *; try discriminate; now apply IH.
Qed.

Lemma page_after_app (a b : list event) (prev : option event) :
  page_after prev a = true -> (forall p, page_after p b = true) ->
  page_after prev (a ++ b) = true.
Proof.
  revert prev. induction a as [|e a IH]; intros prev Ha Hb; [apply Hb |].
  simpl in *. apply andb_prop in Ha as [He Ha]. rewrite He. simpl. now apply IH.
Qed.

Section Resolve.
Context `{Env}.

(** The effects of asking for one page. *)
Lemma fetch_trace (url referer : string) (retries : Z) (s : state) :
  exists reqs,
    trace (snd (fetchHtmlWithRetry url retries referer s))
    = trace s ++ EvPage url referer :: reqs /\ pages reqs = [].
Proof.
  unfold fetchHtmlWithRetry.
  destruct (retry_loop_spec url (Z.to_nat retries) 1 None (emit (EvPage url referer) s))
    as (n & new & _ & Htr & _ & _ & Hpg & _).
  exists new. split; [| exact Hpg].
  destruct (retry_loop _ _ _ _ _) as [[text|e] s']; simpl in *;
    now rewrite Htr, <- app_assoc.
Qed.

(** A tail call is only made below the bound. *)
Lemma resolve_page_Follow (html url next : string) (visited : gset string) (depth : Z) :
  resolve_page html url visited depth = Follow next -> depth < MAX_DEPTH.
Proof.
  unfold resolve_page, iframe_block, script_block.
  destruct (truthy _ && isVideoUrl _); [discriminate |].
  destruct (Z.ltb_spec depth MAX_DEPTH) as [Hlt|Hge]; [intros _; exact Hlt |].
  destruct (pickIframe html url visited) as [[|c r]|];
    destruct (pickFromScripts html url visited) as [[|c' r']|];
    rewrite ?andb_false_r;
    repeat (match goal with
            | |- context [if ?b then _ else _] => destruct b
            end; simpl); discriminate.
Qed.

Lemma resolve_guarded (fuel : nat) (options : resolve_options) (visited : gset string)
    (url : string) (depth : Z) (s : state) :
  url <> EmptyString -> url ∈ visited \/ MAX_DEPTH < depth ->
  resolve (S fuel) options visited url depth s = Some (Some url, visited, s).
Proof.
  intros Hne Hstop. cbn [resolve]. destruct url as [|c r]; [congruence |]. simpl.
  destruct (bool_decide_reflect (String c r ∈ visited)) as [Hin|Hout]; [reflexivity |].
  destruct Hstop as [Hin|Hdeep]; [contradiction |].
  destruct (Z.ltb_spec MAX_DEPTH depth); [reflexivity | lia].
Qed.

(** A call that passes the guards is its page followed by the verdict. *)
Lemma resolve_live (fuel : nat) (options : resolve_options) (c : call) :
  live c ->
  resolve (S fuel) options (c_visited c) (c_url c) (c_depth c) (c_state c) =
  match page_of options c with
  | (inr _, s') => Some (None, {[c_url c]} ∪ c_visited c, s')
  | (inl html, s') =>
      match resolve_page html (c_url c) ({[c_url c]} ∪ c_visited c) (c_depth c) with
      | Return result => Some (result, {[c_url c]} ∪ c_visited c, s')
      | Follow next =>
          resolve fuel options ({[c_url c]} ∪ c_visited c) next (c_depth c + 1) s'
      end
  end.
Proof.
  intros (Hne & Hout & Hdepth). cbn [resolve]. unfold page_of.
  destruct (c_url c) as [|a r] eqn:Hu; [congruence |]. simpl negb. cbn match.
  destruct (bool_decide_reflect (String a r ∈ c_visited c)) as [Hin|_]; [contradiction |].
  destruct (Z.ltb_spec MAX_DEPTH (c_depth c)); [lia | reflexivity].
Qed.

Lemma live_or_guarded (visited : gset string) (url : string) (depth : Z) (s : state) :
  url = EmptyString \/
  (url <> EmptyString /\ (url ∈ visited \/ MAX_DEPTH < depth)) \/
  live {| c_visited := visited; c_url := url; c_depth := depth; c_state := s |}.
Proof.
  destruct url as [|a r]; [now left | right].
  destruct (decide (String a r ∈ visited)) as [Hin|Hout]; [left; split; [discriminate | now left] |].
  destruct (Z.lt_ge_cases MAX_DEPTH depth) as [Hlt|Hge];
    [left; split; [discriminate | now right] | right].
  unfold live. simpl. repeat split; [discriminate | exact Hout | lia].
Qed.

Lemma resolve_empty (fuel : nat) (options : resolve_options) (visited : gset string)
    (depth : Z) (s : state) :
  resolve (S fuel) options visited EmptyString depth s = Some (None, visited, s).
Proof. reflexivity. Qed.

(** With fuel for the depths that are left, a call returns. *)
Lemma resolve_terminates (fuel : nat) :
  forall (options : resolve_options) (visited : gset string) (url : string)
         (depth : Z) (s : state),
    (Z.to_nat (MAX_DEPTH - depth) < fuel)%nat ->
    exists x, resolve fuel options visited url depth s = Some x.
Proof.
  induction fuel as [|fuel IH]; intros options visited url depth s Hfuel; [lia |].
  destruct (live_or_guarded visited url depth s) as [->|[[Hne Hg]|Hlive]].
  - rewrite resolve_empty. eauto.
  - rewrite (resolve_guarded _ _ _ _ _ _ Hne Hg). eauto.
  - pose proof (resolve_live fuel options _ Hlive) as Heq.
    cbn [c_visited c_url c_depth c_state] in Heq. rewrite Heq.
    destruct (page_of options _) as [[html|msg] s']; [| eauto].
    destruct (resolve_page _ _ _ _) as [result|next] eqn:Hv; [eauto |].
    apply resolve_page_Follow in Hv. apply IH. lia.
Qed.

(** More fuel does not change what a call returns. *)
Lemma resolve_more_fuel (fuel : nat) :
  forall (options : resolve_options) (visited : gset string) (url : string)
         (depth : Z) (s : state) x,
    resolve fuel options visited url depth s = Some x ->
    resolve (S fuel) options visited url depth s = Some x.
Proof.
  induction fuel as [|fuel IH]; intros options visited url depth s x Hx; [discriminate |].
  destruct (live_or_guarded visited url depth s) as [->|[[Hne Hg]|Hlive]].
  - rewrite resolve_empty in Hx. now rewrite resolve_empty.
  - rewrite (resolve_guarded fuel _ _ _ _ _ Hne Hg) in Hx.
    now rewrite (resolve_guarded (S fuel) _ _ _ _ _ Hne Hg).
  - pose proof (resolve_live fuel options _ Hlive) as Heq.
    pose proof (resolve_live (S fuel) options _ Hlive) as Heq'.
    cbn [c_visited c_url c_depth c_state] in Heq, Heq'.
    rewrite Heq in Hx. rewrite Heq'.
    destruct (page_of options _) as [[html|msg] s']; [| exact Hx].
    destruct (resolve_page _ _ _ _) as [result|next]; [exact Hx |].
    now apply IH.
Qed.

Lemma resolve_fuel_le (fuel fuel' : nat) (options : resolve_options)
    (visited : gset string) (url : string) (depth : Z) (s : state) x :
  (fuel <= fuel')%nat ->
  resolve fuel options visited url depth s = Some x ->
  resolve fuel' options visited url depth s = Some x.
Proof.
  induction 1 as [|fuel' _ IH]; [tauto |]. intros Hx. now apply resolve_more_fuel, IH.
Qed.

Lemma resolve_deterministic (f1 f2 : nat) (options : resolve_options)
    (visited : gset string) (url : string) (depth : Z) (s : state) x y :
  resolve f1 options visited url depth s = Some x ->
  resolve f2 options visited url depth s = Some y -> x = y.
Proof.
  intros Hx Hy.
  apply (resolve_fuel_le f1 (Nat.max f1 f2)) in Hx; [| lia].
  apply (resolve_fuel_le f2 (Nat.max f1 f2)) in Hy; [| lia].
  congruence.
Qed.

(** What a call that returns has done. *)
Lemma resolve_spec (fuel : nat) :
  forall (options : resolve_options) (visited : gset string) (url : string)
         (depth : Z) (s : state) r visited' s',
    resolve fuel options visited url depth s = Some (r, visited', s') ->
    exists new,
      trace s' = trace s ++ new /\
      (forall prev, page_after prev new = true) /\
      NoDup (pages new) /\
      (forall u, u ∈ pages new -> u ∉ visited) /\
      visited' = list_to_set (pages new) ∪ visited /\
      (length (pages new) <= Z.to_nat (MAX_DEPTH + 1 - depth))%nat.
Proof.
  induction fuel as [|fuel IH]; intros options visited url depth s r visited' s' Hr;
    [discriminate |].
  assert (Hnone : forall (v0 : gset string) (s0 : state), exists new : list event,
            trace s0 = trace s0 ++ new /\
            (forall prev, page_after prev new = true) /\
            NoDup (pages new) /\
            (forall u, u ∈ pages new -> u ∉ v0) /\
            v0 = list_to_set (pages new) ∪ v0 /\
            (length (pages new) <= Z.to_nat (MAX_DEPTH + 1 - depth))%nat).
  { intros v0 s0. exists []. rewrite app_nil_r. simpl.
    repeat split; try constructor; try lia.
    - intros u Hu. now apply elem_of_nil in Hu.
    - now rewrite union_empty_l_L. }
  destruct (live_or_guarded visited url depth s) as [->|[[Hne Hg]|Hlive]].
  - rewrite resolve_empty in Hr. injection Hr as <- <- <-. apply Hnone.
  - rewrite (resolve_guarded _ _ _ _ _ _ Hne Hg) in Hr. injection Hr as <- <- <-. apply Hnone.
  - pose proof (resolve_live fuel options _ Hlive) as Heq.
    cbn [c_visited c_url c_depth c_state] in Heq. rewrite Heq in Hr.
    clear Heq Hnone. destruct Hlive as (Hne & Hout & Hdepth). simpl in Hne, Hout, Hdepth.
    unfold page_of in Hr. simpl in Hr.
    destruct (fetch_trace url (referer_of options) CONFIG_maxRetries (emit (EvVisit url) s))
      as (reqs & Htr & Hquiet).
    simpl in Htr. rewrite <- app_assoc in Htr. simpl in Htr.
    set (page := EvVisit url :: EvPage url (referer_of options) :: reqs) in *.
    assert (Hshape : forall prev, page_after prev page = true).
    { intros prev. subst page. simpl. rewrite String.eqb_refl. simpl.
      now apply page_after_quiet. }
    assert (Hpages : pages page = [url]) by (subst page; simpl; now rewrite Hquiet).
    assert (Hone : exists new : list event,
              trace (snd (fetchHtmlWithRetry url CONFIG_maxRetries (referer_of options)
                            (emit (EvVisit url) s))) = trace s ++ new /\
              (forall prev, page_after prev new = true) /\
              NoDup (pages new) /\
              (forall u, u ∈ pages new -> u ∉ visited) /\
              {[url]} ∪ visited = list_to_set (pages new) ∪ visited /\
              (length (pages new) <= Z.to_nat (MAX_DEPTH + 1 - depth))%nat).
    { exists page. split; [exact Htr |]. split; [exact Hshape |]. rewrite Hpages.
      split; [apply NoDup_singleton |]. split; [| split].
      - intros u Hu. apply list_elem_of_singleton in Hu. now subst u.
      - simpl. now rewrite union_empty_r_L.
      - simpl. lia. }
    destruct (fetchHtmlWithRetry url CONFIG_maxRetries (referer_of options)
                (emit (EvVisit url) s)) as [[html|msg] s1]; simpl in Htr, Hone.
    + destruct (resolve_page html url ({[url]} ∪ visited) depth) as [result|next] eqn:Hv.
      * injection Hr as <- <- <-. exact Hone.
      * apply resolve_page_Follow in Hv.
        destruct (IH _ _ _ _ _ _ _ _ Hr) as (new & Htr' & Hshape' & Hnd & Hfresh & Hset & Hlen).
        exists (page ++ new). split; [now rewrite Htr', Htr, <- app_assoc |].
        split; [intros prev; now apply page_after_app |].
        rewrite pages_app, Hpages. simpl.
        split; [| split; [| split]].
        -- apply NoDup_cons. split; [| exact Hnd].
           intros Hin. apply (Hfresh url Hin). apply elem_of_union. left.
           now apply elem_of_singleton.
        -- intros u Hu. apply elem_of_cons in Hu as [->|Hu]; [exact Hout |].
           intros Hin. apply (Hfresh u Hu). apply elem_of_union. now right.
        -- rewrite Hset. now rewrite (assoc_L (∪)), (comm_L (∪) _ {[url]}).
        -- lia.
    + injection Hr as <- <- <-. exact Hone.
Qed.

Lemma extractRealVideoUrl_returns (intermediateUrl : string) (options : resolve_options)
    (s : state) :
  exists result visited' s',
    resolve resolve_fuel options ∅ intermediateUrl 0 s = Some (result, visited', s') /\
    extractRealVideoUrl intermediateUrl options s = Some (result, s').
Proof.
  destruct (resolve_terminates resolve_fuel options ∅ intermediateUrl 0 s)
    as [[[result visited'] s'] Hx]; [unfold resolve_fuel; lia |].
  exists result, visited', s'. split; [exact Hx |].
  unfold extractRealVideoUrl. now rewrite Hx.
Qed.

(** C1. Every call of [extractRealVideoUrl] returns. Among the pages it
    asks for no URL occurs twice, each is asked for right after its URL
    was added to the visited set, and there are at most [MAX_DEPTH + 1]
    of them, where [MAX_DEPTH] is the configured depth plus 2. A call of
    [resolve] on a URL that is in the visited set, or at a depth beyond
    [MAX_DEPTH], returns that URL as it is and does nothing else. *)
Theorem extractRealVideoUrl_terminates_no_refetch (options : resolve_options)
    (intermediateUrl : string) (s : state) :
  (exists result s' new,
     extractRealVideoUrl intermediateUrl options s = Some (result, s') /\
     trace s' = trace s ++ new /\
     NoDup (pages new) /\
     page_after_visit new = true /\
     (length (pages new) <= Z.to_nat (MAX_DEPTH + 1))%nat) /\
  (forall (fuel : nat) (visited : gset string) (url : string) (depth : Z) (st : state),
     url <> EmptyString ->
     url ∈ visited \/ MAX_DEPTH < depth ->
     resolve (S fuel) options visited url depth st = Some (Some url, visited, st)) /\
  MAX_DEPTH = embedMaxDepth + 2.
Proof.
  split; [| split; [| reflexivity]].
  - destruct (extractRealVideoUrl_returns intermediateUrl options s)
      as (result & visited' & s' & Hres & Hcall).
    destruct (resolve_spec _ _ _ _ _ _ _ _ _ Hres) as (new & Htr & Hshape & Hnd & _ & _ & Hlen).
    exists result, s', new. split; [exact Hcall |]. split; [exact Htr |].
    split; [exact Hnd |]. split; [apply Hshape |].
    now rewrite Z.sub_0_r in Hlen.
  - intros fuel visited url depth st. apply resolve_guarded.
Qed.

(** *** C2: failures of the fetch *)

Lemma hop_resolve (options : resolve_options) (c c' : call) (fuel : nat) :
  hop options c c' ->
  resolve (S fuel) options (c_visited c) (c_url c) (c_depth c) (c_state c) =
  resolve fuel options (c_visited c') (c_url c') (c_depth c') (c_state c').
Proof.
  intros [c0 html next s1 Hlive Hpage Hverdict].
  rewrite (resolve_live fuel options c0 Hlive), Hpage, Hverdict. reflexivity.
Qed.

Lemma chain_resolve (options : resolve_options) (c c' : call) :
  rtc (hop options) c c' ->
  forall fuel x,
    resolve fuel options (c_visited c') (c_url c') (c_depth c') (c_state c') = Some x ->
    exists fuel',
      resolve fuel' options (c_visited c) (c_url c) (c_depth c) (c_state c) = Some x.
Proof.
  induction 1 as [c|c c1 c2 Hhop _ IH]; intros fuel x Hx; [eauto |].
  destruct (IH fuel x Hx) as [fuel' Hx']. exists (S fuel').
  now rewrite (hop_resolve _ _ _ _ Hhop).
Qed.

(** When the three attempts on the page of a call fail, the fetch
    throws. *)
Lemma page_of_throws (options : resolve_options) (c : call) :
  (forall j, (j < 3)%nat -> fails (requests (c_state c) + j) (c_url c)) ->
  exists message s1, page_of options c = (inr message, s1).
Proof.
  intros Hfail. unfold page_of, fetchHtmlWithRetry.
  destruct (retry_loop_spec (c_url c) (Z.to_nat CONFIG_maxRetries) 1 None
              (emit (EvPage (c_url c) (referer_of options))
                 (emit (EvVisit (c_url c)) (c_state c))))
    as (n & new & Hn & _ & _ & _ & _ & Hres).
  destruct (retry_loop _ _ _ _ _) as [[text|lastErr] s1]; [| eauto].
  exfalso. cbn [fst emit requests] in Hres. destruct Hres as (H1 & Hok & _).
  change (Z.to_nat CONFIG_maxRetries) with 3%nat in Hn.
  destruct (Hfail (n - 1)%nat) as [e He]; [lia | congruence].
Qed.

(** C2. At every hop of a resolution chain: when every attempt to fetch
    the page at the current URL fails, the fetch throws, that call of
    [resolve] returns null, not the URL and not an exception, and so does
    the [extractRealVideoUrl] call the chain started from. *)
Theorem failed_fetch_returns_null (options : resolve_options) (intermediateUrl : string)
    (s : state) (c : call) :
  rtc (hop options) (first_call intermediateUrl s) c ->
  live c ->
  (forall j, (j < 3)%nat -> fails (requests (c_state c) + j) (c_url c)) ->
  exists message s1,
    page_of options c = (inr message, s1) /\
    (forall fuel,
       resolve (S fuel) options (c_visited c) (c_url c) (c_depth c) (c_state c)
       = Some (None, {[c_url c]} ∪ c_visited c, s1)) /\
    extractRealVideoUrl intermediateUrl options s = Some (None, s1).
Proof.
  intros Hchain Hlive Hfail.
  destruct (page_of_throws options c Hfail) as (message & s1 & Hpage).
  exists message, s1. split; [exact Hpage |].
  assert (Hhere : forall fuel,
            resolve (S fuel) options (c_visited c) (c_url c) (c_depth c) (c_state c)
            = Some (None, {[c_url c]} ∪ c_visited c, s1)).
  { intros fuel. now rewrite (resolve_live fuel options c Hlive), Hpage. }
  split; [exact Hhere |].
  destruct (chain_resolve _ _ _ Hchain 1%nat _ (Hhere 0%nat)) as [fuel' Hstart].
  destruct (extractRealVideoUrl_returns intermediateUrl options s)
    as (result & visited' & s' & Hres & Hcall).
  simpl in Hstart.
  pose proof (resolve_deterministic _ _ _ _ _ _ _ _ _ Hstart Hres) as Heq.
  injection Heq as <- _ <-. exact Hcall.
Qed.

End Resolve.

(** Two pages that embed each other: the second call finds the first
    URL in the visited set, has nothing else to follow and returns its
    own URL; two pages were asked for. *)
Example cycle_of_two_pages :
  Fixture.run Fixture.site (Fixture.trembed "3")
  = Some (Some (Fixture.trembed "4"), [Fixture.trembed "3"; Fixture.trembed "4"]).
Proof. vm_compute. reflexivity. Qed.

(** A page that is not served: null, after one page was asked for. *)
Example unreachable_page :
  Fixture.run Fixture.site (Fixture.trembed "1") = Some (None, [Fixture.trembed "1"]).
Proof. vm_compute. reflexivity. Qed.

Lemma extractRealVideoUrl_terminates_no_refetch_witness :
  @resolve Fixture.site 1 Fixture.no_options
     {[Fixture.trembed "3"; Fixture.trembed "4"]} (Fixture.trembed "3") 2 initial
  = Some (Some (Fixture.trembed "3"), {[Fixture.trembed "3"; Fixture.trembed "4"]}, initial).
Proof.
  destruct (@extractRealVideoUrl_terminates_no_refetch Fixture.site Fixture.no_options
              (Fixture.trembed "3") initial) as (_ & Hstop & _).
  apply Hstop.
  - discriminate.
  - left. apply elem_of_union. left. now apply elem_of_singleton.
Defined.

Ltac differ := let E := fresh in intros E; vm_compute in E; discriminate E.

Lemma failed_fetch_returns_null_witness :
  @extractRealVideoUrl Fixture.site (Fixture.trembed "7") Fixture.no_options initial
  = Some (None, snd Fixture.page_blank).
Proof.
  destruct (@failed_fetch_returns_null Fixture.site Fixture.no_options (Fixture.trembed "7")
              initial Fixture.call_blank) as (message & s1 & Hpage & _ & Hcall).
  - eapply rtc_l; [| apply rtc_refl].
    apply (@hop_follow Fixture.site Fixture.no_options Fixture.call_7
             (Fixture.html_of (Fixture.trembed "7")) Fixture.blank (snd Fixture.page_7)).
    + repeat split; [differ | apply not_elem_of_empty | vm_compute; discriminate].
    + vm_compute. reflexivity.
    + vm_compute. reflexivity.
  - repeat split; [differ | | vm_compute; discriminate].
    apply not_elem_of_union. split; [| apply not_elem_of_empty].
    apply not_elem_of_singleton. differ.
  - intros j _. eexists. reflexivity.
  - rewrite Hcall. vm_compute in Hpage. injection Hpage as _ <-. reflexivity.
Defined.

End ResolveFacts.

(** ** What a page resolves to *)

Module VerdictFacts.
Import Js Sync Stated JsFacts FetchFacts ResolveFacts.

Section Verdicts.
Context `{Env}.

Lemma pickDirectVideo_loop_first (videoTags : list element) (url v : string) :
  pickDirectVideo_loop videoTags url = Some v <->
  exists pre node post,
    videoTags = pre ++ node :: post /\
    video_source_url node url = Some v /\
    forall n, n ∈ pre -> video_source_url n url = None.
Proof.
  induction videoTags as [|node rest IH]; simpl.
  - split; [discriminate |]. intros (pre & n & post & Heq & _). now destruct pre.
  - destruct (video_source_url node url) as [w|] eqn:Hnode.
    + split.
      * intros [= <-]. exists [], node, rest. repeat split; [exact Hnode |].
        intros n Hn. now apply elem_of_nil in Hn.
      * intros (pre & n & post & Heq & Hn & Hpre). destruct pre as [|p pre].
        -- injection Heq as <- <-. congruence.
        -- injection Heq as <- _. rewrite (Hpre node) in Hnode; [discriminate |].
           apply list_elem_of_here.
    + rewrite IH. split.
      * intros (pre & n & post & -> & Hn & Hpre). exists (node :: pre), n, post.
        repeat split; [exact Hn |]. intros m Hm.
        apply elem_of_cons in Hm as [->|Hm]; [exact Hnode | now apply Hpre].
      * intros (pre & n & post & Heq & Hn & Hpre). destruct pre as [|p pre].
        -- injection Heq as <- <-. congruence.
        -- injection Heq as <- ->. exists pre, n, post. repeat split; [exact Hn |].
           intros m Hm. apply Hpre. now apply list_elem_of_further.
Qed.

Lemma video_source_url_nonempty (node : element) (url v : string) :
  video_source_url node url = Some v -> v <> EmptyString /\ startsWith v "blob:" = false.
Proof.
  unfold video_source_url. destruct (normalizeUrl _ _) as [[|c r]|]; try discriminate.
  destruct (startsWith (String c r) "blob:") eqn:Hb; [discriminate |].
  intros [= <-]. now split.
Qed.

Lemma pickDirectVideo_truthy (html url v : string) :
  pickDirectVideo html url = Some v -> truthy (Some v) = true.
Proof.
  intros Hv. apply pickDirectVideo_loop_first in Hv as (pre & node & post & _ & Hnode & _).
  apply video_source_url_nonempty in Hnode as [Hne _]. now destruct v.
Qed.

Lemma iframeUrls_nonempty (iframes : list element) (url : string) (visited : gset string) :
  Forall (fun u => u <> EmptyString /\ u <> url /\ u ∉ visited) (iframeUrls iframes url visited).
Proof.
  induction iframes as [|iframe rest IH]; cbn [iframeUrls]; [constructor |].
  destruct (normalizeUrl _ url) as [[|c r]|]; unfold usable; try exact IH.
  destruct (String.eqb_spec (String c r) url) as [Heq|Hne]; cbn [negb andb]; [exact IH |].
  destruct (bool_decide_reflect (String c r ∈ visited)) as [Hin|Hout]; cbn [negb];
    [exact IH |].
  constructor; [| exact IH]. repeat split; [discriminate | exact Hne | exact Hout].
Qed.

Lemma pickIframe_usable (html url u : string) (visited : gset string) :
  pickIframe html url visited = Some u ->
  u <> EmptyString /\ u <> url /\ u ∉ visited.
Proof.
  unfold pickIframe. intros Hu.
  pose proof (iframeUrls_nonempty (select html SelIframe) url visited) as Hall.
  destruct (iframeUrls _ _ _) as [|u0 l]; [discriminate |].
  injection Hu as ->. now apply Forall_inv in Hall.
Qed.

(** C3 (as amended). [pickDirectVideo] gives the offer of the first
    [video]/[source] element, in document order, whose [src || data-src]
    normalises to something that is not a blob. When that URL passes
    [isVideoUrl], [resolve] returns it at once, whatever frames and
    scripts the page has. When it does not pass, the frames and the
    scripts come first: what the frame block decides is what the call
    does; where that block falls through, what the script block decides;
    where both fall through, a usable frame below the depth bound is
    followed; and the direct video is returned only when none of these
    applies. *)
Theorem direct_video_first (options : resolve_options) (c : call) (html : string)
    (s1 : state) (fuel : nat) :
  live c ->
  page_of options c = (inl html, s1) ->
  let url := c_url c in
  let depth := c_depth c in
  let visited' := {[url]} ∪ c_visited c in
  let frame := pickIframe html url visited' in
  let script := pickFromScripts html url visited' in
  let call_ends := resolve (S fuel) options (c_visited c) url depth (c_state c) in
  let ends_as (d : verdict) :=
    match d with
    | Return result => Some (result, visited', s1)
    | Follow next => resolve fuel options visited' next (depth + 1) s1
    end in
  (forall v,
     pickDirectVideo html url = Some v <->
     exists pre node post,
       select html SelVideoSource = pre ++ node :: post /\
       video_source_url node url = Some v /\
       forall n, n ∈ pre -> video_source_url n url = None) /\
  (forall v,
     pickDirectVideo html url = Some v -> isVideoUrl (Some v) = true ->
     call_ends = Some (Some v, visited', s1)) /\
  (forall v,
     pickDirectVideo html url = Some v -> isVideoUrl (Some v) = false ->
     (forall d, iframe_block frame depth = Some d -> call_ends = ends_as d) /\
     (iframe_block frame depth = None ->
      forall d, script_block script depth = Some d -> call_ends = ends_as d) /\
     (iframe_block frame depth = None -> script_block script depth = None ->
      forall next, frame = Some next -> depth < MAX_DEPTH ->
      call_ends = ends_as (Follow next)) /\
     (iframe_block frame depth = None -> script_block script depth = None ->
      frame = None \/ MAX_DEPTH <= depth ->
      call_ends = Some (Some v, visited', s1))).
Proof.
  intros Hlive Hpage. cbn zeta.
  assert (Hcall : resolve (S fuel) options (c_visited c) (c_url c) (c_depth c) (c_state c)
                  = match resolve_page html (c_url c) ({[c_url c]} ∪ c_visited c)
                            (c_depth c) with
                    | Return result => Some (result, {[c_url c]} ∪ c_visited c, s1)
                    | Follow next =>
                        resolve fuel options ({[c_url c]} ∪ c_visited c) next
                          (c_depth c + 1) s1
                    end).
  { now rewrite (resolve_live fuel options c Hlive), Hpage. }
  rewrite Hcall. clear Hcall.
  split; [| split].
  - intros v. apply pickDirectVideo_loop_first.
  - intros v Hv Hvideo. unfold resolve_page.
    rewrite Hv, (pickDirectVideo_truthy _ _ _ Hv), Hvideo. reflexivity.
  - intros v Hv Hvideo. unfold resolve_page. rewrite Hv, Hvideo, andb_false_r.
    assert (Hd : or_default (Some v) (c_url c) = v).
    { pose proof (pickDirectVideo_truthy _ _ _ Hv) as Ht. now destruct v. }
    rewrite Hd.
    split; [| split; [| split]].
    + intros d ->. reflexivity.
    + intros -> d ->. reflexivity.
    + intros -> -> next Hframe Hdepth. rewrite Hframe.
      destruct (pickIframe_usable _ _ _ _ Hframe) as (Hne & _).
      destruct next as [|a r]; [congruence |].
      destruct (Z.ltb_spec (c_depth c) MAX_DEPTH); [reflexivity | lia].
    + intros -> -> [Hnone|Hdeep].
      * now rewrite Hnone.
      * destruct (pickIframe _ _ _) as [[|a r]|]; try reflexivity.
        destruct (Z.ltb_spec (c_depth c) MAX_DEPTH); [lia | reflexivity].
Qed.

(** C4 (as amended). Below the depth bound, when the page has no direct
    video that passes [isVideoUrl], and its first usable frame holds none
    of toonstream.one, trembed, trid= and trtype=, and is a known player,
    a video URL or starts with http, [resolve] returns the frame's URL
    and the only page asked for is the containing one. *)
Theorem external_iframe_returned (options : resolve_options) (c : call) (html : string)
    (s1 : state) (fuel : nat) (iframeUrl : string) :
  live c ->
  page_of options c = (inl html, s1) ->
  isVideoUrl (pickDirectVideo html (c_url c)) = false ->
  pickIframe html (c_url c) ({[c_url c]} ∪ c_visited c) = Some iframeUrl ->
  c_depth c < MAX_DEPTH ->
  iframeNotToonstream iframeUrl = true ->
  isVideoPlayer iframeUrl || isVideoUrl (Some iframeUrl) || startsWith iframeUrl "http" = true ->
  resolve (S fuel) options (c_visited c) (c_url c) (c_depth c) (c_state c)
  = Some (Some iframeUrl, {[c_url c]} ∪ c_visited c, s1) /\
  exists reqs,
    trace s1 = trace (c_state c) ++
               EvVisit (c_url c) :: EvPage (c_url c) (referer_of options) :: reqs /\
    pages reqs = [].
Proof.
  intros Hlive Hpage Hvideo Hframe Hdepth Hext Hclass. split.
  - rewrite (resolve_live fuel options c Hlive), Hpage.
    unfold resolve_page. rewrite Hvideo, andb_false_r, Hframe.
    destruct (pickIframe_usable _ _ _ _ Hframe) as (Hne & _).
    destruct iframeUrl as [|a r]; [congruence |].
    unfold iframe_block. destruct (Z.ltb_spec (c_depth c) MAX_DEPTH); [| lia].
    rewrite Hext, !andb_true_l.
    destruct (isVideoPlayer (String a r) || isVideoUrl (Some (String a r))) eqn:Hp;
      [reflexivity |].
    rewrite orb_false_l in Hclass. now rewrite Hclass.
  - unfold page_of in Hpage.
    destruct (fetch_trace (c_url c) (referer_of options) CONFIG_maxRetries
                (emit (EvVisit (c_url c)) (c_state c))) as (reqs & Htr & Hquiet).
    rewrite Hpage in Htr. simpl in Htr. exists reqs. split; [| exact Hquiet].
    now rewrite Htr, <- app_assoc.
Qed.

End Verdicts.

Lemma direct_video_first_witness :
  @resolve Fixture.site 1 Fixture.no_options ∅ (Fixture.trembed "5") 0 initial
  = Some (Some Fixture.mp4, {[Fixture.trembed "5"]} ∪ ∅, snd Fixture.page_5) /\
  @resolve Fixture.site 1 Fixture.no_options ∅ (Fixture.trembed "6") 0 initial
  = Some (Some Fixture.streamtape, {[Fixture.trembed "6"]} ∪ ∅, snd Fixture.page_6).
Proof.
  split.
  - destruct (@direct_video_first Fixture.site Fixture.no_options Fixture.call_5
                (Fixture.html_of (Fixture.trembed "5")) (snd Fixture.page_5) 0)
      as (_ & Hfirst & _).
    + repeat split; [differ | apply not_elem_of_empty | vm_compute; discriminate].
    + vm_compute. reflexivity.
    + apply (Hfirst Fixture.mp4); vm_compute; reflexivity.
  - destruct (@direct_video_first Fixture.site Fixture.no_options Fixture.call_6
                (Fixture.html_of (Fixture.trembed "6")) (snd Fixture.page_6) 0)
      as (_ & _ & Hlast).
    + repeat split; [differ | apply not_elem_of_empty | vm_compute; discriminate].
    + vm_compute. reflexivity.
    + destruct (Hlast Fixture.clip) as (Hframe & _); [vm_compute; reflexivity .. |].
      apply (Hframe (Return (Some Fixture.streamtape))). vm_compute. reflexivity.
Defined.

(** C3 (as stated) fails: the page of option 6 has a video element whose
    source normalises to a URL that is not a blob, and the resolver
    returns the external frame of the page instead. *)
Lemma direct_video_not_returned :
  let html := Fixture.html_of (Fixture.trembed "6") in
  @select Fixture.site html SelVideoSource = [Fixture.el [("src", Fixture.clip)]] /\
  @video_source_url Fixture.site (Fixture.el [("src", Fixture.clip)]) (Fixture.trembed "6")
  = Some Fixture.clip /\
  startsWith Fixture.clip "blob:" = false /\
  Fixture.run Fixture.site (Fixture.trembed "6")
  = Some (Some Fixture.streamtape, [Fixture.trembed "6"]) /\
  Fixture.streamtape <> Fixture.clip.
Proof. repeat split; try (vm_compute; reflexivity). differ. Qed.

Lemma external_iframe_returned_witness :
  @resolve Fixture.site 1 Fixture.no_options ∅ (Fixture.trembed "0") 0 initial
  = Some (Some Fixture.streamtape, {[Fixture.trembed "0"]} ∪ ∅, snd Fixture.page_0).
Proof.
  apply (@external_iframe_returned Fixture.site Fixture.no_options Fixture.call_0
           (Fixture.html_of (Fixture.trembed "0")) (snd Fixture.page_0) 0 Fixture.streamtape).
  - repeat split; [differ | apply not_elem_of_empty | vm_compute; discriminate].
  - vm_compute. reflexivity.
  - vm_compute. reflexivity.
  - vm_compute. reflexivity.
  - vm_compute. reflexivity.
  - vm_compute. reflexivity.
  - vm_compute. reflexivity.
Defined.

(** C4 (as stated) fails in three ways. On the page of option 5 the first
    usable frame is external and the direct video is returned instead.
    On the page of option 7 the frame is external but not http: it is
    asked for, and the resolution ends in null. Down the chain of options
    10 to 15 the last page is fetched at the depth bound, where frames
    are not looked at, and its own URL is returned. *)
Lemma external_iframe_not_returned :
  (@pickIframe Fixture.site (Fixture.html_of (Fixture.trembed "5")) (Fixture.trembed "5")
     {[Fixture.trembed "5"]} = Some Fixture.streamtape /\
   @isToonstreamUrl Fixture.site (Some Fixture.streamtape) = false /\
   Fixture.run Fixture.site (Fixture.trembed "5")
   = Some (Some Fixture.mp4, [Fixture.trembed "5"])) /\
  (@pickIframe Fixture.site (Fixture.html_of (Fixture.trembed "7")) (Fixture.trembed "7")
     {[Fixture.trembed "7"]} = Some Fixture.blank /\
   @isToonstreamUrl Fixture.site (Some Fixture.blank) = false /\
   iframeNotToonstream Fixture.blank = true /\
   Fixture.run Fixture.site (Fixture.trembed "7")
   = Some (None, [Fixture.trembed "7"; Fixture.blank])) /\
  (@pickIframe Fixture.site (Fixture.html_of (Fixture.trembed "15")) (Fixture.trembed "15")
     {[Fixture.trembed "15"]} = Some Fixture.streamtape /\
   Fixture.run Fixture.site (Fixture.trembed "10")
   = Some (Some (Fixture.trembed "15"),
           [Fixture.trembed "10"; Fixture.trembed "11"; Fixture.trembed "12";
            Fixture.trembed "13"; Fixture.trembed "14"; Fixture.trembed "15"])).
Proof. repeat split; vm_compute; reflexivity. Qed.

End VerdictFacts.

(** ** [extractEmbeds] *)

Module EmbedFacts.
Import Js Sync Stated JsFacts FetchFacts ResolveFacts.

Section Embeds.
Context `{Env}.

Lemma playerOptions_direct (els : list element) :
  forall (seen : gset string) (opts : list serverOption),
    Forall direct_is_external opts ->
    Forall direct_is_external (snd (playerOptions els seen opts)).
Proof.
  induction els as [|el rest IH]; intros seen opts Hopts; [exact Hopts |].
  cbn [playerOptions].
  destruct (attr (el_attrs el) "data-post") as [[|pc pr]|]; try now apply IH.
  destruct (attr (el_attrs el) "data-nume") as [[|nc nr]|]; try now apply IH.
  destruct (bool_decide _); [now apply IH |].
  apply IH. apply Forall_app. split; [exact Hopts |].
  constructor; [| constructor]. intros u Hu. discriminate.
Qed.

Lemma iframeOptions_direct (els : list element) :
  forall (seen : gset string) (opts : list serverOption),
    Forall direct_is_external opts ->
    Forall direct_is_external (snd (iframeOptions els seen opts)).
Proof.
  induction els as [|el rest IH]; intros seen opts Hopts; [exact Hopts |].
  cbn [iframeOptions].
  destruct (normalizeUrl _ homeUrl) as [[|c r]|]; try now apply IH.
  destruct (bool_decide _); [now apply IH |].
  apply IH. apply Forall_app. split; [exact Hopts |].
  constructor; [| constructor]. intros u. cbn [so_directUrl].
  destruct (isExternal (String c r)) eqn:Hext; [| discriminate].
  intros [= <-]. split; [exact Hext | discriminate].
Qed.

Lemma serverOptions_direct (html : string) :
  Forall direct_is_external (serverOptions_of html).
Proof.
  unfold serverOptions_of.
  pose proof (playerOptions_direct (select html SelPlayerOption) ∅ []
                (List.Forall_nil _)) as Hp.
  destruct (playerOptions _ _ _) as [seen opts]. now apply iframeOptions_direct.
Qed.

Lemma isExternal_outside (u : string) :
  isExternal u = true ->
  includes u "toonstream.one" = false /\ includes u "trembed" = false.
Proof.
  unfold isExternal. intros Hu.
  apply andb_prop in Hu as [Hu _]. apply andb_prop in Hu as [H1 H2].
  split; now apply negb_true_iff.
Qed.

Lemma entry_from_later (server : serverOption) (servers : list serverOption)
    (episodeUrl : string) (e : embed) :
  entry_from servers episodeUrl e -> entry_from (server :: servers) episodeUrl e.
Proof.
  unfold entry_from. intros (Hrv & Hne & He). split; [exact Hrv |]. split; [exact Hne |].
  destruct (em_intermediate_url e) as [t|].
  - destruct He as ((sv & Hin & Hsv) & Hrest). split; [| exact Hrest].
    exists sv. split; [now apply list_elem_of_further | exact Hsv].
  - destruct He as (sv & Hin & Hsv). exists sv.
    split; [now apply list_elem_of_further | exact Hsv].
Qed.

Lemma embeds_loop_spec (servers : list serverOption) (episodeUrl : string) :
  forall (embeds : list embed) (s : state),
  exists new s',
    embeds_loop servers episodeUrl embeds s = Some (embeds ++ new, s') /\
    (length new <= length servers)%nat /\
    Forall (entry_from servers episodeUrl) new.
Proof.
  induction servers as [|server rest IH]; intros embeds s.
  - exists [], s. simpl. rewrite app_nil_r. repeat split; [lia | constructor].
  - assert (Hskip : forall embeds0 s0, exists new s',
              embeds_loop rest episodeUrl embeds0 s0 = Some (embeds0 ++ new, s') /\
              (length new <= length (server :: rest))%nat /\
              Forall (entry_from (server :: rest) episodeUrl) new).
    { intros embeds0 s0. destruct (IH embeds0 s0) as (new & s' & Heq & Hlen & Hall).
      exists new, s'. split; [exact Heq |]. split; [simpl; lia |].
      eapply Forall_impl; [exact Hall |]. intros e. apply entry_from_later. }
    assert (Hpush : forall e s0,
              entry_from (server :: rest) episodeUrl e ->
              exists new s',
                embeds_loop rest episodeUrl (embeds ++ [e]) s0 = Some (embeds ++ new, s') /\
                (length new <= length (server :: rest))%nat /\
                Forall (entry_from (server :: rest) episodeUrl) new).
    { intros e s0 He. destruct (IH (embeds ++ [e]) s0) as (new & s' & Heq & Hlen & Hall).
      exists (e :: new), s'. split; [now rewrite Heq, <- app_assoc |].
      split; [simpl; lia |]. constructor; [exact He |].
      eapply Forall_impl; [exact Hall |]. intros e0. apply entry_from_later. }
    cbn [embeds_loop].
    destruct (so_directUrl server) as [[|c r]|] eqn:Hdirect.
    2: { apply Hpush. unfold entry_from, direct_embed. cbn.
         split; [reflexivity |]. split; [discriminate |].
         exists server. split; [apply list_elem_of_here | exact Hdirect]. }
    all: destruct (so_trembedUrl server) as [[|c r]|] eqn:Hcand; try apply Hskip.
    all: destruct (extractRealVideoUrl_returns (String c r)
                {| opt_referer := Some episodeUrl; opt_parent := Some episodeUrl |} s)
        as (result & visited' & s1 & _ & Hcall); rewrite Hcall.
    all: destruct result as [[|c' r']|]; try apply Hskip.
    all: destruct (accepted (String c' r') (String c r)) eqn:Hacc; [| apply Hskip].
    all: apply Hpush; unfold entry_from, resolved_embed; cbn;
      unfold accepted in Hacc;
      apply andb_prop in Hacc as [Hacc H3]; apply andb_prop in Hacc as [H1 H2];
      apply negb_true_iff in H1, H2, H3; apply String.eqb_neq in H1;
      (split; [reflexivity |]); (split; [discriminate |]);
      (split; [exists server; split; [apply list_elem_of_here | now split] |]);
      (split; [exact H1 |]); (split; [exact H2 |]); (split; [exact H3 |]);
      exists s, s1; exact Hcall.
Qed.

Lemma extractEmbeds_returns (html episodeUrl : string) (s : state) :
  exists embeds s', extractEmbeds html episodeUrl s = Some (embeds, s').
Proof.
  unfold extractEmbeds.
  destruct (embeds_loop_spec (serverOptions_of html) episodeUrl [] s)
    as (new & s1 & Heq & _). eauto.
Qed.

Lemma includes_trans (a b c : string) :
  includes a b = true -> includes b c = true -> includes a c = true.
Proof.
  rewrite !includes_spec. intros (p1 & q1 & ->) (p2 & q2 & ->).
  exists (p1 +:+ p2), (q2 +:+ q1). now rewrite !append_assoc.
Qed.

Lemma strip_www_includes (h : string) : includes h (strip_www h) = true.
Proof.
  apply includes_spec. unfold strip_www.
  destruct (startsWith h "www.") eqn:Hw.
  - apply startsWith_inv in Hw as [r ->]. exists "www.", EmptyString.
    now rewrite append_nil_r.
  - exists EmptyString, EmptyString. now rewrite append_nil_r.
Qed.

(** With the source site at its default, a URL that does not hold
    toonstream.one is not on the source site. *)
Lemma outside_source_site (u : string) :
  TOONSTREAM_HOST = Some "toonstream.one" ->
  (forall h, URL_hostname u = Some h -> includes u h = true) ->
  includes u "toonstream.one" = false ->
  isToonstreamUrl (Some u) = false.
Proof.
  intros Hhost Hsub Hout. unfold isToonstreamUrl. rewrite Hhost.
  destruct u as [|c r]; [reflexivity |].
  destruct (URL_hostname (String c r)) as [h|] eqn:Hh; [| reflexivity].
  destruct (String.eqb_spec (strip_www h) "toonstream.one") as [Heq|Hne]; [| reflexivity].
  rewrite <- Hout. symmetry. apply (includes_trans _ h); [now apply Hsub |].
  rewrite <- Heq. apply strip_www_includes.
Qed.

(** C7 (as amended). [extractEmbeds] always returns a list. Every entry
    of it carries a non-empty URL, the same as [url] and [real_video],
    that holds neither toonstream.one nor trembed. An entry with an intermediate URL
    stands for a candidate whose resolution returned this URL, not null
    and not the candidate's own URL; an entry without one stands for a
    frame that was external already. So a candidate whose resolution
    fails or returns its own or a same-site URL leaves no entry, and the
    call goes on with the next one. With the source site at its default,
    toonstream.one, and a URL parser whose host names are read off the
    URL, no entry is on the source site. *)
Theorem extractEmbeds_resolved (html episodeUrl : string) (s : state) :
  (exists embeds s', extractEmbeds html episodeUrl s = Some (embeds, s')) /\
  (forall embeds s',
     extractEmbeds html episodeUrl s = Some (embeds, s') ->
     (length embeds <= length (serverOptions_of html))%nat /\
     forall e, e ∈ embeds ->
       entry_from (serverOptions_of html) episodeUrl e /\
       includes (em_url e) "toonstream.one" = false /\
       includes (em_url e) "trembed" = false /\
       (TOONSTREAM_HOST = Some "toonstream.one" ->
        (forall h, URL_hostname (em_url e) = Some h -> includes (em_url e) h = true) ->
        isToonstreamUrl (Some (em_url e)) = false)).
Proof.
  unfold extractEmbeds.
  destruct (embeds_loop_spec (serverOptions_of html) episodeUrl [] s)
    as (new & s1 & Heq & Hlen & Hall).
  simpl in Heq. split; [eauto |].
  intros embeds s' Hrun. rewrite Heq in Hrun. injection Hrun as <- <-.
  split; [exact Hlen |]. intros e He.
  rewrite Forall_forall in Hall. pose proof (Hall e He) as Hentry.
  split; [exact Hentry |].
  assert (Hout : includes (em_url e) "toonstream.one" = false /\
                 includes (em_url e) "trembed" = false).
  { destruct Hentry as (_ & _ & Hfrom). destruct (em_intermediate_url e) as [t|].
    - destruct Hfrom as (_ & _ & H2 & H3 & _). now split.
    - destruct Hfrom as (server & Hin & Hdirect).
      pose proof (serverOptions_direct html) as Hext. rewrite Forall_forall in Hext.
      destruct (Hext server Hin _ Hdirect) as [Hout _]. now apply isExternal_outside. }
  destruct Hout as [H1 H2]. split; [exact H1 |]. split; [exact H2 |].
  intros Hhost Hsub. now apply outside_source_site.
Qed.

End Embeds.

(** C7 (as stated) fails where the source site is a mirror: the test on
    a resolved URL looks for the text toonstream.one, not for the host
    of the configured home URL. On the mirror the frame of the episode
    page is a candidate, its resolution returns a watch page of the
    mirror, and that page is listed although it is on the source site. *)
Lemma extractEmbeds_lists_source_site :
  @TOONSTREAM_HOST Fixture.mirror = Some "toonworld.example" /\
  @serverOptions_of Fixture.mirror Fixture.mirror_html
  = [{| so_name := "Server 1"; so_trembedUrl := Some Fixture.mirror_trembed;
        so_directUrl := None; so_option := Some 1 |}] /\
  Fixture.run Fixture.mirror Fixture.mirror_trembed
  = Some (Some Fixture.mirror_watch, [Fixture.mirror_trembed]) /\
  Fixture.mirror_watch <> Fixture.mirror_trembed /\
  match @extractEmbeds Fixture.mirror Fixture.mirror_html Fixture.mirror_episode initial with
  | Some (embeds, _) => embeds = [Fixture.mirror_entry]
  | None => False
  end /\
  @isToonstreamUrl Fixture.mirror (Some (em_url Fixture.mirror_entry)) = true.
Proof.
  split; [vm_compute; reflexivity |].
  split; [vm_compute; reflexivity |].
  split; [vm_compute; reflexivity |].
  split; [differ |].
  split; vm_compute; reflexivity.
Qed.

Lemma extractEmbeds_resolved_witness :
  @entry_from Fixture.site
    (@serverOptions_of Fixture.site (Fixture.html_of Fixture.episode_2x5))
    Fixture.episode_2x5 Fixture.server_1 /\
  @isToonstreamUrl Fixture.site (Some (em_url Fixture.server_1)) = false.
Proof.
  destruct (@extractEmbeds_resolved Fixture.site (Fixture.html_of Fixture.episode_2x5)
              Fixture.episode_2x5 initial) as [_ Hall].
  destruct (Hall (fst Fixture.embeds_2x5) (snd Fixture.embeds_2x5)) as [_ Hentries].
  - vm_compute. reflexivity.
  - destruct (Hentries Fixture.server_1) as (Hfrom & _ & _ & Hsite).
    + vm_compute. apply list_elem_of_here.
    + split; [exact Hfrom |]. apply Hsite.
      * vm_compute. reflexivity.
      * intros h Hh. vm_compute in Hh. injection Hh as <-. vm_compute. reflexivity.
Defined.

End EmbedFacts.

(** ** [buildEpisodeRecord] *)

Module EpisodeFacts.
Import Js Sync Stated JsFacts FetchFacts ResolveFacts EmbedFacts.

Section Episode.
Context `{Env}.

(** C8 (as amended). When [parseEpisodeCode] finds no code in the episode
    URL and the caller supplies none, [buildEpisodeRecord] does not fail
    on that account: it takes season 1 with the clock, in whole seconds,
    as the episode, and returns a record whenever the page is fetched and
    the series context is resolved. It throws only what the page fetch or
    the series context throws. *)
Theorem buildEpisodeRecord_falls_back (episodeUrl : string) (h : hints)
    (co : collaborators) (s : state) :
  h_code h = None ->
  parseEpisodeCode episodeUrl = None ->
  let code := {| season := 1; episode := co_now co / 1000 |} in
  let page := fetchHtmlWithRetry episodeUrl CONFIG_maxRetries
                (or_default (h_seriesUrl h) homeUrl) s in
  episodeCodeFor (h_code h) episodeUrl (co_now co) = code /\
  match fst page, co_series co with
  | inl episodeHtml, inl ctx =>
      exists embeds s',
        extractEmbeds episodeHtml episodeUrl (snd page) = Some (embeds, s') /\
        buildEpisodeRecord episodeUrl h co s
        = Some (inl {| er_series := ctx; er_code := code;
                       er_title :=
                         or_default (or_else (co_meta_title co) (h_cardTitle h))
                           ("Episode " +:+ Number_toString (co_now co / 1000));
                       er_servers := embeds |}, s')
  | inl _, inr message => buildEpisodeRecord episodeUrl h co s = Some (inr message, snd page)
  | inr message, _ => buildEpisodeRecord episodeUrl h co s = Some (inr message, snd page)
  end.
Proof.
  intros Hhint Hcode code page. subst code page.
  unfold buildEpisodeRecord, episodeCodeFor. rewrite Hhint, Hcode.
  split; [reflexivity |].
  destruct (fetchHtmlWithRetry _ _ _ _) as [[episodeHtml|message] s1]; cbn [fst snd];
    [| now destruct (co_series co)].
  destruct (co_series co) as [ctx|message]; [| reflexivity].
  destruct (extractEmbeds_returns episodeHtml episodeUrl s1) as (embeds & s' & Hrun).
  exists embeds, s'. split; [exact Hrun |]. now rewrite Hrun.
Qed.

End Episode.

Lemma buildEpisodeRecord_falls_back_witness :
  @episodeCodeFor None Fixture.episode_special 1700000000123
  = {| season := 1; episode := 1700000000 |}.
Proof.
  destruct (@buildEpisodeRecord_falls_back Fixture.site Fixture.episode_special
              Fixture.no_hints Fixture.answers initial) as [Hcode _].
  - reflexivity.
  - vm_compute. reflexivity.
  - exact Hcode.
Defined.

(** C8 (as stated) fails: the address of this episode page holds no
    season and episode and no code is supplied, and a record comes out of
    it, with season 1 and the clock as the episode. *)
Lemma buildEpisodeRecord_without_code :
  Stated.matches_slug_pattern "naruto-special" = false /\
  parseEpisodeCode Fixture.episode_special = None /\
  exists record s',
    @buildEpisodeRecord Fixture.site Fixture.episode_special Fixture.no_hints
      Fixture.answers initial = Some (inl record, s') /\
    er_code record = {| season := 1; episode := 1700000000 |} /\
    er_title record = "Episode 1700000000" /\
    er_servers record =
      [{| em_name := "Server 1"; em_url := Fixture.streamtape;
          em_real_video := Fixture.streamtape; em_type := "iframe";
          em_intermediate_url := Some (Fixture.trembed "0"); em_option := Some 1 |}].
Proof.
  split; [reflexivity |]. split; [reflexivity |].
  destruct (@buildEpisodeRecord Fixture.site Fixture.episode_special Fixture.no_hints
              Fixture.answers initial) as [[[record|message] s']|] eqn:Hrun;
    vm_compute in Hrun; try discriminate.
  injection Hrun as <- <-. eexists _, _. split; [reflexivity |].
  repeat split.
Qed.

End EpisodeFacts.

(** ** The Worker's subrequest budget *)

Module WorkerFacts.
Import Js Worker WorkerFixture.

Section Budget.
Context `{Env}.

Lemma grows_refl (s : state) : grows s s.
Proof. exists []. rewrite app_nil_r. simpl. repeat split; lia. Qed.

Lemma grows_trans (a b c : state) : grows a b -> grows b c -> grows a c.
Proof.
  intros (n1 & Hf1 & Hc1 & Hm1) (n2 & Hf2 & Hc2 & Hm2). exists (n1 ++ n2).
  split; [now rewrite Hf2, Hf1, <- app_assoc |].
  split; [rewrite Hc2, Hc1, length_app; lia | auto].
Qed.

Lemma grows_saveProgress (s : state) (i : nat) : grows s (saveProgress i s).
Proof. exists []. rewrite app_nil_r. simpl. repeat split; lia. Qed.

Lemma fetchHtml_counts (url : string) (s : state) :
  (subrequestCount s < MAX_SUBREQUESTS ->
   snd (fetchHtml url s) = {| subrequestCount := subrequestCount s + 1;
                              fetched := fetched s ++ [url];
                              progress := progress s |}) /\
  (MAX_SUBREQUESTS <= subrequestCount s ->
   fetchHtml url s = (inr "Subrequest limit reached", s)).
Proof.
  unfold fetchHtml, canFetch.
  destruct (Z.ltb_spec (subrequestCount s) MAX_SUBREQUESTS) as [Hlt|Hge]; simpl.
  - split; [intros _ | lia].
    destruct (fetch _ url) as [m|ok st text]; [reflexivity |]. now destruct ok.
  - split; [lia | reflexivity].
Qed.

Lemma fetchHtml_grows (url : string) (s : state) : grows s (snd (fetchHtml url s)).
Proof.
  destruct (fetchHtml_counts url s) as [Hok Hcap].
  destruct (Z.lt_ge_cases (subrequestCount s) MAX_SUBREQUESTS) as [Hlt|Hge].
  - rewrite (Hok Hlt). exists [url]. simpl. repeat split; lia.
  - rewrite (Hcap Hge). apply grows_refl.
Qed.

(** [resolveVideoUrl] returns with fuel for the depths that are left. *)
Lemma resolveVideoUrl_grows (fuel : nat) :
  forall (trembedUrl : string) (depth : Z) (s : state),
    (Z.to_nat (4 - depth) < fuel)%nat ->
    exists r s', resolveVideoUrl fuel trembedUrl depth s = Some (r, s') /\ grows s s'.
Proof.
  induction fuel as [|fuel IH]; intros trembedUrl depth s Hfuel; [lia |].
  cbn [resolveVideoUrl].
  destruct (Z.ltb_spec 3 depth) as [Hdeep|Hdepth]; simpl orb.
  { exists None, s. split; [reflexivity | apply grows_refl]. }
  destruct (negb (canFetch s)).
  { exists None, s. split; [reflexivity | apply grows_refl]. }
  pose proof (fetchHtml_grows trembedUrl s) as Hpage.
  destruct (fetchHtml trembedUrl s) as [[html|message] s1]; simpl in Hpage.
  2: { exists None, s1. split; [reflexivity | exact Hpage]. }
  revert Hpage. generalize s1. clear s1.
  induction (iframeMatches html) as [|m ms IHms]; intros s1 Hs1.
  - eexists _, s1. split; [reflexivity | exact Hs1].
  - destruct (is_external (with_scheme m)).
    { eexists _, s1. split; [reflexivity | exact Hs1]. }
    destruct (includes (with_scheme m) "trembed" || includes (with_scheme m) "trid=");
      [| now apply IHms].
    destruct (IH (with_scheme m) (depth + 1) s1) as (r & s2 & Hr & Hs2); [lia |].
    rewrite Hr. pose proof (grows_trans _ _ _ Hs1 Hs2) as Hs12.
    destruct r as [[|c r]|]; try now apply IHms.
    eexists _, s2. split; [reflexivity | exact Hs12].
Qed.

Lemma servers_loop_grows (trembedUrls : list string) :
  forall s, exists r s', servers_loop trembedUrls s = Some (r, s') /\ grows s s'.
Proof.
  induction trembedUrls as [|u rest IH]; intros s; cbn [servers_loop].
  - exists None, s. split; [reflexivity | apply grows_refl].
  - destruct (negb (canFetch s)).
    { exists None, s. split; [reflexivity | apply grows_refl]. }
    destruct (resolveVideoUrl_grows resolve_fuel u 0 s) as (r & s1 & Hr & Hs1);
      [unfold resolve_fuel; simpl; lia |].
    rewrite Hr. destruct r as [[|c r]|].
    + destruct (IH s1) as (r' & s2 & Hr' & Hs2). exists r', s2.
      split; [exact Hr' | now apply (grows_trans _ s1)].
    + eexists _, s1. split; [reflexivity | exact Hs1].
    + destruct (IH s1) as (r' & s2 & Hr' & Hs2). exists r', s2.
      split; [exact Hr' | now apply (grows_trans _ s1)].
Qed.

Lemma episodes_loop_grows (eps : list episode) :
  forall (i : nat) (c : counters) (s : state),
  exists c' s', episodes_loop eps i c s = Some (c', s') /\ grows s s'.
Proof.
  induction eps as [|ep rest IH]; intros i c s; cbn [episodes_loop].
  - exists c, s. split; [reflexivity | apply grows_refl].
  - destruct (negb (canFetch s)).
    { eexists _, _. split; [reflexivity | apply grows_saveProgress]. }
    destruct (db_existing i); [apply IH |].
    pose proof (fetchHtml_grows (ep_url ep) s) as Hpage.
    destruct (fetchHtml (ep_url ep) s) as [[html|message] s1]; simpl in Hpage.
    2: { destruct (IH (S i) {| syncedCount := syncedCount c; skippedCount := skippedCount c;
                               processedIndex := i |} s1) as (c' & s2 & Hr & Hs2).
         exists c', s2. split; [exact Hr | now apply (grows_trans _ s1)]. }
    assert (Hnext : forall c0 s2, grows s s2 ->
              exists c' s', episodes_loop rest (S i) c0 s2 = Some (c', s') /\ grows s s').
    { intros c0 s2 Hs2. destruct (IH (S i) c0 s2) as (c' & s3 & Hr & Hs3).
      exists c', s3. split; [exact Hr | now apply (grows_trans _ s2)]. }
    destruct (extractTrembedUrls html) as [|u us]; [now apply Hnext |].
    destruct (servers_loop_grows (u :: us) s1) as (r & s2 & Hr & Hs2). rewrite Hr.
    pose proof (grows_trans _ _ _ Hpage Hs2) as Hs12.
    destruct r as [videoUrl|]; [| now apply Hnext].
    destruct (db_upsert_error i); now apply Hnext.
Qed.

End Budget.

(** On the busy homepage the run stops after the homepage and twenty-two
    episodes, and leaves index 22 to resume from. *)
Example busy_run_stops_at_cap :
  match @runSync WorkerFixture.busy WorkerFixture.fresh with
  | Some (r, s') => Some (synced r, length (fetched s'), progress s')
  | None => None
  end = Some (22, 45%nat, Some 22%nat).
Proof. vm_compute. reflexivity. Qed.

(** *** A run among the other tasks of its isolate *)

Section Shared.
Context `{Env}.
Variable others : Isolate.point -> state -> state.









End Shared.

(** *** The run of an isolate with no other task *)

Section Alone.
Context `{Env}.






End Alone.

(** *** The cap *)

Section Cap.
Context `{Env}.



End Cap.



End WorkerFacts.

(** ** Keys and addresses *)

Module AddressFacts.
Import Js Sync Stated JsFacts CodeFacts LinkFacts Addresses AddressTerms.

(** *** Printing and reading back a number *)

Lemma parseInt_acc_uint (d : Decimal.uint) :
  forall p : positive,
    parseInt_acc (Z.pos p) (NilEmpty.string_of_uint d) = Z.pos (Pos.of_uint_acc d p).
Proof.
  induction d; intros p; cbn [NilEmpty.string_of_uint parseInt_acc Pos.of_uint_acc];
    [reflexivity | ..];
    match goal with
    | |- parseInt_acc ?a _ = Z.pos (Pos.of_uint_acc _ ?q) =>
        replace a with (Z.pos q) by (unfold digit_value; simpl; lia)
    end; apply IHd.
Qed.

Lemma parseInt_digits_uint (d : Decimal.uint) :
  parseInt_digits (NilEmpty.string_of_uint d) = Z.of_N (Pos.of_uint d).
Proof.
  unfold parseInt_digits.
  induction d; cbn [NilEmpty.string_of_uint parseInt_acc Pos.of_uint];
    [reflexivity | exact IHd | ..];
    match goal with
    | |- parseInt_acc ?a _ = Z.of_N (N.pos (Pos.of_uint_acc _ ?q)) =>
        change a with (Z.pos q)
    end; apply parseInt_acc_uint.
Qed.

Lemma all_digits_uint (d : Decimal.uint) : all_digits (NilEmpty.string_of_uint d) = true.
Proof. induction d; simpl; auto. Qed.

(** A non-negative integer prints as a non-empty run of digits that
    reads back as the integer. *)
Lemma Number_toString_digits (z : Z) :
  0 <= z ->
  all_digits (Number_toString z) = true /\
  Number_toString z <> EmptyString /\
  parseInt_digits (Number_toString z) = z.
Proof.
  intros Hz. unfold Number_toString.
  pose proof (DecimalZ.of_to z) as Hback.
  destruct (Z.to_int z) as [d|d] eqn:Hd.
  - cbn [NilEmpty.string_of_int]. cbn [Z.of_int] in Hback. unfold Z.of_uint in Hback.
    assert (Hread : parseInt_digits (NilEmpty.string_of_uint d) = z)
      by (now rewrite parseInt_digits_uint).
    split; [apply all_digits_uint |]. split; [| exact Hread].
    intros Hempty. destruct d; try discriminate Hempty.
    cbn in Hread. subst z. vm_compute in Hd. discriminate Hd.
  - destruct z; cbn in Hd; try discriminate. lia.
Qed.

(** *** The search for a code in a text followed by another *)

Lemma span_digits_before (u w : string) (c : ascii) :
  is_digit c = false ->
  span_digits (u +:+ String c w)
  = (fst (span_digits u), snd (span_digits u) +:+ String c w).
Proof.
  intros Hc. induction u as [|a u IH].
  - rewrite append_nil_l. simpl. now rewrite Hc.
  - rewrite append_cons. cbn [span_digits]. destruct (is_digit a); [| reflexivity].
    rewrite IH. now destruct (span_digits u).
Qed.

Lemma match_code_here_before (u w : string) (c : ascii) :
  separator c -> match_code_here (u +:+ String c w) = match_code_here u.
Proof.
  intros [Hd Hx]. unfold match_code_here. rewrite (span_digits_before u w c Hd).
  destruct (span_digits u) as [d r]. cbn [fst snd].
  destruct d as [|a d]; [reflexivity |].
  destruct r as [|b r].
  - rewrite append_nil_l. now rewrite Hx.
  - rewrite append_cons. destruct (is_x b); [| reflexivity].
    rewrite (span_digits_before r w c Hd). now destruct (span_digits r) as [[|e d2] r2].
Qed.

Lemma search_code_before (u w : string) (c : ascii) :
  separator c ->
  search_code (u +:+ String c w)
  = match search_code u with
    | Some m => Some m
    | None => search_code w
    end.
Proof.
  intros Hc. induction u as [|a u IH].
  - rewrite append_nil_l. cbn [search_code].
    replace (match_code_here (String c w)) with (@None (string * string)); [reflexivity |].
    destruct Hc as [Hd _]. unfold match_code_here. simpl. now rewrite Hd.
  - rewrite append_cons. cbn [search_code]. rewrite <- append_cons.
    rewrite (match_code_here_before _ w c Hc).
    destruct (match_code_here (String a u)); [reflexivity | exact IH].
Qed.

Section Built.
Context `{Env}.

(** X1. [parseEpisodeCode] reads back the season and the episode that
    [buildEpisodeUrl] wrote, whenever they are safe integers that are not
    negative (so that they print as their digits and are read back
    exactly) and the home URL and the slug hold no code of their own. *)
Theorem parseEpisodeCode_buildEpisodeUrl (seriesSlug : string) (season episode : Z) :
  seriesSlug <> EmptyString ->
  0 <= season <= MAX_SAFE_INTEGER ->
  0 <= episode <= MAX_SAFE_INTEGER ->
  parseEpisodeCode (homeUrl +:+ "episode/" +:+ seriesSlug) = None ->
  exists url,
    buildEpisodeUrl seriesSlug season episode = Some url /\
    parseEpisodeCode url = Some {| Sync.season := season; Sync.episode := episode |}.
Proof.
  intros Hslug [Hs _] [He _] Hnone.
  destruct (Number_toString_digits season Hs) as (Hsd & Hsn & Hsv).
  destruct (Number_toString_digits episode He) as (Hed & Hen & Hev).
  unfold buildEpisodeUrl. destruct seriesSlug as [|a slug]; [congruence |].
  eexists. split; [reflexivity |].
  assert (Hnone' : search_code (homeUrl +:+ "episode/" +:+ String a slug) = None).
  { unfold parseEpisodeCode in Hnone.
    now destruct (search_code (homeUrl +:+ "episode/" +:+ String a slug)) as [[m1 m2]|]. }
  unfold parseEpisodeCode.
  replace (homeUrl +:+ "episode/" +:+ String a slug +:+ "-" +:+ Number_toString season
           +:+ "x" +:+ Number_toString episode +:+ "/")
    with ((homeUrl +:+ "episode/" +:+ String a slug) +:+
          String "-" (Number_toString season +:+ String "x" (Number_toString episode +:+ "/")))
    by (now rewrite !append_assoc).
  rewrite search_code_before by (split; reflexivity). rewrite Hnone'.
  set (tail := Number_toString season +:+ String "x" (Number_toString episode +:+ "/")).
  assert (Htail : match_code_here tail
                  = Some (Number_toString season,
                          Number_toString episode +:+ fst (span_digits "/"))).
  { apply (match_code_here_complete tail _ _ "/" "x"%char).
    repeat split; try assumption. }
  cbn [span_digits fst] in Htail. simpl fst in Htail. rewrite append_nil_r in Htail.
  destruct tail as [|t0 tail']; cbn [search_code]; rewrite Htail; now rewrite Hsv, Hev.
Qed.

End Built.
Lemma parseEpisodeCode_buildEpisodeUrl_witness :
  exists url,
    buildEpisodeUrl (H := Fixture.site) "naruto" 2 13 = Some url /\
    parseEpisodeCode url = Some {| Sync.season := 2; Sync.episode := 13 |}.
Proof.
  apply (parseEpisodeCode_buildEpisodeUrl (H := Fixture.site) "naruto" 2 13);
    [discriminate | unfold MAX_SAFE_INTEGER; lia | unfold MAX_SAFE_INTEGER; lia
    | vm_compute; reflexivity].
Defined.

(** *** Keys *)

Lemma lacks_append (c : ascii) (a b : string) :
  lacks c (a +:+ b) = lacks c a && lacks c b.
Proof.
  induction a as [|u a IH]; [now rewrite append_nil_l |].
  rewrite append_cons. simpl. rewrite IH. now rewrite andb_assoc.
Qed.

Lemma lacks_holds (c : ascii) (a b : string) : lacks c (a +:+ String c b) = false.
Proof.
  rewrite lacks_append. simpl. rewrite Ascii.eqb_refl. simpl. apply andb_false_r.
Qed.

Lemma split_at_last (c : ascii) (a b a' b' : string) :
  lacks c b = true -> lacks c b' = true ->
  a +:+ String c b = a' +:+ String c b' -> a = a' /\ b = b'.
Proof.
  revert a'. induction a as [|u a IH]; intros [|v a'] Hb Hb' Heq;
    rewrite ?append_cons, ?append_nil_l in Heq.
  - injection Heq as ->. now split.
  - injection Heq as <- ->. now rewrite lacks_holds in Hb.
  - injection Heq as -> <-. now rewrite lacks_holds in Hb'.
  - injection Heq as -> Heq. destruct (IH a' Hb Hb' Heq) as [-> ->]. now split.
Qed.

Lemma digit_differs (c k : ascii) :
  is_digit c = false -> is_digit k = true -> Ascii.eqb k c = false.
Proof.
  intros Hc Hk. destruct (Ascii.eqb_spec k c) as [->|]; congruence.
Qed.

Lemma uint_lacks (c : ascii) (d : Decimal.uint) :
  is_digit c = false -> lacks c (NilEmpty.string_of_uint d) = true.
Proof.
  intros Hc. induction d; cbn [NilEmpty.string_of_uint lacks]; [reflexivity | ..];
    rewrite digit_differs by (assumption || reflexivity); exact IHd.
Qed.

Lemma Number_toString_lacks (c : ascii) (z : Z) :
  is_digit c = false -> c <> "-"%char -> lacks c (Number_toString z) = true.
Proof.
  intros Hc Hdash. unfold Number_toString.
  destruct (Z.to_int z); cbn [NilEmpty.string_of_int lacks]; [now apply uint_lacks |].
  destruct (Ascii.eqb_spec "-"%char c) as [<-|]; [congruence |].
  now apply uint_lacks.
Qed.

(** X2. The keys of the processed-episode set and of the set of stored
    episodes tell episodes apart: equal keys come from the same slug,
    season and episode, whatever the slug holds. *)
Theorem episode_keys_injective :
  (forall slug slug' s e s' e',
      makeEpisodeKey slug s e = makeEpisodeKey slug' s' e' ->
      slug = slug' /\ s = s' /\ e = e') /\
  (forall s e s' e',
      makeSeasonEpisodeKey s e = makeSeasonEpisodeKey s' e' -> s = s' /\ e = e').
Proof.
  assert (Hx : forall z, lacks "x" (Number_toString z) = true)
    by (intros z; now apply Number_toString_lacks).
  assert (Hc : forall z, lacks ":" (Number_toString z) = true)
    by (intros z; now apply Number_toString_lacks).
  split.
  - intros slug slug' s e s' e'. unfold makeEpisodeKey. intros Heq.
    change (slug +:+ "::" +:+ Number_toString s +:+ "x" +:+ Number_toString e)
      with (slug +:+ "::" +:+ Number_toString s +:+ String "x" (Number_toString e)) in Heq.
    change (slug' +:+ "::" +:+ Number_toString s' +:+ "x" +:+ Number_toString e')
      with (slug' +:+ "::" +:+ Number_toString s' +:+ String "x" (Number_toString e')) in Heq.
    rewrite <- !append_assoc in Heq.
    apply split_at_last in Heq as [Heq He]; [| apply Hx ..].
    change "::" with (String ":" (String ":" EmptyString)) in Heq.
    replace ((slug +:+ "::") +:+ Number_toString s)
      with ((slug +:+ ":") +:+ String ":" (Number_toString s)) in Heq
      by (now rewrite !append_assoc).
    replace ((slug' +:+ "::") +:+ Number_toString s')
      with ((slug' +:+ ":") +:+ String ":" (Number_toString s')) in Heq
      by (now rewrite !append_assoc).
    apply split_at_last in Heq as [Heq Hs]; [| apply Hc ..].
    apply split_at_last in Heq as [Heq _]; [| reflexivity ..].
    repeat split; [exact Heq | ..]; now apply Number_toString_inj.
  - intros s e s' e'. unfold makeSeasonEpisodeKey. intros Heq.
    change (Number_toString s +:+ "x" +:+ Number_toString e)
      with (Number_toString s +:+ String "x" (Number_toString e)) in Heq.
    change (Number_toString s' +:+ "x" +:+ Number_toString e')
      with (Number_toString s' +:+ String "x" (Number_toString e')) in Heq.
    apply split_at_last in Heq as [Hs He]; [| apply Hx ..].
    split; now apply Number_toString_inj.
Qed.

(** *** Paths *)

Lemma all_digits_broken (a b : string) (c : ascii) :
  is_digit c = false -> all_digits (a +:+ String c b) = false.
Proof.
  intros Hc. induction a as [|u a IH].
  - rewrite append_nil_l. simpl. now rewrite Hc.
  - rewrite append_cons. simpl. rewrite IH. apply andb_false_r.
Qed.

Lemma is_code_tail_code (d1 d2 : string) (c : ascii) :
  all_digits d1 = true -> d1 <> EmptyString -> is_x c = true ->
  all_digits d2 = true -> d2 <> EmptyString ->
  is_code_tail (d1 +:+ String c d2) = true.
Proof.
  intros H1 N1 Hx H2 N2. unfold is_code_tail.
  rewrite span_digits_append by exact H1.
  assert (Hc : is_digit c = false) by (unfold is_x in Hx; now destruct c as [[] [] [] [] [] [] [] []]).
  cbn [span_digits]. rewrite Hc. cbn [fst snd]. rewrite append_nil_r.
  destruct d1 as [|a d1]; [congruence |].
  destruct d2 as [|b d2]; [congruence |].
  now rewrite Hx, H2.
Qed.

Lemma is_code_tail_dash (t w : string) : is_code_tail (t +:+ String "-" w) = false.
Proof.
  unfold is_code_tail. rewrite (span_digits_before t w "-") by reflexivity.
  destruct (span_digits t) as [d r]. cbn [fst snd].
  destruct d as [|a d]; [reflexivity |].
  destruct r as [|c r].
  - rewrite append_nil_l. now destruct w.
  - rewrite append_cons. destruct r as [|b r].
    + rewrite append_nil_l. apply andb_false_r.
    + rewrite append_cons, <- append_cons.
      rewrite all_digits_broken by reflexivity. apply andb_false_r.
Qed.

(** The replacement takes a final code off a slug, whatever the slug
    holds before it. *)
Lemma strip_code_suffix_code (slug d1 d2 : string) (c : ascii) :
  all_digits d1 = true -> d1 <> EmptyString -> is_x c = true ->
  all_digits d2 = true -> d2 <> EmptyString ->
  strip_code_suffix (slug +:+ String "-" (d1 +:+ String c d2)) = slug.
Proof.
  intros H1 N1 Hx H2 N2. induction slug as [|a slug IH].
  - rewrite append_nil_l. cbn [strip_code_suffix].
    now rewrite is_code_tail_code.
  - rewrite append_cons. cbn [strip_code_suffix].
    rewrite is_code_tail_dash, andb_false_r. now rewrite IH.
Qed.

Lemma keep_app (cur : string) (rest more : list string) :
  keep cur (rest ++ more) = keep cur rest ++ more.
Proof. now destruct cur. Qed.

Lemma pieces_append (a b : string) :
  pieces (a +:+ String "/" b) = (fst (pieces a), snd (pieces a) ++ path_parts b).
Proof.
  induction a as [|c a IH].
  - rewrite append_nil_l. cbn [pieces]. unfold path_parts.
    destruct (pieces b) as [cur rest]. reflexivity.
  - rewrite append_cons. cbn [pieces]. rewrite IH.
    destruct (pieces a) as [cur rest]. cbn [fst snd].
    destruct (Ascii.eqb c "/"); cbn [fst snd]; [| reflexivity].
    now rewrite keep_app.
Qed.

(** The parts of a path cut at a slash are the parts of what is before
    and of what is after. *)
Lemma path_parts_append (a b : string) :
  path_parts (a +:+ String "/" b) = path_parts a ++ path_parts b.
Proof.
  unfold path_parts at 1 2. rewrite pieces_append.
  destruct (pieces a) as [cur rest]. cbn [fst snd]. apply keep_app.
Qed.

Lemma path_parts_one (a : string) :
  lacks "/" a = true -> a <> EmptyString -> path_parts a = [a].
Proof.
  intros Ha Hne.
  assert (Hp : pieces a = (a, [])).
  { clear Hne. induction a as [|c a IH]; [reflexivity |].
    cbn [pieces]. cbn [lacks] in Ha. apply andb_prop in Ha as [Hc Ha].
    rewrite (IH Ha). now destruct (Ascii.eqb c "/"). }
  unfold path_parts. rewrite Hp. now destruct a.
Qed.

Lemma path_parts_segment (a t : string) :
  lacks "/" a = true -> a <> EmptyString ->
  path_parts (a +:+ String "/" t) = a :: path_parts t.
Proof.
  intros Ha Hne. now rewrite path_parts_append, path_parts_one.
Qed.

Lemma path_parts_slash (t : string) : path_parts (String "/" t) = path_parts t.
Proof.
  rewrite <- (append_nil_l (String "/" t)). now rewrite path_parts_append.
Qed.

Lemma path_parts_nonempty (s : string) : Forall (fun part => part <> EmptyString) (path_parts s).
Proof.
  assert (Hkeep : forall cur rest,
             Forall (fun part => part <> EmptyString) rest ->
             Forall (fun part => part <> EmptyString) (keep cur rest)).
  { intros [|c cur] rest Hrest; [exact Hrest |]. now constructor. }
  assert (Hpieces : Forall (fun part => part <> EmptyString) (snd (pieces s))).
  { induction s as [|c s IH]; [constructor |].
    cbn [pieces]. destruct (pieces s) as [cur rest]. cbn [snd] in IH.
    destruct (Ascii.eqb c "/"); cbn [snd]; [now apply Hkeep | exact IH]. }
  unfold path_parts. destruct (pieces s) as [cur rest]. now apply Hkeep.
Qed.

Section Paths.
Context `{Env} `{UrlPath}.

(** X3. For an episode address whose path is a first segment followed by
    the segment [slug-SxE], [deriveSeriesUrlFromEpisode] is the series
    address that [buildSeriesUrlFromSlug] makes of the slug. *)
Theorem deriveSeriesUrlFromEpisode_series (episodeUrl first slug rest : string)
    (season episode : Z) :
  first <> EmptyString -> lacks "/" first = true ->
  slug <> EmptyString -> lacks "/" slug = true ->
  0 <= season -> 0 <= episode ->
  URL_pathname episodeUrl
  = Some ("/" +:+ first +:+ "/" +:+ slug +:+ "-" +:+ Number_toString season
          +:+ "x" +:+ Number_toString episode +:+ "/" +:+ rest) ->
  deriveSeriesUrlFromEpisode episodeUrl = buildSeriesUrlFromSlug slug /\
  buildSeriesUrlFromSlug slug <> None.
Proof.
  intros Nf Hf Ns Hs Hse Hep Hpath.
  destruct (Number_toString_digits season Hse) as (Hsd & Hsn & _).
  destruct (Number_toString_digits episode Hep) as (Hed & Hen & _).
  set (code := Number_toString season +:+ String "x" (Number_toString episode)).
  set (segment := slug +:+ String "-" code).
  assert (Hparts : path_parts ("/" +:+ first +:+ "/" +:+ slug +:+ "-" +:+ Number_toString season
                               +:+ "x" +:+ Number_toString episode +:+ "/" +:+ rest)
                   = first :: segment :: path_parts rest).
  { replace ("/" +:+ first +:+ "/" +:+ slug +:+ "-" +:+ Number_toString season
             +:+ "x" +:+ Number_toString episode +:+ "/" +:+ rest)
      with (String "/" (first +:+ String "/" (segment +:+ String "/" rest))).
    2:{ unfold segment, code.
        repeat (rewrite append_assoc || rewrite append_cons). reflexivity. }
    rewrite path_parts_slash, path_parts_segment by assumption.
    rewrite path_parts_segment; [reflexivity | |].
    - unfold segment, code. rewrite lacks_append. cbn [lacks].
      rewrite lacks_append. cbn [lacks].
      rewrite Hs, !Number_toString_lacks by (reflexivity || discriminate). reflexivity.
    - unfold segment. destruct slug; [congruence |]. rewrite append_cons. discriminate. }
  assert (Hstrip : strip_code_suffix segment = slug)
    by (apply strip_code_suffix_code; (assumption || reflexivity)).
  unfold deriveSeriesUrlFromEpisode, buildSeriesUrlFromSlug.
  rewrite Hpath, Hparts. cbn zeta. cbn match. rewrite Hstrip.
  destruct slug as [|a slug]; [congruence |].
  assert (Hseg : exists b r, segment = String b r)
    by (unfold segment; rewrite append_cons; eauto).
  destruct Hseg as (b & r & ->). split; [reflexivity | discriminate].
Qed.

(** X4. [extractSeriesSlugFromUrl] gives the last segment of the path,
    and never an empty slug. *)
Theorem extractSeriesSlugFromUrl_last_segment (seriesUrl pathname : string) :
  URL_pathname seriesUrl = Some pathname ->
  (forall before slug,
      lacks "/" slug = true -> slug <> EmptyString ->
      (pathname = before +:+ "/" +:+ slug \/ pathname = before +:+ "/" +:+ slug +:+ "/") ->
      extractSeriesSlugFromUrl seriesUrl = Some slug) /\
  extractSeriesSlugFromUrl seriesUrl <> Some EmptyString.
Proof.
  intros Hpath. unfold extractSeriesSlugFromUrl. rewrite Hpath. split.
  - intros before slug Hs Ns [-> | ->].
    + change (before +:+ "/" +:+ slug) with (before +:+ String "/" slug).
      rewrite path_parts_append, (path_parts_one slug) by assumption. apply last_snoc.
    + change (before +:+ "/" +:+ slug +:+ "/")
        with (before +:+ String "/" (slug +:+ String "/" EmptyString)).
      rewrite path_parts_append, (path_parts_segment slug) by assumption. apply last_snoc.
  - intros Hlast. apply last_Some in Hlast as [l Hl].
    pose proof (path_parts_nonempty pathname) as Hall.
    rewrite Hl in Hall. apply Forall_app in Hall as [_ Hall].
    inversion Hall as [|x l' Hx _]; subst. now apply Hx.
Qed.

End Paths.

Lemma deriveSeriesUrlFromEpisode_series_witness :
  deriveSeriesUrlFromEpisode (H := Fixture.site) (H0 := paths)
    "https://toonstream.one/episode/naruto-2x13/"
  = buildSeriesUrlFromSlug (H := Fixture.site) "naruto" /\
  buildSeriesUrlFromSlug (H := Fixture.site) "naruto" <> None.
Proof.
  apply (deriveSeriesUrlFromEpisode_series (H := Fixture.site) (H0 := paths)
           "https://toonstream.one/episode/naruto-2x13/" "episode" "naruto" EmptyString 2 13);
    try discriminate; try lia; reflexivity.
Defined.

Lemma extractSeriesSlugFromUrl_last_segment_witness :
  extractSeriesSlugFromUrl (H0 := paths) "https://toonstream.one/series/naruto/" = Some "naruto".
Proof.
  destruct (extractSeriesSlugFromUrl_last_segment (H0 := paths)
              "https://toonstream.one/series/naruto/" "/series/naruto/" eq_refl)
    as [Hslug _].
  apply (Hslug "/series" "naruto"); [reflexivity | discriminate | right; reflexivity].
Defined.

Section Composed.
Context `{Env} `{UrlPath}.

(** X5. When the home URL has a path segment of its own, as the default
    home URL has, the second segment of an address made by
    [buildEpisodeUrl] is [episode], and [deriveSeriesUrlFromEpisode]
    makes the series address of that word, not of the slug. *)
Theorem deriveSeriesUrlFromEpisode_of_built (home seriesSlug url : string)
    (season episode : Z) :
  home <> EmptyString -> lacks "/" home = true ->
  buildEpisodeUrl seriesSlug season episode = Some url ->
  URL_pathname url
  = Some ("/" +:+ home +:+ "/episode/" +:+ seriesSlug +:+ "-" +:+ Number_toString season
          +:+ "x" +:+ Number_toString episode +:+ "/") ->
  deriveSeriesUrlFromEpisode url = Some (homeUrl +:+ "series/episode/").
Proof.
  intros Nh Hh _ Hpath.
  unfold deriveSeriesUrlFromEpisode. rewrite Hpath.
  set (tail := seriesSlug +:+ "-" +:+ Number_toString season +:+ "x"
               +:+ Number_toString episode +:+ "/").
  change ("/" +:+ home +:+ "/episode/" +:+ tail)
    with (String "/" (home +:+ String "/" ("episode" +:+ String "/" tail))).
  rewrite path_parts_slash, (path_parts_segment home) by assumption.
  rewrite (path_parts_segment "episode") by (reflexivity || discriminate).
  reflexivity.
Qed.

End Composed.

Lemma deriveSeriesUrlFromEpisode_of_built_witness :
  deriveSeriesUrlFromEpisode (H := Fixture.site) (H0 := paths)
    "https://toonstream.one/home/episode/naruto-2x13/"
  = Some "https://toonstream.one/home/series/episode/".
Proof.
  apply (deriveSeriesUrlFromEpisode_of_built (H := Fixture.site) (H0 := paths)
           "home" "naruto" "https://toonstream.one/home/episode/naruto-2x13/" 2 13);
    [discriminate | reflexivity | reflexivity | reflexivity].
Defined.

End AddressFacts.

(** ** Proxies of [fetchHtmlWithRetry] *)

Module ProxyFacts.
Import Js Sync Stated JsFacts FetchFacts FetchTerms.

Lemma marked_app (a b : list event) : marked (a ++ b) = marked a ++ marked b.
Proof.
  induction a as [|e a IH]; simpl; [reflexivity |]. destruct e; simpl; now rewrite IH.
Qed.

Lemma is_connection_error_code (e : js_error) :
  is_connection_error e = true <-> connection_code e.
Proof.
  unfold is_connection_error, connection_code. destruct (err_code e) as [c|].
  - rewrite orb_true_iff, !String.eqb_eq. split.
    + intros [-> | ->]; [now left | now right].
    + intros [[= ->] | [= ->]]; [now left | now right].
  - split; [discriminate | intros [|]; discriminate].
Qed.

Section Proxies.
Context `{Env}.

Lemma retry_loop_marks (url : string) (todo : nat) :
  forall (attempt : Z) (lastErr : option js_error) (s : state),
  exists (n : nat) (new : list event),
    trace (snd (retry_loop todo attempt url lastErr s)) = trace s ++ new /\
    requests (snd (retry_loop todo attempt url lastErr s)) = (requests s + n)%nat /\
    forall p,
      p ∈ marked new <->
      p <> EmptyString /\
      exists j e,
        (j < n)%nat /\ getNextProxy (requests s + j) = Some p /\
        axios_get (network (requests s + j) url) = inr e /\ connection_code e.
Proof.
  induction todo as [|todo IH]; intros attempt lastErr s.
  - exists 0%nat, []. cbn [retry_loop snd]. rewrite app_nil_r, Nat.add_0_r.
    split; [reflexivity |]. split; [reflexivity |]. intros p. cbn [marked].
    split; [intros Hin; now apply elem_of_nil in Hin |].
    intros (_ & j & e & Hj & _). lia.
  - cbn [retry_loop].
    destruct (axios_get (network (requests s) url)) as [data|err] eqn:Hout.
    + exists 1%nat, [EvRequest url attempt (getNextProxy (requests s))].
      cbn [snd tick emit trace requests marked]. rewrite Nat.add_1_r.
      split; [reflexivity |]. split; [reflexivity |]. intros p.
      split; [intros Hin; now apply elem_of_nil in Hin |].
      intros (_ & j & e & Hj & _ & He & _).
      assert (j = 0)%nat as -> by lia. rewrite Nat.add_0_r in He. congruence.
    + set (s1 := tick (emit (EvRequest url attempt (getNextProxy (requests s))) s)).
      set (s2 := match getNextProxy (requests s) with
                 | Some (String c r) =>
                     if is_connection_error err then emit (EvProxyFailed (String c r)) s1
                     else s1
                 | _ => s1
                 end).
      set (s3 := emit (EvDelay (500 * attempt)) s2).
      assert (Hs2 : exists mid, trace s2 = trace s1 ++ mid /\ requests s2 = requests s1 /\
                      forall p, p ∈ marked mid <->
                                p <> EmptyString /\
                                getNextProxy (requests s) = Some p /\ connection_code err).
      { subst s2. pose proof (is_connection_error_code err) as Hcc.
        destruct (getNextProxy (requests s)) as [[|c r]|];
          [| destruct (is_connection_error err) |].
        - exists []. rewrite app_nil_r. split; [reflexivity |]. split; [reflexivity |].
          intros p. cbn [marked]. split; [intros Hin; now apply elem_of_nil in Hin |].
          intros (Hne & [= <-] & _). now contradiction Hne.
        - exists [EvProxyFailed (String c r)]. split; [reflexivity |]. split; [reflexivity |].
          intros p. cbn [marked]. split.
          + intros Hin. apply list_elem_of_singleton in Hin. subst.
            split; [discriminate |]. split; [reflexivity | now apply Hcc].
          + intros (_ & [= <-] & _). apply list_elem_of_here.
        - exists []. rewrite app_nil_r. split; [reflexivity |]. split; [reflexivity |].
          intros p. cbn [marked]. split; [intros Hin; now apply elem_of_nil in Hin |].
          intros (_ & _ & Hc). apply Hcc in Hc. discriminate.
        - exists []. rewrite app_nil_r. split; [reflexivity |]. split; [reflexivity |].
          intros p. cbn [marked]. split; [intros Hin; now apply elem_of_nil in Hin |].
          intros (_ & Hf & _). discriminate. }
      destruct Hs2 as (mid & Hmid & Hreq2 & Hmarked).
      destruct (IH (attempt + 1) (Some err) s3) as (n & new & Htr & Hreq & Hnew).
      assert (Hreq3 : requests s3 = S (requests s)) by (subst s3; simpl; now rewrite Hreq2).
      assert (Htr3 : trace s3 = trace s ++ EvRequest url attempt (getNextProxy (requests s))
                                  :: mid ++ [EvDelay (500 * attempt)]).
      { subst s3. simpl. rewrite Hmid. subst s1. simpl. now rewrite <- !app_assoc. }
      assert (Hidx : forall j, (requests s3 + j = requests s + S j)%nat) by (intros; lia).
      exists (S n), (EvRequest url attempt (getNextProxy (requests s))
                     :: mid ++ [EvDelay (500 * attempt)] ++ new).
      split; [| split].
      * rewrite Htr, Htr3, <- !app_assoc. simpl. now rewrite <- !app_assoc.
      * rewrite Hreq, Hreq3. lia.
      * intros p. cbn [marked]. rewrite !marked_app. cbn [marked app].
        rewrite elem_of_app, Hmarked, Hnew. split.
        -- intros [(Hne & Hp & Hc)|(Hne & j & e & Hj & Hp & He & Hc)];
             (split; [exact Hne |]).
           ++ exists 0%nat, err. rewrite Nat.add_0_r. repeat split; [lia | assumption ..].
           ++ exists (S j), e. rewrite <- Hidx. repeat split; [lia | assumption ..].
        -- intros (Hne & j & e & Hj & Hp & He & Hc). destruct j as [|j].
           ++ rewrite Nat.add_0_r in Hp, He. left.
              assert (e = err) as -> by congruence. now repeat split.
           ++ right. split; [exact Hne |].
              exists j, e. rewrite Hidx. repeat split; [lia | assumption ..].
Qed.

(** X6. [fetchHtmlWithRetry] reports a proxy as failed exactly when one
    of the requests of the call went through that proxy and failed with
    the code ECONNREFUSED or ETIMEDOUT; a request that came back with a
    refused status, or that failed without a proxy, reports nothing. *)
Theorem fetchHtmlWithRetry_marks_proxies (url referer : string) (retries : Z) (s : state) :
  let R := fetchHtmlWithRetry url retries referer s in
  exists (n : nat) (new : list event),
    trace (snd R) = trace s ++ new /\
    requests (snd R) = (requests s + n)%nat /\
    forall p,
      p <> EmptyString ->
      (p ∈ marked new <->
       exists j e,
         (j < n)%nat /\ getNextProxy (requests s + j) = Some p /\
         axios_get (network (requests s + j) url) = inr e /\ connection_code e).
Proof.
  intros R. subst R. unfold fetchHtmlWithRetry.
  destruct (retry_loop_marks url (Z.to_nat retries) 1 None (emit (EvPage url referer) s))
    as (n & new & Htr & Hreq & Hnew).
  cbn [emit trace requests] in Htr, Hreq, Hnew.
  exists n, (EvPage url referer :: new).
  destruct (retry_loop (Z.to_nat retries) 1 url None (emit (EvPage url referer) s))
    as [[text|lastErr] s']; cbn [fst snd] in *;
    (split; [now rewrite Htr, <- app_assoc |]; split; [exact Hreq |];
     intros p Hne; cbn [marked]; rewrite Hnew; tauto).
Qed.

End Proxies.

Lemma fetchHtmlWithRetry_marks_proxies_witness :
  exists new,
    trace (snd (@fetchHtmlWithRetry Fixture.down_site "https://toonstream.one/home/" 3
                  "referer" initial))
    = trace initial ++ new /\
    "10.0.0.1:8080" ∈ marked new.
Proof.
  destruct (@fetchHtmlWithRetry_marks_proxies Fixture.down_site "https://toonstream.one/home/"
              "referer" 3 initial) as (n & new & Htr & Hreq & Hmark).
  exists new. split; [exact Htr |].
  assert (n = 3)%nat as -> by (vm_compute in Hreq; lia).
  apply Hmark; [discriminate |].
  exists 2%nat, {| err_message := Some "connect ECONNREFUSED";
                   err_code := Some "ECONNREFUSED"; err_status := None |}.
  repeat split; [lia | now left].
Defined.

End ProxyFacts.

(** ** The chain of calls of [resolve] *)

Module ChainFacts.
Import Js Sync Stated JsFacts FetchFacts ResolveFacts VerdictFacts.

Section Chain.
Context `{Env}.

Lemma candidates_of_script_usable (url content : string) (visited : gset string) :
  Forall (fun u => u <> EmptyString /\ u <> url /\ u ∉ visited)
         (candidates_of_script url visited content).
Proof.
  unfold candidates_of_script. apply Forall_flat_map, Forall_forall. intros k _.
  apply Forall_flat_map, Forall_forall. intros candidate _.
  destruct candidate as [|a w]; [constructor |].
  destruct (normalizeUrl (Some (String a w)) url) as [[|c r]|]; unfold usable;
    try constructor.
  destruct (String.eqb_spec (String c r) url) as [Heq|Hne]; cbn [negb andb];
    [constructor |].
  destruct (bool_decide_reflect (String c r ∈ visited)) as [Hin|Hout]; cbn [negb];
    [constructor |].
  repeat constructor; [discriminate | exact Hne | exact Hout].
Qed.

Lemma pickFromScripts_usable (html url u : string) (visited : gset string) :
  pickFromScripts html url visited = Some u ->
  u <> EmptyString /\ u <> url /\ u ∉ visited.
Proof.
  unfold pickFromScripts.
  set (allCandidates := flat_map _ (select html SelScript)).
  assert (Hall : Forall (fun u => u <> EmptyString /\ u <> url /\ u ∉ visited) allCandidates).
  { apply Forall_flat_map, Forall_forall. intros script _.
    apply candidates_of_script_usable. }
  rewrite Forall_forall in Hall.
  destruct (find _ allCandidates) as [v|] eqn:Hv.
  - intros [= <-]. apply Hall. apply find_some in Hv as [Hin _]. now apply list_elem_of_In.
  - lazymatch goal with
    | |- context [find ?f allCandidates] => destruct (find f allCandidates) as [e|] eqn:He
    end.
    + intros [= <-]. apply Hall. apply find_some in He as [Hin _]. now apply list_elem_of_In.
    + destruct allCandidates as [|h l]; [discriminate |].
      intros [= <-]. apply Hall. apply list_elem_of_here.
Qed.

(** The URL of a tail call is one that [pickIframe] or [pickFromScripts]
    accepted. *)
Lemma resolve_page_Follow_picked (html url next : string) (visited : gset string) (depth : Z) :
  resolve_page html url visited depth = Follow next ->
  pickIframe html url visited = Some next \/ pickFromScripts html url visited = Some next.
Proof.
  unfold resolve_page, iframe_block, script_block.
  destruct (truthy _ && isVideoUrl _); [discriminate |].
  destruct (pickIframe html url visited) as [[|c r]|];
    destruct (pickFromScripts html url visited) as [[|c' r']|];
    repeat (match goal with
            | |- context [if ?b then _ else _] => destruct b
            end; cbn [andb]);
    try discriminate; intros [= <-]; auto.
Qed.

(** What [resolve] returns from a page is not the empty string. *)
Lemma resolve_page_Return_nonempty (html url r : string) (visited : gset string) (depth : Z) :
  url <> EmptyString ->
  resolve_page html url visited depth = Return (Some r) -> r <> EmptyString.
Proof.
  intros Hurl. unfold resolve_page, iframe_block, script_block.
  destruct (pickDirectVideo html url) as [[|a v]|]; cbn [truthy andb or_default];
    destruct (pickIframe html url visited) as [[|c w]|];
    destruct (pickFromScripts html url visited) as [[|c' w']|];
    repeat (match goal with
            | |- context [if ?b then _ else _] => destruct b
            end; cbn [andb]);
    try discriminate; intros [= <-]; (discriminate || exact Hurl).
Qed.

Lemma resolve_nonempty (fuel : nat) :
  forall (options : resolve_options) (visited : gset string) (url : string)
         (depth : Z) (s : state) r visited' s',
    resolve fuel options visited url depth s = Some (Some r, visited', s') ->
    r <> EmptyString.
Proof.
  induction fuel as [|fuel IH]; intros options visited url depth s r visited' s' Hr;
    [discriminate |].
  destruct (live_or_guarded visited url depth s) as [->|[[Hne Hg]|Hlive]].
  - rewrite resolve_empty in Hr. discriminate.
  - rewrite (resolve_guarded _ _ _ _ _ _ Hne Hg) in Hr. now injection Hr as <- _ _.
  - pose proof (resolve_live fuel options _ Hlive) as Heq.
    cbn [c_visited c_url c_depth c_state] in Heq. rewrite Heq in Hr.
    destruct (page_of options _) as [[html|msg] s1]; [| discriminate].
    destruct (resolve_page html url ({[url]} ∪ visited) depth) as [result|next] eqn:Hv.
    + injection Hr as -> _ _. destruct Hlive as (Hne & _).
      now apply (resolve_page_Return_nonempty _ _ _ _ _ Hne Hv).
    + now apply (IH _ _ _ _ _ _ _ _ Hr).
Qed.

(** X7. Every tail call of [resolve] passes the three guards: its URL is
    not empty, is not in the visited set (so it differs from every URL
    asked for before), and its depth is within [MAX_DEPTH]. The guards
    on the visited set and on the depth can stop the first call only. *)
Theorem tail_calls_live (options : resolve_options) (c c' : call) :
  hop options c c' ->
  live c' /\ c_url c' <> c_url c /\ c_depth c' = c_depth c + 1.
Proof.
  intros [c0 html next s1 Hlive Hpage Hverdict]. cbn [c_visited c_url c_depth].
  pose proof (resolve_page_Follow _ _ _ _ _ Hverdict) as Hdepth.
  assert (Hnext : next <> EmptyString /\ next <> c_url c0 /\
                  next ∉ {[c_url c0]} ∪ c_visited c0).
  { destruct (resolve_page_Follow_picked _ _ _ _ _ Hverdict) as [Hp|Hp];
      [now apply pickIframe_usable in Hp | now apply pickFromScripts_usable in Hp]. }
  destruct Hnext as (Hne & Hdiff & Hout).
  split; [| split; [exact Hdiff | reflexivity]].
  unfold live. cbn [c_visited c_url c_depth]. repeat split; [exact Hne | exact Hout | lia].
Qed.

(** X8. [extractRealVideoUrl] returns null or a URL that is not empty. *)
Theorem extractRealVideoUrl_not_empty (intermediateUrl : string) (options : resolve_options)
    (s : state) :
  exists result s',
    extractRealVideoUrl intermediateUrl options s = Some (result, s') /\
    result <> Some EmptyString.
Proof.
  destruct (extractRealVideoUrl_returns intermediateUrl options s)
    as (result & visited' & s' & Hres & Hcall).
  exists result, s'. split; [exact Hcall |].
  intros ->. now apply resolve_nonempty in Hres.
Qed.

End Chain.

Lemma tail_calls_live_witness :
  @live Fixture.site Fixture.call_blank.
Proof.
  apply (@tail_calls_live Fixture.site Fixture.no_options Fixture.call_7 Fixture.call_blank).
  apply (@hop_follow Fixture.site Fixture.no_options Fixture.call_7
           (Fixture.html_of (Fixture.trembed "7")) Fixture.blank (snd Fixture.page_7)).
  - repeat split; [differ | apply not_elem_of_empty | vm_compute; discriminate].
  - vm_compute. reflexivity.
  - vm_compute. reflexivity.
Defined.

End ChainFacts.

(** ** The server options of [extractEmbeds] *)

Module OptionFacts.
Import Js Sync Stated JsFacts EmbedFacts EmbedTerms.

Section Options.
Context `{Env}.

Lemma trembed_not_external (a b : string) :
  isExternal ("https://toonstream.one/?trembed=" +:+ a +:+ b) = false.
Proof.
  unfold isExternal.
  replace (includes _ "toonstream.one") with true; [reflexivity |].
  symmetry. apply includes_spec.
  exists "https://", ("/?trembed=" +:+ a +:+ b). reflexivity.
Qed.

Lemma tidy_snoc (seen : gset string) (opts : list serverOption) (server : serverOption) :
  tidy seen opts ->
  so_url server ∉ seen ->
  so_url server <> EmptyString ->
  truthy (so_directUrl server) = isExternal (so_url server) ->
  tidy ({[so_url server]} ∪ seen) (opts ++ [server]).
Proof.
  intros (Hnd & Hin & Hall) Hout Hne Hdir. split; [| split].
  - rewrite map_app. apply NoDup_app. split; [exact Hnd |]. split.
    + intros u Hu Hu'. apply list_elem_of_singleton in Hu'. subst. apply Hout. now apply Hin.
    + apply NoDup_singleton.
  - intros u. rewrite map_app, elem_of_app, elem_of_union, elem_of_singleton, Hin.
    cbn [map]. rewrite list_elem_of_singleton. tauto.
  - apply Forall_app. split; [exact Hall |]. now repeat constructor.
Qed.

(** The two passes have the same shape: an element offers a URL or
    nothing, and a URL that is new adds one option that stands for it. *)
Section Pass.
Variable pass : list element -> gset string -> list serverOption
                -> gset string * list serverOption.
Variable url_of : element -> option string.
Hypothesis pass_nil : forall seen opts, pass [] seen opts = (seen, opts).
Hypothesis pass_cons : forall el rest seen opts,
  match url_of el with
  | None => pass (el :: rest) seen opts = pass rest seen opts
  | Some t =>
      t <> EmptyString /\
      exists server,
        so_url server = t /\ truthy (so_directUrl server) = isExternal t /\
        pass (el :: rest) seen opts
        = if bool_decide (t ∈ seen) then pass rest seen opts
          else pass rest ({[t]} ∪ seen) (opts ++ [server])
  end.

Lemma pass_tidy (els : list element) :
  forall seen opts, tidy seen opts -> tidy (fst (pass els seen opts)) (snd (pass els seen opts)).
Proof.
  induction els as [|el rest IH]; intros seen opts Htidy.
  - now rewrite pass_nil.
  - pose proof (pass_cons el rest seen opts) as Hcons.
    destruct (url_of el) as [t|]; [| rewrite Hcons; now apply IH].
    destruct Hcons as (Hne & server & Hurl & Hdir & ->).
    destruct (bool_decide_reflect (t ∈ seen)) as [Hin|Hout]; [now apply IH |].
    apply IH. rewrite <- Hurl. apply tidy_snoc; rewrite ?Hurl; assumption.
Qed.

Lemma pass_seen (els : list element) :
  forall seen opts u,
    u ∈ fst (pass els seen opts) <->
    u ∈ seen \/ exists el, el ∈ els /\ url_of el = Some u.
Proof.
  induction els as [|el rest IH]; intros seen opts u.
  - rewrite pass_nil. cbn [fst]. split; [auto |].
    intros [Hu|(el & Hel & _)]; [exact Hu | now apply elem_of_nil in Hel].
  - pose proof (pass_cons el rest seen opts) as Hcons.
    assert (Hsplit : (exists e, e ∈ el :: rest /\ url_of e = Some u) <->
                     url_of el = Some u \/ exists e, e ∈ rest /\ url_of e = Some u).
    { split.
      - intros (e & He & Hu). apply elem_of_cons in He as [->|He]; [now left | right; eauto].
      - intros [Hu|(e & He & Hu)]; [exists el | exists e];
          (split; [| exact Hu]); [apply list_elem_of_here | now apply list_elem_of_further]. }
    rewrite Hsplit. clear Hsplit.
    destruct (url_of el) as [t|]; [| rewrite Hcons, IH; split; [tauto |];
                                     intros [?|[?|?]]; (discriminate || tauto)].
    destruct Hcons as (Hne & server & Hurl & Hdir & ->).
    destruct (bool_decide_reflect (t ∈ seen)) as [Hin|Hout]; rewrite IH.
    + split; [tauto |]. intros [?|[[= <-]|?]]; tauto.
    + rewrite elem_of_union, elem_of_singleton. split.
      * intros [[->|?]|?]; tauto.
      * intros [?|[[= <-]|?]]; tauto.
Qed.

End Pass.

Lemma playerOptions_cons (el : element) (rest : list element) (seen : gset string)
    (opts : list serverOption) :
  match player_option_url el with
  | None => playerOptions (el :: rest) seen opts = playerOptions rest seen opts
  | Some t =>
      t <> EmptyString /\
      exists server,
        so_url server = t /\ truthy (so_directUrl server) = isExternal t /\
        playerOptions (el :: rest) seen opts
        = if bool_decide (t ∈ seen) then playerOptions rest seen opts
          else playerOptions rest ({[t]} ∪ seen) (opts ++ [server])
  end.
Proof.
  unfold player_option_url. cbn [playerOptions].
  destruct (attr (el_attrs el) "data-post") as [[|pc pr]|]; try reflexivity.
  destruct (attr (el_attrs el) "data-nume") as [[|nc nr]|]; try reflexivity.
  set (t := "https://toonstream.one/?trembed=" +:+ String nc nr +:+
            "&trid=" +:+ String pc pr +:+ "&trtype=" +:+
            or_default (attr (el_attrs el) "data-type") "2").
  assert (Ht : exists c r, t = String c r) by (subst t; eauto).
  split; [destruct Ht as (c & r & ->); discriminate |].
  eexists. split; [| split; [| reflexivity]].
  - unfold so_url. cbn [so_directUrl so_trembedUrl].
    destruct Ht as (c & r & ->). reflexivity.
  - cbn [so_directUrl truthy]. symmetry. subst t. apply trembed_not_external.
Qed.

Lemma iframeOptions_cons (el : element) (rest : list element) (seen : gset string)
    (opts : list serverOption) :
  match iframe_option_url el with
  | None => iframeOptions (el :: rest) seen opts = iframeOptions rest seen opts
  | Some t =>
      t <> EmptyString /\
      exists server,
        so_url server = t /\ truthy (so_directUrl server) = isExternal t /\
        iframeOptions (el :: rest) seen opts
        = if bool_decide (t ∈ seen) then iframeOptions rest seen opts
          else iframeOptions rest ({[t]} ∪ seen) (opts ++ [server])
  end.
Proof.
  unfold iframe_option_url. cbn [iframeOptions].
  destruct (normalizeUrl _ homeUrl) as [[|c r]|]; try reflexivity.
  split; [discriminate |].
  eexists. split; [| split; [| reflexivity]].
  - unfold so_url. cbn [so_directUrl so_trembedUrl].
    now destruct (isExternal (String c r)).
  - cbn [so_directUrl]. now destruct (isExternal (String c r)).
Qed.

Lemma tidy_empty : tidy ∅ [].
Proof.
  split; [constructor |]. split; [| constructor].
  intros u. cbn [map]. split; intros Hu; [now apply elem_of_nil in Hu | ].
  now apply elem_of_empty in Hu.
Qed.

(** X9. The server options read off a page stand for pairwise different
    URLs, none of them empty: the trembed addresses of the player
    options that have a post and a number, and the normalised addresses
    of the frames. An option carries a direct URL exactly when its URL
    is external. *)
Theorem serverOptions_distinct (html : string) :
  let opts := serverOptions_of html in
  NoDup (map so_url opts) /\
  (forall u,
     u ∈ map so_url opts <->
     (exists el, el ∈ select html SelPlayerOption /\ player_option_url el = Some u) \/
     (exists el, el ∈ select html SelIframe /\ iframe_option_url el = Some u)) /\
  Forall (fun server =>
            so_url server <> EmptyString /\
            truthy (so_directUrl server) = isExternal (so_url server)) opts.
Proof.
  cbn zeta. unfold serverOptions_of.
  pose proof (pass_tidy playerOptions player_option_url (fun _ _ => eq_refl)
                playerOptions_cons (select html SelPlayerOption) ∅ [] tidy_empty) as Hp.
  pose proof (pass_seen playerOptions player_option_url (fun _ _ => eq_refl)
                playerOptions_cons (select html SelPlayerOption) ∅ []) as Hps.
  destruct (playerOptions (select html SelPlayerOption) ∅ []) as [seen opts].
  cbn [fst snd] in Hp, Hps.
  pose proof (pass_tidy iframeOptions iframe_option_url (fun _ _ => eq_refl)
                iframeOptions_cons (select html SelIframe) seen opts Hp) as Hi.
  pose proof (pass_seen iframeOptions iframe_option_url (fun _ _ => eq_refl)
                iframeOptions_cons (select html SelIframe) seen opts) as His.
  destruct Hi as (Hnd & Hin & Hall).
  split; [exact Hnd |]. split; [| exact Hall].
  intros u. rewrite Hin, His, Hps. split.
  - intros [[Hu|Hu]|Hu]; [now apply elem_of_empty in Hu | now left | now right].
  - intros [Hu|Hu]; [left; now right | now right].
Qed.

(** *** The order of the entries *)

Lemma embeds_loop_order (servers : list serverOption) (episodeUrl : string) :
  forall (embeds : list embed) (s : state) (result : list embed) (s' : state),
    embeds_loop servers episodeUrl embeds s = Some (result, s') ->
    exists new kept,
      result = embeds ++ new /\
      kept `sublist_of` servers /\
      Forall2 embed_of new kept /\
      forall server, server ∈ servers -> truthy (so_directUrl server) = true ->
                     server ∈ kept.
Proof.
  induction servers as [|server rest IH]; intros embeds s result s' Hloop.
  - injection Hloop as <- <-. exists [], []. rewrite app_nil_r.
    repeat split; [constructor | constructor |].
    intros sv Hsv. now apply elem_of_nil in Hsv.
  - assert (Hskip : truthy (so_directUrl server) = false ->
              forall embeds0 s0,
                embeds_loop rest episodeUrl embeds0 s0 = Some (result, s') ->
                exists new kept,
                  result = embeds0 ++ new /\
                  kept `sublist_of` server :: rest /\
                  Forall2 embed_of new kept /\
                  forall sv, sv ∈ server :: rest -> truthy (so_directUrl sv) = true ->
                             sv ∈ kept).
    { intros Hnd embeds0 s0 H0.
      destruct (IH _ _ _ _ H0) as (new & kept & -> & Hsub & Hall & Hdir).
      exists new, kept. repeat split; [now apply sublist_cons | exact Hall |].
      intros sv Hsv Htr. apply elem_of_cons in Hsv as [->|Hsv]; [congruence | auto]. }
    assert (Hkeep : forall e s0,
              embed_of e server ->
              embeds_loop rest episodeUrl (embeds ++ [e]) s0 = Some (result, s') ->
              exists new kept,
                result = embeds ++ new /\
                kept `sublist_of` server :: rest /\
                Forall2 embed_of new kept /\
                forall sv, sv ∈ server :: rest -> truthy (so_directUrl sv) = true ->
                           sv ∈ kept).
    { intros e s0 He H0.
      destruct (IH _ _ _ _ H0) as (new & kept & -> & Hsub & Hall & Hdir).
      exists (e :: new), (server :: kept). rewrite <- app_assoc.
      repeat split; [now apply sublist_skip | now constructor |].
      intros sv Hsv Htr. apply elem_of_cons in Hsv as [->|Hsv];
        [apply list_elem_of_here | apply list_elem_of_further; auto]. }
    cbn [embeds_loop] in Hloop.
    destruct (so_directUrl server) as [[|c r]|] eqn:Hd.
    + destruct (so_trembedUrl server) as [[|c r]|] eqn:Ht;
        try (now apply (Hskip eq_refl embeds s)).
      destruct (extractRealVideoUrl _ _ s) as [[realVideoUrl s1]|]; [| discriminate].
      destruct realVideoUrl as [[|c' r']|]; try (now apply (Hskip eq_refl _ _ Hloop)).
      destruct (accepted _ _); [| now apply (Hskip eq_refl _ _ Hloop)].
      refine (Hkeep _ _ _ Hloop).
      repeat split; try reflexivity; cbn; rewrite ?Hd, ?Ht; reflexivity.
    + refine (Hkeep _ _ _ Hloop). repeat split; (reflexivity || exact Hd).
    + destruct (so_trembedUrl server) as [[|c r]|] eqn:Ht;
        try (now apply (Hskip eq_refl embeds s)).
      destruct (extractRealVideoUrl _ _ s) as [[realVideoUrl s1]|]; [| discriminate].
      destruct realVideoUrl as [[|c' r']|]; try (now apply (Hskip eq_refl _ _ Hloop)).
      destruct (accepted _ _); [| now apply (Hskip eq_refl _ _ Hloop)].
      refine (Hkeep _ _ _ Hloop).
      repeat split; try reflexivity; cbn; rewrite ?Hd, ?Ht; reflexivity.
Qed.

(** X10. The entries that [extractEmbeds] returns come in the order of
    the server options, at most one for an option, each with the name
    and the number of its option; every option with a direct URL has its
    entry. *)
Theorem extractEmbeds_in_order (html episodeUrl : string) (s : state) :
  exists embeds s' kept,
    extractEmbeds html episodeUrl s = Some (embeds, s') /\
    kept `sublist_of` serverOptions_of html /\
    Forall2 embed_of embeds kept /\
    forall server, server ∈ serverOptions_of html ->
                   truthy (so_directUrl server) = true -> server ∈ kept.
Proof.
  destruct (extractEmbeds_returns html episodeUrl s) as (embeds & s' & Hrun).
  unfold extractEmbeds in *.
  destruct (embeds_loop_order _ _ _ _ _ _ Hrun) as (new & kept & -> & Hsub & Hall & Hdir).
  exists ([] ++ new), s', kept. repeat split; assumption.
Qed.

End Options.
End OptionFacts.

(** ** The Worker: what a run stores *)

Module RunFacts.
Import Js Worker WorkerFixture WorkerFacts.

Section Run.
Context `{Env}.

Lemma fetchHtml_progress (url : string) (s : state) :
  progress (snd (fetchHtml url s)) = progress s.
Proof.
  unfold fetchHtml. destruct (negb (canFetch s)); [reflexivity |].
  destruct (fetch _ url) as [m|ok st text]; [reflexivity |]. now destruct ok.
Qed.

Lemma with_scheme_nonempty (m : string) : m <> EmptyString -> with_scheme m <> EmptyString.
Proof.
  unfold with_scheme. intros Hm. destruct (startsWith m "//"); [discriminate | exact Hm].
Qed.

(** A URL that [resolveVideoUrl] returns holds neither the name of the
    source site nor the word trembed, and the stored index is left as it
    was. *)
Lemma resolveVideoUrl_result (fuel : nat) :
  forall (trembedUrl : string) (depth : Z) (s : state) r s',
    resolveVideoUrl fuel trembedUrl depth s = Some (r, s') ->
    progress s' = progress s /\
    forall v, r = Some v ->
      includes v "toonstream.one" = false /\ includes v "trembed" = false.
Proof.
  induction fuel as [|fuel IH]; intros trembedUrl depth s r s' Hr; [discriminate |].
  cbn [resolveVideoUrl] in Hr.
  destruct ((3 <? depth) || negb (canFetch s)).
  { injection Hr as <- <-. split; [reflexivity | discriminate]. }
  pose proof (fetchHtml_progress trembedUrl s) as Hpage.
  destruct (fetchHtml trembedUrl s) as [[html|message] s1]; cbn [snd] in Hpage.
  2: { injection Hr as <- <-. split; [exact Hpage | discriminate]. }
  revert Hr. rewrite <- Hpage. clear Hpage. generalize s1. clear s1.
  induction (iframeMatches html) as [|m ms IHms]; intros s1 Hr.
  - injection Hr as <- <-. split; [reflexivity |].
    unfold from_location. destruct (locationMatch html) as [m|]; [| discriminate].
    destruct (includes (with_scheme m) "toonstream.one") eqn:H1; [discriminate |].
    destruct (includes (with_scheme m) "trembed") eqn:H2; [discriminate |].
    cbn [negb andb]. intros v [= <-]. now split.
  - destruct (is_external (with_scheme m)) eqn:Hext.
    { injection Hr as <- <-. split; [reflexivity |]. intros v [= <-].
      unfold is_external in Hext.
      apply andb_prop in Hext as [Hext _]. apply andb_prop in Hext as [H1 H2].
      split; now apply negb_true_iff. }
    destruct (includes (with_scheme m) "trembed" || includes (with_scheme m) "trid=");
      [| now apply IHms].
    destruct (resolveVideoUrl fuel (with_scheme m) (depth + 1) s1) as [[r2 s2]|] eqn:Hin;
      [| discriminate].
    destruct (IH _ _ _ _ _ Hin) as [Hp2 Hv2].
    destruct r2 as [[|c w]|].
    + destruct (IHms s2 Hr) as [Hp Hv]. split; [now rewrite Hp | exact Hv].
    + injection Hr as <- <-. split; [exact Hp2 | exact Hv2].
    + destruct (IHms s2 Hr) as [Hp Hv]. split; [now rewrite Hp | exact Hv].
Qed.

Lemma servers_loop_result (trembedUrls : list string) :
  forall (s : state) r s',
    servers_loop trembedUrls s = Some (r, s') ->
    progress s' = progress s /\
    forall v, r = Some v ->
      v <> EmptyString /\
      includes v "toonstream.one" = false /\ includes v "trembed" = false.
Proof.
  induction trembedUrls as [|u rest IH]; intros s r s' Hr; cbn [servers_loop] in Hr.
  - injection Hr as <- <-. split; [reflexivity | discriminate].
  - destruct (negb (canFetch s)).
    { injection Hr as <- <-. split; [reflexivity | discriminate]. }
    destruct (resolveVideoUrl resolve_fuel u 0 s) as [[r1 s1]|] eqn:H1; [| discriminate].
    destruct (resolveVideoUrl_result _ _ _ _ _ _ H1) as [Hp1 Hv1].
    destruct r1 as [[|c w]|].
    + destruct (IH _ _ _ Hr) as [Hp Hv]. split; [now rewrite Hp | exact Hv].
    + injection Hr as <- <-. split; [exact Hp1 |].
      intros v [= <-]. split; [discriminate | now apply Hv1].
    + destruct (IH _ _ _ Hr) as [Hp Hv]. split; [now rewrite Hp | exact Hv].
Qed.

(** X11. The video URL that the loop over the server options of an
    episode hands to the database is not empty and holds neither the
    name of the source site nor the word trembed; the loop always
    returns. *)
Theorem stored_video_is_external (trembedUrls : list string) (s : state) :
  exists r s',
    servers_loop trembedUrls s = Some (r, s') /\
    forall v, r = Some v ->
      v <> EmptyString /\
      includes v "toonstream.one" = false /\ includes v "trembed" = false.
Proof.
  destruct (servers_loop_grows trembedUrls s) as (r & s' & Hr & _).
  exists r, s'. split; [exact Hr |]. now apply (servers_loop_result _ _ _ _ Hr).
Qed.

(** What the loop over the episodes leaves behind: it went through the
    whole list and left the stored index alone, or it stopped at the cap
    before the episode of index [j] and stored [j]. *)
Lemma episodes_loop_account (eps : list episode) :
  forall (i : nat) (c : counters) (s : state) c' s',
    episodes_loop eps i c s = Some (c', s') ->
    syncedCount c <= syncedCount c' /\ skippedCount c <= skippedCount c' /\
    ((progress s' = progress s /\
      (eps = [] -> c' = c) /\
      (eps <> [] -> processedIndex c' = (i + length eps - 1)%nat) /\
      (syncedCount c' - syncedCount c) + (skippedCount c' - skippedCount c)
      <= Z.of_nat (length eps))
     \/
     (exists j : nat,
        (i <= j < i + length eps)%nat /\
        progress s' = Some j /\
        canFetch s' = false /\
        (j = i -> canFetch s = false /\ c' = c) /\
        (i < j -> processedIndex c' = (j - 1)%nat)%nat /\
        (syncedCount c' - syncedCount c) + (skippedCount c' - skippedCount c)
        <= Z.of_nat (j - i))).
Proof.
  induction eps as [|ep rest IH]; intros i c s c' s' Hloop; cbn [episodes_loop] in Hloop.
  - injection Hloop as <- <-. split; [lia |]. split; [lia |]. left.
    repeat split; [congruence | simpl; lia].
  - assert (Hcase : canFetch s = true \/ canFetch s = false)
      by (destruct (canFetch s); auto).
    destruct Hcase as [Hcan|Hcan]; rewrite Hcan in Hloop; cbn [negb] in Hloop.
    2:{ injection Hloop as <- <-. split; [lia |]. split; [lia |]. right.
        exists i. cbn [length]. repeat split; try lia; try reflexivity; exact Hcan. }
    assert (Hnext : forall c0 s0,
              processedIndex c0 = i ->
              syncedCount c <= syncedCount c0 -> skippedCount c <= skippedCount c0 ->
              (syncedCount c0 - syncedCount c) + (skippedCount c0 - skippedCount c) <= 1 ->
              progress s0 = progress s ->
              episodes_loop rest (S i) c0 s0 = Some (c', s') ->
              syncedCount c <= syncedCount c' /\ skippedCount c <= skippedCount c' /\
              ((progress s' = progress s /\
                (ep :: rest = [] -> c' = c) /\
                (ep :: rest <> [] ->
                 processedIndex c' = (i + length (ep :: rest) - 1)%nat) /\
                (syncedCount c' - syncedCount c) + (skippedCount c' - skippedCount c)
                <= Z.of_nat (length (ep :: rest)))
               \/
               (exists j : nat,
                  (i <= j < i + length (ep :: rest))%nat /\
                  progress s' = Some j /\
                  canFetch s' = false /\
                  (j = i -> canFetch s = false /\ c' = c) /\
                  (i < j -> processedIndex c' = (j - 1)%nat)%nat /\
                  (syncedCount c' - syncedCount c) + (skippedCount c' - skippedCount c)
                  <= Z.of_nat (j - i)))).
    { intros c0 s0 Hidx Hsy Hsk Hone Hprog H0.
      destruct (IH _ _ _ _ _ H0) as (Hsy' & Hsk' & Hcase).
      split; [lia |]. split; [lia |].
      destruct Hcase as [(Hp & Hnil & Hcons & Hsum)|(j & Hj & Hp & Hstop & Hji & Hlt & Hsum)].
      - left. split; [now rewrite Hp |]. split; [discriminate |]. split.
        + intros _. destruct rest as [|e2 rest2].
          * rewrite (Hnil eq_refl), Hidx. cbn [length]. lia.
          * rewrite Hcons by discriminate. cbn [length]. lia.
        + cbn [length]. lia.
      - right. exists j. cbn [length]. split; [lia |]. split; [exact Hp |].
        split; [exact Hstop |]. split; [lia |]. split.
        + intros _. destruct (Nat.eq_dec j (S i)) as [->|Hne].
          * destruct (Hji eq_refl) as [_ ->]. rewrite Hidx. lia.
          * apply Hlt. lia.
        + destruct (Nat.eq_dec j (S i)) as [->|Hne].
          * destruct (Hji eq_refl) as [_ ->]. lia.
          * lia. }
    destruct (db_existing i).
    { refine (Hnext _ _ _ _ _ _ _ Hloop); cbn [syncedCount skippedCount processedIndex];
        (reflexivity || lia). }
    pose proof (fetchHtml_progress (ep_url ep) s) as Hpage.
    destruct (fetchHtml (ep_url ep) s) as [[html|message] s1]; cbn [snd] in Hpage.
    2:{ refine (Hnext _ _ _ _ _ _ _ Hloop); cbn [syncedCount skippedCount processedIndex];
          (reflexivity || lia || assumption). }
    destruct (extractTrembedUrls html) as [|u us].
    { refine (Hnext _ _ _ _ _ _ _ Hloop); cbn [syncedCount skippedCount processedIndex];
        (reflexivity || lia || assumption). }
    destruct (servers_loop (u :: us) s1) as [[r s2]|] eqn:Hservers; [| discriminate].
    destruct (servers_loop_result _ _ _ _ Hservers) as [Hp2 _].
    assert (Hprog2 : progress s2 = progress s) by (now rewrite Hp2).
    destruct r as [videoUrl|];
      [destruct (db_upsert_error i) |];
      (refine (Hnext _ _ _ _ _ _ _ Hloop); cbn [syncedCount skippedCount processedIndex];
       (reflexivity || lia || assumption)).
Qed.

(** What a run that found episodes on the homepage returns and stores. *)
Lemma runSync_outcome (s : state) (status : Z) (html : string) :
  fetch (length (fetched s)) "https://toonstream.one/" = Responded true status html ->
  extractEpisodesFromHomepage html <> [] ->
  let episodes := extractEpisodesFromHomepage html in
  let start := if (length episodes <=? getProgress s)%nat then 0%nat else getProgress s in
  exists r s',
    runSync s = Some (r, s') /\
    success r = true /\
    0 <= synced r /\ 0 <= skipped r /\
    ((progress s' = Some 0%nat /\
      synced r + skipped r <= Z.of_nat (length episodes - start))
     \/
     (exists j : nat,
        progress s' = Some j /\ (start < j < length episodes)%nat /\
        subrequests r = Some MAX_SUBREQUESTS /\
        synced r + skipped r <= Z.of_nat (j - start))).
Proof.
  intros Hfetch Hsome. cbn zeta. unfold runSync.
  set (s0 := {| subrequestCount := 0; fetched := fetched s; progress := progress s |}).
  assert (Hpage : fetchHtml "https://toonstream.one/" s0
                  = (inl html, {| subrequestCount := 1;
                                  fetched := fetched s ++ ["https://toonstream.one/"];
                                  progress := progress s |})).
  { unfold fetchHtml, canFetch. cbn [s0 subrequestCount fetched progress].
    change (0 <? MAX_SUBREQUESTS) with true. cbn [negb]. now rewrite Hfetch. }
  rewrite Hpage. clear Hpage.
  set (s1 := {| subrequestCount := 1; fetched := fetched s ++ ["https://toonstream.one/"];
                progress := progress s |}).
  destruct (extractEpisodesFromHomepage html) as [|e0 es]; [congruence |].
  set (episodes := e0 :: es).
  assert (Hlen : (0 < length episodes)%nat) by (simpl; lia).
  replace (getProgress s1) with (getProgress s) by reflexivity.
  set (start := if (length episodes <=? getProgress s)%nat then 0%nat else getProgress s).
  assert (Hstart : (start < length episodes)%nat).
  { subst start. destruct (Nat.leb_spec (length episodes) (getProgress s)); lia. }
  set (c0 := {| syncedCount := 0; skippedCount := 0; processedIndex := start |}).
  destruct (episodes_loop_grows (drop start episodes) start c0 s1)
    as (c & s2 & Hloop & (new & _ & Hcount & Hcap)).
  rewrite Hloop.
  destruct (episodes_loop_account _ _ _ _ _ _ Hloop) as (Hsy & Hsk & Hcase).
  cbn [c0 syncedCount skippedCount] in Hsy, Hsk, Hcase.
  assert (Hdrop : length (drop start episodes) = (length episodes - start)%nat)
    by apply length_drop.
  rewrite Hdrop in Hcase.
  eexists _, _. split; [reflexivity |]. cbn [success synced skipped subrequests].
  split; [reflexivity |]. split; [exact Hsy |]. split; [exact Hsk |].
  destruct Hcase as [(Hp & _ & Hcons & Hsum)|(j & Hj & Hp & Hstop & Hji & Hlt & Hsum)].
  - left. rewrite Hcons.
    2:{ intros Hnil. rewrite Hnil in Hdrop.
        change (0%nat = (length episodes - start)%nat) in Hdrop. lia. }
    replace (length episodes - 1 <=? start + (length episodes - start) - 1)%nat with true
      by (symmetry; apply Nat.leb_le; lia).
    split; [reflexivity | lia].
  - right. exists j.
    assert (Hne : j <> start).
    { intros ->. destruct (Hji eq_refl) as [Hcan _]. discriminate Hcan. }
    rewrite Hlt by lia.
    replace (length episodes - 1 <=? j - 1)%nat with false
      by (symmetry; apply Nat.leb_gt; lia).
    split; [exact Hp |]. split; [lia |]. split; [| lia].
    f_equal. unfold canFetch in Hstop. apply Z.ltb_ge in Hstop.
    cbn [s1 subrequestCount] in Hcap. unfold MAX_SUBREQUESTS in *. lia.
Qed.


(** X13. The counts a run reports are not negative, and together they
    do not exceed the number of episodes from the index the run started
    at to the end of the list. *)
Theorem runSync_counts (s : state) (status : Z) (html : string) :
  fetch (length (fetched s)) "https://toonstream.one/" = Responded true status html ->
  extractEpisodesFromHomepage html <> [] ->
  let episodes := extractEpisodesFromHomepage html in
  let start := if (length episodes <=? getProgress s)%nat then 0%nat else getProgress s in
  exists r s',
    runSync s = Some (r, s') /\
    success r = true /\
    0 <= synced r /\ 0 <= skipped r /\
    synced r + skipped r <= Z.of_nat (length episodes - start).
Proof.
  intros Hfetch Hsome episodes start.
  destruct (runSync_outcome s status html Hfetch Hsome)
    as (r & s' & Hrun & Hok & Hsy & Hsk & Hcase).
  exists r, s'. subst episodes start. repeat split; try assumption.
  destruct Hcase as [[_ Hsum]|(j & _ & Hj & _ & Hsum)]; [exact Hsum | lia].
Qed.

End Run.

Lemma stored_video_is_external_witness :
  exists s',
    @servers_loop WorkerFixture.site ["https://toonstream.one/?trembed=0&trid=42"]
      WorkerFixture.fresh
    = Some (Some "https://streamtape.com/e/abc", s') /\
    includes "https://streamtape.com/e/abc" "toonstream.one" = false.
Proof.
  destruct (@stored_video_is_external WorkerFixture.site
              ["https://toonstream.one/?trembed=0&trid=42"] WorkerFixture.fresh)
    as (r & s' & Hr & Hv).
  exists s'. vm_compute in Hr. injection Hr as <- <-.
  split; [vm_compute; reflexivity |]. now apply (Hv _ eq_refl).
Defined.


Lemma runSync_counts_witness :
  exists r s',
    @runSync WorkerFixture.site WorkerFixture.fresh = Some (r, s') /\
    success r = true /\ 0 <= synced r /\ 0 <= skipped r /\
    synced r + skipped r <= 3.
Proof.
  apply (@runSync_counts WorkerFixture.site WorkerFixture.fresh 200 "home");
    [reflexivity | vm_compute; discriminate].
Defined.

End RunFacts.

(** ** The homepage and the choice of episodes *)

Module HomepageFacts.
Import Js Sync Stated JsFacts FetchFacts ResolveFacts Addresses Homepage.

Lemma Set_values_spec (l : list string) :
  forall seen : gset string,
    NoDup (Set_values l seen) /\
    (forall x, x ∈ Set_values l seen <-> x ∈ l /\ x ∉ seen).
Proof.
  induction l as [|a l IH]; intros seen; cbn [Set_values].
  - split; [constructor |]. intros x. split; [intros Hx | intros [Hx _]];
      now apply elem_of_nil in Hx.
  - destruct (bool_decide_reflect (a ∈ seen)) as [Hin|Hout].
    + destruct (IH seen) as [Hnd Hmem]. split; [exact Hnd |].
      intros x. rewrite Hmem, elem_of_cons. split; [tauto |].
      intros [[->|Hx] Hs]; [contradiction | tauto].
    + destruct (IH ({[a]} ∪ seen)) as [Hnd Hmem]. split.
      * apply NoDup_cons. split; [| exact Hnd].
        rewrite Hmem. intros [_ Ha]. apply Ha. apply elem_of_union_l.
        now apply elem_of_singleton.
      * intros x. rewrite !elem_of_cons, Hmem, not_elem_of_union, not_elem_of_singleton.
        destruct (decide (x = a)) as [->|Hne]; tauto.
Qed.

Section Homepages.
Context `{Env}.

(** The loop stops at the first candidate that returns a page, all the
    candidates before it having thrown; otherwise all of them have. *)
Lemma homepage_loop_spec (candidates : list string) :
  forall (lastErr : option string) (s : state),
  exists new,
    trace (snd (homepage_loop candidates lastErr s)) = trace s ++ new /\
    match fst (homepage_loop candidates lastErr s) with
    | inl html =>
        exists before chosen after s0,
          candidates = before ++ chosen :: after /\
          all_thrown before s = Some s0 /\
          fetchHtmlWithRetry chosen CONFIG_maxRetries homeUrl s0
          = (inl html, snd (homepage_loop candidates lastErr s)) /\
          pages new = before ++ [chosen]
    | inr message =>
        all_thrown candidates s = Some (snd (homepage_loop candidates lastErr s)) /\
        pages new = candidates /\
        match candidates with
        | [] => message = match lastErr with
                          | Some m => m
                          | None => "All homepage candidates failed"
                          end
        | _ :: _ =>
            exists before final s0 s1,
              candidates = before ++ [final] /\
              all_thrown before s = Some s0 /\
              fetchHtmlWithRetry final CONFIG_maxRetries homeUrl s0 = (inr message, s1)
        end
    end.
Proof.
  induction candidates as [|candidate rest IH]; intros lastErr s.
  - exists []. cbn [homepage_loop fst snd all_thrown]. rewrite app_nil_r. repeat split.
  - cbn [homepage_loop all_thrown].
    destruct (fetch_trace candidate homeUrl CONFIG_maxRetries s) as (reqs & Htr & Hpg).
    destruct (fetchHtmlWithRetry candidate CONFIG_maxRetries homeUrl s)
      as [[html|message] s1] eqn:Hfetch; cbn [fst snd] in *.
    + exists (EvPage candidate homeUrl :: reqs). split; [exact Htr |].
      exists [], candidate, rest, s. cbn [pages app all_thrown]. rewrite Hpg.
      repeat split. exact Hfetch.
    + destruct (IH (Some message) (emit (EvDelay 500) s1)) as (new & Htr' & Hres).
      exists (EvPage candidate homeUrl :: reqs ++ [EvDelay 500] ++ new).
      split.
      { rewrite Htr'. cbn [emit trace]. rewrite Htr, <- !app_assoc. reflexivity. }
      destruct (fst (homepage_loop rest (Some message) (emit (EvDelay 500) s1)))
        as [html|msg].
      * destruct Hres as (before & chosen & after & s0 & -> & Hbefore & Hchosen & Hpages).
        exists (candidate :: before), chosen, after, s0.
        cbn [pages all_thrown]. rewrite Hfetch, !pages_app, Hpg, Hpages. cbn [pages app].
        repeat split; assumption.
      * destruct Hres as (Hall & Hpages & Hlast).
        cbn [pages]. rewrite !pages_app, Hpg, Hpages. cbn [pages app].
        split; [exact Hall |]. split; [reflexivity |].
        destruct rest as [|c2 rest2].
        -- subst msg. exists [], candidate, s, s1. now repeat split.
        -- destruct Hlast as (before & final & s0 & s2 & Heq & Hbefore & Hfinal).
           exists (candidate :: before), final, s0, s2. rewrite Heq.
           cbn [app all_thrown]. rewrite Hfetch. now repeat split.
Qed.

(** X14. [fetchHomepageHtml] asks for the candidates in their order,
    the home URL first and none twice. It returns the page of the first
    candidate whose fetch returns one: every candidate before it was
    asked for and threw, and none after it is asked for. When every
    fetch throws it has asked for all of them and throws the error of the
    last. *)
Theorem fetchHomepageHtml_first_success (envFallbacks : list string) (s : state) :
  let candidates := homepageCandidates envFallbacks in
  let R := fetchHomepageHtml envFallbacks s in
  head candidates = Some homeUrl /\
  NoDup candidates /\
  exists new,
    trace (snd R) = trace s ++ new /\
    match fst R with
    | inl html =>
        exists before chosen after s0,
          candidates = before ++ chosen :: after /\
          all_thrown before s = Some s0 /\
          fetchHtmlWithRetry chosen CONFIG_maxRetries homeUrl s0 = (inl html, snd R) /\
          pages new = before ++ [chosen]
    | inr message =>
        all_thrown candidates s = Some (snd R) /\
        pages new = candidates /\
        exists before final s0 s1,
          candidates = before ++ [final] /\
          all_thrown before s = Some s0 /\
          fetchHtmlWithRetry final CONFIG_maxRetries homeUrl s0 = (inr message, s1)
    end.
Proof.
  cbn zeta. unfold fetchHomepageHtml.
  assert (Hhead : head (homepageCandidates envFallbacks) = Some homeUrl).
  { unfold homepageCandidates. cbn [Set_values].
    destruct (bool_decide_reflect (homeUrl ∈ (∅ : gset string))) as [Hin|_];
      [now apply elem_of_empty in Hin | reflexivity]. }
  split; [exact Hhead |].
  split; [apply Set_values_spec |].
  destruct (homepage_loop_spec (homepageCandidates envFallbacks) None s)
    as (new & Htr & Hres).
  exists new. split; [exact Htr |].
  destruct (fst (homepage_loop (homepageCandidates envFallbacks) None s)) as [html|message];
    [exact Hres |].
  destruct Hres as (Hall & Hpages & Hlast).
  split; [exact Hall |]. split; [exact Hpages |].
  destruct (homepageCandidates envFallbacks) as [|c0 cs]; [discriminate | exact Hlast].
Qed.

End Homepages.

(** *** The smart-sync choice *)

Lemma existingEpisodes_spec (existingData : list row) (season episode : Z) :
  makeSeasonEpisodeKey season episode ∈ existingEpisodes existingData <->
  exists ep, ep ∈ existingData /\ row_season ep = season /\ row_episode ep = episode.
Proof.
  unfold existingEpisodes. rewrite elem_of_list_to_set, list_elem_of_fmap. split.
  - intros (ep & Hkey & Hep). exists ep. split; [exact Hep |].
    change (makeSeasonEpisodeKey season episode)
      with (code_key season episode) in Hkey.
    change (makeSeasonEpisodeKey (row_season ep) (row_episode ep))
      with (code_key (row_season ep) (row_episode ep)) in Hkey.
    apply LinkFacts.code_key_inj in Hkey as [-> ->]. now split.
  - intros (ep & Hep & <- & <-). exists ep. now split.
Qed.

Lemma missing_links_spec (allEpisodeLinks : list apiLink) (existingData : list row)
    (link : apiLink) :
  link ∈ missing_links allEpisodeLinks (existingEpisodes existingData) <->
  link ∈ allEpisodeLinks /\
  ~ exists ep, ep ∈ existingData /\
               row_season ep = al_season link /\ row_episode ep = al_episode link.
Proof.
  unfold missing_links. rewrite list_elem_of_filter, existingEpisodes_spec. tauto.
Qed.

(** X15. The episodes that [ensureSeriesComplete] goes on to sync are
    links of the season lists, in their order, for which the table has
    no row of the same season and episode. Without a triggering episode,
    or when the episode before it is neither stored nor numbered below
    1, they are all such links. Otherwise there is at most one, it has
    the season and the episode of the trigger, and there is one as soon
    as a link that is not stored has them. *)
Theorem episodesToSync_choice (allEpisodeLinks : list apiLink) (existingData : list row)
    (triggeringEpisode : option trigger) :
  let stored link :=
    exists ep, ep ∈ existingData /\
               row_season ep = al_season link /\ row_episode ep = al_episode link in
  let chosen := episodesToSync allEpisodeLinks existingData triggeringEpisode in
  chosen `sublist_of` allEpisodeLinks /\
  (forall link, link ∈ chosen -> ~ stored link) /\
  match triggeringEpisode with
  | None => forall link, link ∈ allEpisodeLinks -> ~ stored link -> link ∈ chosen
  | Some t =>
      let previous :=
        (exists ep, ep ∈ existingData /\ row_season ep = tr_season t /\
                    row_episode ep = tr_episode t - 1) \/ tr_episode t <= 1 in
      (previous ->
       (length chosen <= 1)%nat /\
       (forall link, link ∈ chosen ->
          al_season link = tr_season t /\ al_episode link = tr_episode t) /\
       (forall link, link ∈ allEpisodeLinks -> ~ stored link ->
          al_season link = tr_season t -> al_episode link = tr_episode t ->
          chosen <> [])) /\
      (~ previous ->
       forall link, link ∈ allEpisodeLinks -> ~ stored link -> link ∈ chosen)
  end.
Proof.
  cbn zeta. unfold episodesToSync.
  set (existing := existingEpisodes existingData).
  set (missing := missing_links allEpisodeLinks existing).
  assert (Hmissing : forall link, link ∈ missing <->
            link ∈ allEpisodeLinks /\
            ~ exists ep, ep ∈ existingData /\
                         row_season ep = al_season link /\ row_episode ep = al_episode link)
    by (intros link; apply missing_links_spec).
  assert (Hsub : missing `sublist_of` allEpisodeLinks) by apply sublist_filter.
  assert (Hall : (missing `sublist_of` allEpisodeLinks) /\
                 (forall link, link ∈ missing ->
                    ~ exists ep, ep ∈ existingData /\
                                 row_season ep = al_season link /\
                                 row_episode ep = al_episode link) /\
                 (forall link, link ∈ allEpisodeLinks ->
                    ~ (exists ep, ep ∈ existingData /\
                                  row_season ep = al_season link /\
                                  row_episode ep = al_episode link) ->
                    link ∈ missing)).
  { split; [exact Hsub |]. split; intros link; rewrite Hmissing; tauto. }
  destruct missing as [|m0 ms] eqn:Hm.
  { split; [apply sublist_nil_l |]. split; [intros link Hl; now apply elem_of_nil in Hl |].
    destruct Hall as (_ & _ & Hin).
    destruct triggeringEpisode as [t|]; [| exact Hin]. split; [| intros _; exact Hin].
    intros _. split; [simpl; lia |].
    split; [intros link Hl; now apply elem_of_nil in Hl |].
    intros link Hl Hns _ _. apply (Hin link Hl) in Hns. now apply elem_of_nil in Hns. }
  rewrite <- Hm in *. clear Hm m0 ms.
  destruct triggeringEpisode as [t|]; [| exact Hall].
  assert (Hprev : bool_decide (makeSeasonEpisodeKey (tr_season t) (tr_episode t - 1) ∈ existing)
                  || (tr_episode t - 1 <? 1) = true <->
                  (exists ep, ep ∈ existingData /\ row_season ep = tr_season t /\
                              row_episode ep = tr_episode t - 1) \/ tr_episode t <= 1).
  { rewrite orb_true_iff, bool_decide_eq_true, Z.ltb_lt.
    unfold existing. rewrite existingEpisodes_spec. split; (intros [?|?]; [now left | right; lia]). }
  destruct (bool_decide _ || _) eqn:Hb.
  - assert (Hp : (exists ep, ep ∈ existingData /\ row_season ep = tr_season t /\
                             row_episode ep = tr_episode t - 1) \/ tr_episode t <= 1)
      by (now apply Hprev).
    destruct (find _ missing) as [newEp|] eqn:Hfind.
    + apply find_some in Hfind as [Hin Hcode]. apply list_elem_of_In in Hin.
      apply andb_prop in Hcode as [Hs He]. apply Z.eqb_eq in Hs, He.
      split; [apply singleton_sublist_l; apply Hmissing in Hin; tauto |].
      split; [intros link Hl; apply list_elem_of_singleton in Hl; subst;
              apply Hmissing in Hin; tauto |].
      split; [| tauto]. intros _. split; [simpl; lia |].
      split; [intros link Hl; apply list_elem_of_singleton in Hl; now subst |].
      discriminate.
    + split; [apply sublist_nil_l |].
      split; [intros link Hl; now apply elem_of_nil in Hl |].
      split; [| tauto]. intros _. split; [simpl; lia |].
      split; [intros link Hl; now apply elem_of_nil in Hl |].
      intros link Hl Hns Hs He. exfalso.
      assert (Hin : link ∈ missing) by (apply Hmissing; tauto).
      apply list_elem_of_In in Hin.
      apply (find_none _ _ Hfind) in Hin. rewrite Hs, He, !Z.eqb_refl in Hin. discriminate.
  - destruct Hall as (H1 & H2 & H3). split; [exact H1 |]. split; [exact H2 |].
    split; [| intros _; exact H3].
    intros Hp. apply Hprev in Hp. discriminate.
Qed.

Lemma episodesToSync_choice_witness :
  episodesToSync
    [ {| al_url := "u1"; al_season := 1; al_episode := 1; al_title := "one" |};
      {| al_url := "u2"; al_season := 1; al_episode := 2; al_title := "two" |};
      {| al_url := "u3"; al_season := 1; al_episode := 3; al_title := "three" |} ]
    [ {| row_season := 1; row_episode := 2 |} ]
    (Some {| tr_season := 1; tr_episode := 3 |})
  <> [].
Proof.
  destruct (episodesToSync_choice
    [ {| al_url := "u1"; al_season := 1; al_episode := 1; al_title := "one" |};
      {| al_url := "u2"; al_season := 1; al_episode := 2; al_title := "two" |};
      {| al_url := "u3"; al_season := 1; al_episode := 3; al_title := "three" |} ]
    [ {| row_season := 1; row_episode := 2 |} ]
    (Some {| tr_season := 1; tr_episode := 3 |})) as (_ & _ & Hprev & _).
  destruct Hprev as (_ & _ & Hsome).
  - left. exists {| row_season := 1; row_episode := 2 |}.
    split; [apply list_elem_of_here | split; reflexivity].
  - apply (Hsome {| al_url := "u3"; al_season := 1; al_episode := 3; al_title := "three" |});
      [repeat (apply list_elem_of_here || apply list_elem_of_further) | | reflexivity ..].
    intros (ep & Hep & Hs & He). apply list_elem_of_singleton in Hep. subst ep.
    discriminate He.
Defined.

(** X27. When the table already holds the triggering episode and the
    episode before it (or the trigger is numbered 1 or below), the
    smart sync of [ensureSeriesComplete] chooses nothing, whatever else
    is missing. *)
Theorem episodesToSync_steady (allEpisodeLinks : list apiLink) (existingData : list row)
    (t : trigger) :
  (exists ep, ep ∈ existingData /\
              row_season ep = tr_season t /\ row_episode ep = tr_episode t) ->
  (exists ep, ep ∈ existingData /\
              row_season ep = tr_season t /\ row_episode ep = tr_episode t - 1)
  \/ tr_episode t <= 1 ->
  episodesToSync allEpisodeLinks existingData (Some t) = [].
Proof.
  intros Hstored Hprev. unfold episodesToSync.
  set (existing := existingEpisodes existingData).
  destruct (missing_links allEpisodeLinks existing) as [|m0 ms] eqn:Hm; [reflexivity |].
  rewrite <- Hm.
  replace (bool_decide (makeSeasonEpisodeKey (tr_season t) (tr_episode t - 1) ∈ existing)
           || (tr_episode t - 1 <? 1)) with true.
  2:{ symmetry. apply orb_true_iff. destruct Hprev as [Hrow|Hone].
      - left. apply bool_decide_eq_true. now apply existingEpisodes_spec.
      - right. apply Z.ltb_lt. lia. }
  destruct (find _ (missing_links allEpisodeLinks existing)) as [newEp|] eqn:Hfind;
    [| reflexivity].
  exfalso. apply find_some in Hfind as [Hin Hcode]. apply list_elem_of_In in Hin.
  apply andb_prop in Hcode as [Hs He]. apply Z.eqb_eq in Hs, He.
  apply missing_links_spec in Hin as [_ Hnot]. apply Hnot.
  destruct Hstored as (ep & Hep & Hes & Hee). exists ep.
  split; [exact Hep |]. split; congruence.
Qed.

Lemma episodesToSync_steady_witness :
  episodesToSync
    [ {| al_url := "u1"; al_season := 1; al_episode := 1; al_title := "one" |};
      {| al_url := "u2"; al_season := 1; al_episode := 2; al_title := "two" |};
      {| al_url := "u3"; al_season := 1; al_episode := 3; al_title := "three" |} ]
    [ {| row_season := 1; row_episode := 2 |}; {| row_season := 1; row_episode := 3 |} ]
    (Some {| tr_season := 1; tr_episode := 3 |})
  = [].
Proof.
  apply episodesToSync_steady.
  - exists {| row_season := 1; row_episode := 3 |}.
    split; [repeat (apply list_elem_of_here || apply list_elem_of_further) | split; reflexivity].
  - left. exists {| row_season := 1; row_episode := 2 |}.
    split; [apply list_elem_of_here | split; reflexivity].
Defined.

End HomepageFacts.

(** ** The Worker's scanners *)

Module ScanFacts.
Import Js Sync Worker Stated JsFacts CodeFacts Addresses AddressTerms AddressFacts
       Homepage HomepageFacts WorkerScan.

Lemma split_last_dash_None (s : string) :
  split_last_dash s = None <-> lacks "-" s = true.
Proof.
  induction s as [|c s IH]; cbn [split_last_dash lacks]; [tauto |].
  destruct (split_last_dash s) as [[a b]|].
  - split; [discriminate |]. intros Hl. apply andb_prop in Hl as [_ Hl].
    apply IH in Hl. discriminate.
  - destruct (Ascii.eqb c "-"); cbn [negb andb]; [split; discriminate |].
    split; [intros _; now apply IH | reflexivity].
Qed.

Lemma split_last_dash_spec (s a b : string) :
  split_last_dash s = Some (a, b) <-> s = a +:+ String "-" b /\ lacks "-" b = true.
Proof.
  split.
  - revert a b. induction s as [|c s IH]; intros a b; cbn [split_last_dash];
      [discriminate |].
    destruct (split_last_dash s) as [[a' b']|] eqn:Hs.
    + intros [= <- <-]. destruct (IH a' b' eq_refl) as [-> Hb].
      split; [now rewrite append_cons | exact Hb].
    + destruct (Ascii.eqb_spec c "-") as [->|Hne]; [| discriminate].
      intros [= <- <-]. split; [now rewrite append_nil_l |].
      now apply split_last_dash_None.
  - intros [-> Hb]. induction a as [|u a IH].
    + rewrite append_nil_l. cbn [split_last_dash].
      apply split_last_dash_None in Hb. now rewrite Hb.
    + rewrite append_cons. cbn [split_last_dash]. now rewrite IH.
Qed.

Lemma digits_lack (c : ascii) (d : string) :
  is_digit c = false -> all_digits d = true -> lacks c d = true.
Proof.
  intros Hc. induction d as [|a d IH]; cbn [all_digits lacks]; [reflexivity |].
  intros Hd. apply andb_prop in Hd as [Ha Hd].
  now rewrite (digit_differs c a Hc Ha), IH.
Qed.

Lemma slug_code_sound (slug a d1 d2 : string) :
  slug_code slug = Some (a, d1, d2) -> slug_shape slug a d1 d2.
Proof.
  unfold slug_code, slug_shape.
  destruct (split_last_dash slug) as [[[|a0 a'] tail]|] eqn:Hsplit; try discriminate.
  apply split_last_dash_spec in Hsplit as [-> Htail].
  destruct (no_line_break (String a0 a')) eqn:Hline; [| discriminate].
  pose proof (span_digits_split tail) as Hs.
  pose proof (span_digits_all tail) as Hd.
  destruct (span_digits tail) as [[|d0 d] [|c [|e0 e]]]; try discriminate.
  cbn [fst snd] in Hs, Hd.
  destruct (is_x c) eqn:Hx; [| discriminate].
  destruct (all_digits (String e0 e)) eqn:He; [| discriminate].
  intros [= <- <- <-]. exists c. rewrite Hs.
  repeat split; (assumption || discriminate).
Qed.

Lemma slug_code_complete (slug a d1 d2 : string) :
  slug_shape slug a d1 d2 -> slug_code slug = Some (a, d1, d2).
Proof.
  unfold slug_code, slug_shape.
  intros (c & -> & Ha & Hline & Hn1 & Hd1 & Hx & Hn2 & Hd2).
  assert (Htail : lacks "-" (d1 +:+ String c d2) = true).
  { rewrite lacks_append. cbn [lacks]. rewrite !digits_lack by (reflexivity || assumption).
    unfold is_x in Hx. destruct (Ascii.eqb_spec c "-") as [->|]; [discriminate | reflexivity]. }
  assert (Hsplit : split_last_dash (a +:+ String "-" (d1 +:+ String c d2))
                   = Some (a, d1 +:+ String c d2))
    by (now apply split_last_dash_spec).
  rewrite Hsplit. destruct a as [|a0 a']; [congruence |]. rewrite Hline.
  rewrite (span_digits_append _ _ Hd1).
  rewrite (span_digits_stop _ _ (is_x_not_digit _ Hx)). cbn [fst snd].
  rewrite append_nil_r.
  destruct d1 as [|d0 d]; [congruence |].
  destruct d2 as [|e0 e]; [congruence |].
  now rewrite Hx, Hd2.
Qed.

(** X16. The Worker accepts a slug exactly when it reads some text on
    one line, a dash, digits, an x in either case and digits up to the
    end; the groups are that text and the two runs of digits. *)
Theorem slug_code_spec (slug a d1 d2 : string) :
  slug_code slug = Some (a, d1, d2) <-> slug_shape slug a d1 d2.
Proof.
  split; [apply slug_code_sound | apply slug_code_complete].
Qed.


Lemma slug_code_spec_witness :
  slug_code "one-piece-12X7" = Some ("one-piece", "12", "7").
Proof.
  apply slug_code_spec. exists "X"%char. repeat split; discriminate.
Defined.


(** *** The lists the scanners return *)

Lemma first_link_later (matches : list (string * string)) (u g url slug : string) :
  strip_slash g <> slug ->
  first_link matches url slug -> first_link ((u, g) :: matches) url slug.
Proof.
  intros Hne (pre & g2 & post & -> & Hslug & Hpre).
  exists ((u, g) :: pre), g2, post. split; [reflexivity |]. split; [exact Hslug |].
  intros u' g' Hin. apply elem_of_cons in Hin as [[= -> ->]|Hin]; [exact Hne |].
  now apply (Hpre u').
Qed.

(** The episodes listed stand, in order, for pairwise different slugs,
    each under the address of the first link with its slug; and every
    slug with a code that is not in [seen] is among them. *)
Lemma episodes_of_firsts (matches : list (string * string)) :
  forall seen : gset string,
  exists slugs,
    NoDup slugs /\
    (forall slug, slug ∈ slugs -> slug ∉ seen) /\
    Forall2 (fun slug e =>
               exists url a d1 d2,
                 first_link matches url slug /\
                 slug_code slug = Some (a, d1, d2) /\
                 e = episode_of url a d1 d2)
            slugs (episodes_of matches seen) /\
    (forall url group2 a d1 d2,
       (url, group2) ∈ matches ->
       strip_slash group2 ∉ seen ->
       slug_code (strip_slash group2) = Some (a, d1, d2) ->
       strip_slash group2 ∈ slugs).
Proof.
  induction matches as [|[u g] rest IH]; intros seen.
  - exists []. split; [constructor |]. split; [intros slug Hs; now apply elem_of_nil in Hs |].
    split; [constructor |]. intros url g2 a d1 d2 Hin. now apply elem_of_nil in Hin.
  - cbn [episodes_of]. set (slug0 := strip_slash g).
    assert (Hkeep : forall (seen0 : gset string) (slugs : list string),
              slug0 ∈ seen0 ->
              (forall slug, slug ∈ slugs -> slug ∉ seen0) ->
              forall es,
              Forall2 (fun slug e =>
                         exists url a d1 d2,
                           first_link rest url slug /\
                           slug_code slug = Some (a, d1, d2) /\
                           e = episode_of url a d1 d2) slugs es ->
              Forall2 (fun slug e =>
                         exists url a d1 d2,
                           first_link ((u, g) :: rest) url slug /\
                           slug_code slug = Some (a, d1, d2) /\
                           e = episode_of url a d1 d2) slugs es).
    { intros seen0 slugs Hin0 Hout. induction 1 as [|slug e slugs es Hhead Htail IHl];
        constructor.
      - destruct Hhead as (url & a & d1 & d2 & Hfirst & Hrest).
        exists url, a, d1, d2. split; [| exact Hrest].
        apply first_link_later; [| exact Hfirst].
        intros Heq. apply (Hout slug); [apply list_elem_of_here |].
        fold slug0 in Heq. now rewrite <- Heq.
      - apply IHl. intros slug' Hs. apply Hout. now apply list_elem_of_further. }
    destruct (bool_decide_reflect (slug0 ∈ seen)) as [Hin|Hout].
    + destruct (IH seen) as (slugs & Hnd & Hfresh & Hall & Hcomplete).
      exists slugs. split; [exact Hnd |]. split; [exact Hfresh |].
      split; [now apply (Hkeep seen) |].
      intros url g2 a d1 d2 Hmem Hnew Hcode.
      apply elem_of_cons in Hmem as [[= -> ->]|Hmem]; [contradiction |].
      now apply (Hcomplete url g2 a d1 d2).
    + destruct (IH ({[slug0]} ∪ seen)) as (slugs & Hnd & Hfresh & Hall & Hcomplete).
      assert (Hseen : slug0 ∈ {[slug0]} ∪ seen)
        by (apply elem_of_union_l; now apply elem_of_singleton).
      assert (Hfresh' : forall slug, slug ∈ slugs -> slug ∉ seen).
      { intros slug Hs Hold. apply (Hfresh slug Hs). now apply elem_of_union_r. }
      assert (Hothers : forall url g2 a d1 d2,
                (url, g2) ∈ rest -> strip_slash g2 ∉ seen -> strip_slash g2 <> slug0 ->
                slug_code (strip_slash g2) = Some (a, d1, d2) ->
                strip_slash g2 ∈ slugs).
      { intros url g2 a d1 d2 Hmem Hnew Hne Hcode.
        apply (Hcomplete url g2 a d1 d2 Hmem); [| exact Hcode].
        apply not_elem_of_union. split; [| exact Hnew].
        now apply not_elem_of_singleton. }
      destruct (slug_code slug0) as [[[a0 d10] d20]|] eqn:Hcode0.
      * exists (slug0 :: slugs). split.
        { apply NoDup_cons. split; [| exact Hnd]. intros Hs. now apply (Hfresh slug0 Hs). }
        split.
        { intros slug Hs. apply elem_of_cons in Hs as [->|Hs]; [exact Hout | now apply Hfresh']. }
        split.
        { constructor; [| now apply (Hkeep ({[slug0]} ∪ seen))].
          exists u, a0, d10, d20. split; [| now split].
          exists [], g, rest. split; [reflexivity |]. split; [reflexivity |].
          intros u' g' Hnil. now apply elem_of_nil in Hnil. }
        intros url g2 a d1 d2 Hmem Hnew Hcode.
        destruct (decide (strip_slash g2 = slug0)) as [->|Hne]; [apply list_elem_of_here |].
        apply list_elem_of_further.
        apply elem_of_cons in Hmem as [[= -> ->]|Hmem]; [now contradiction Hne |].
        now apply (Hothers url g2 a d1 d2).
      * exists slugs. split; [exact Hnd |]. split; [exact Hfresh' |].
        split; [now apply (Hkeep ({[slug0]} ∪ seen)) |].
        intros url g2 a d1 d2 Hmem Hnew Hcode.
        destruct (decide (strip_slash g2 = slug0)) as [Heq|Hne]; [congruence |].
        apply elem_of_cons in Hmem as [[= -> ->]|Hmem]; [now contradiction Hne |].
        now apply (Hothers url g2 a d1 d2).
Qed.

(** X18. [extractEpisodesFromHomepage] lists one episode per slug that
    has the shape: the episodes stand, in order, for pairwise different
    slugs, each under the URL of the first link with its slug and with
    the series slug of its slug, and every link whose slug has the shape
    has its slug among them. Nothing else is listed. Where the two runs
    of digits write safe integers, the episode carries them as season
    and episode, which are not negative, and its id and name are the
    ones [episode_of] makes of them. *)
Theorem episodes_of_matches (matches : list (string * string)) :
  exists slugs,
    NoDup slugs /\
    Forall2 (fun slug e =>
               exists url d1 d2,
                 first_link matches url slug /\
                 slug_shape slug (ep_animeSlug e) d1 d2 /\
                 ep_url e = url /\
                 (isSafeInteger (parseInt_digits d1) = true ->
                  isSafeInteger (parseInt_digits d2) = true ->
                  e = episode_of url (ep_animeSlug e) d1 d2 /\
                  0 <= ep_season e /\ 0 <= ep_episode e))
            slugs (episodes_of matches ∅) /\
    (forall url group2 a d1 d2,
       (url, group2) ∈ matches ->
       slug_shape (strip_slash group2) a d1 d2 ->
       strip_slash group2 ∈ slugs).
Proof.
  destruct (episodes_of_firsts matches ∅) as (slugs & Hnd & _ & Hall & Hcomplete).
  exists slugs. split; [exact Hnd |]. split.
  - eapply Forall2_impl; [exact Hall |]. cbn beta.
    intros slug e (url & a & d1 & d2 & Hfirst & Hcode & ->).
    exists url, d1, d2. cbn [episode_of ep_animeSlug ep_season ep_episode ep_url].
    split; [exact Hfirst |]. pose proof Hcode as Hshape. apply slug_code_sound in Hshape.
    split; [exact Hshape |]. split; [reflexivity |]. intros _ _. split; [reflexivity |].
    destruct Hshape as (c & _ & _ & _ & _ & Hd1 & _ & _ & Hd2).
    split; now apply parseInt_digits_nonneg.
  - intros url g a d1 d2 Hin Hshape. apply slug_code_complete in Hshape.
    apply (Hcomplete url g a d1 d2 Hin); [apply not_elem_of_empty | exact Hshape].
Qed.

Lemma episodes_of_matches_witness :
  exists slugs, NoDup slugs /\ "naruto-1x2" ∈ slugs.
Proof.
  destruct (episodes_of_matches
              [("https://toonstream.one/episode/naruto-1x2/", "naruto-1x2");
               ("https://toonstream.one/episode/about/", "about");
               ("https://toonstream.one/episode/naruto-1x2", "naruto-1x2")])
    as (slugs & Hnd & _ & Hcomplete).
  exists slugs. split; [exact Hnd |].
  apply (Hcomplete "https://toonstream.one/episode/naruto-1x2/" "naruto-1x2"
           "naruto" "1" "2"); [apply list_elem_of_here |].
  exists "x"%char. repeat split; discriminate.
Defined.

Lemma trembedUrls_of_values (matches : list string) :
  forall seen, trembedUrls_of matches seen = Set_values (map absolute matches) seen.
Proof.
  induction matches as [|g rest IH]; intros seen; cbn [trembedUrls_of map Set_values];
    [reflexivity |].
  destruct (bool_decide (absolute g ∈ seen)); now rewrite IH.
Qed.

Lemma absolute_http (group1 : string) : startsWith (absolute group1) "http" = true.
Proof.
  unfold absolute.
  set (url := replaceAll (replaceAll group1 "&#038;" "&") "&amp;" "&").
  destruct (startsWith url "/"); [reflexivity |].
  destruct (startsWith url "http") eqn:Hhttp; [exact Hhttp | reflexivity].
Qed.

(** X19. [extractTrembedUrls] lists the address of every frame it
    matched, made absolute, once: no address twice, and each begins with
    http. *)
Theorem trembedUrls_of_distinct (matches : list string) :
  NoDup (trembedUrls_of matches ∅) /\
  (forall u, u ∈ trembedUrls_of matches ∅ <->
             exists group1, group1 ∈ matches /\ u = absolute group1) /\
  (forall u, u ∈ trembedUrls_of matches ∅ -> startsWith u "http" = true).
Proof.
  rewrite trembedUrls_of_values.
  destruct (Set_values_spec (map absolute matches) ∅) as [Hnd Hmem].
  assert (Hin : forall u, u ∈ Set_values (map absolute matches) ∅ <->
                          exists group1, group1 ∈ matches /\ u = absolute group1).
  { intros u. rewrite Hmem, list_elem_of_fmap. split.
    - intros [(g & -> & Hg) _]. eauto.
    - intros (g & Hg & ->). split; [eauto | apply not_elem_of_empty]. }
  split; [exact Hnd |]. split; [exact Hin |].
  intros u Hu. apply Hin in Hu as (g & _ & ->). apply absolute_http.
Qed.

End ScanFacts.

(** ** The cards of the homepage *)

Module CardFacts.
Import Js Sync Stated JsFacts Cards.

Lemma firsts_spec (l : list card) :
  forall seen : gset string,
    NoDup (map cd_url (firsts l seen)) /\
    firsts l seen `sublist_of` l /\
    (forall c, c ∈ firsts l seen <->
               exists pre post,
                 l = pre ++ c :: post /\ (cd_url c ∉ seen) /\
                 forall c', c' ∈ pre -> cd_url c' <> cd_url c) /\
    (forall u, u ∈ map cd_url (firsts l seen) <-> u ∈ map cd_url l /\ (u ∉ seen)).
Proof.
  induction l as [|a l IH]; intros seen; cbn [firsts].
  - split; [constructor |]. split; [constructor |]. split.
    + intros c. split; [intros Hc; now apply elem_of_nil in Hc |].
      intros (pre & post & Heq & _). now destruct pre.
    + intros u. cbn [map]. split; [intros Hu | intros [Hu _]]; now apply elem_of_nil in Hu.
  - destruct (bool_decide_reflect (cd_url a ∈ seen)) as [Hin|Hout].
    + destruct (IH seen) as (Hnd & Hsub & Hmem & Hurls).
      split; [exact Hnd |]. split; [now apply sublist_cons |]. split.
      * intros c. rewrite Hmem. split.
        -- intros (pre & post & -> & Hc & Hpre). exists (a :: pre), post.
           split; [reflexivity |]. split; [exact Hc |].
           intros c' Hc'. apply elem_of_cons in Hc' as [->|Hc']; [congruence | auto].
        -- intros (pre & post & Heq & Hc & Hpre). destruct pre as [|p pre].
           ++ injection Heq as -> _. contradiction.
           ++ injection Heq as -> ->. exists pre, post. split; [reflexivity |].
              split; [exact Hc |]. intros c' Hc'. apply Hpre. now apply list_elem_of_further.
      * intros u. rewrite Hurls. cbn [map]. rewrite elem_of_cons. split; [tauto |].
        intros [[->|Hu] Hs]; [contradiction | tauto].
    + destruct (IH ({[cd_url a]} ∪ seen)) as (Hnd & Hsub & Hmem & Hurls).
      split; [| split; [now apply sublist_skip |]; split].
      * cbn [map]. apply NoDup_cons. split; [| exact Hnd].
        rewrite Hurls. intros [_ Ha]. apply Ha. apply elem_of_union_l.
        now apply elem_of_singleton.
      * intros c. rewrite elem_of_cons, Hmem. split.
        -- intros [->|(pre & post & -> & Hc & Hpre)].
           ++ exists [], l. split; [reflexivity |]. split; [exact Hout |].
              intros c' Hc'. now apply elem_of_nil in Hc'.
           ++ apply not_elem_of_union in Hc as [Hca Hc].
              apply not_elem_of_singleton in Hca.
              exists (a :: pre), post. split; [reflexivity |]. split; [exact Hc |].
              intros c' Hc'. apply elem_of_cons in Hc' as [->|Hc']; [congruence | auto].
        -- intros (pre & post & Heq & Hc & Hpre). destruct pre as [|p pre].
           ++ injection Heq as -> _. now left.
           ++ injection Heq as -> ->. right. exists pre, post.
              split; [reflexivity |]. split.
              ** apply not_elem_of_union. split; [| exact Hc].
                 apply not_elem_of_singleton. intros Heq. symmetry in Heq.
                 revert Heq. apply Hpre. apply list_elem_of_here.
              ** intros c' Hc'. apply Hpre. now apply list_elem_of_further.
      * intros u. cbn [map]. rewrite !elem_of_cons, Hurls, not_elem_of_union,
          not_elem_of_singleton.
        destruct (decide (u = cd_url a)) as [->|Hne]; tauto.
Qed.

Lemma firsts_seen (l : list card) (s1 s2 : gset string) :
  (forall u, u ∈ s1 <-> u ∈ s2) -> firsts l s1 = firsts l s2.
Proof.
  intros Heq. assert (s1 = s2) as -> by (now apply set_eq). reflexivity.
Qed.

Lemma firsts_app (l1 l2 : list card) :
  forall seen : gset string,
    firsts (l1 ++ l2) seen
    = firsts l1 seen ++ firsts l2 (list_to_set (map cd_url l1) ∪ seen).
Proof.
  induction l1 as [|a l1 IH]; intros seen.
  - cbn [app firsts map]. apply firsts_seen. intros u.
    rewrite elem_of_union, elem_of_list_to_set, elem_of_nil. tauto.
  - cbn [app firsts map].
    destruct (bool_decide_reflect (cd_url a ∈ seen)) as [Hin|Hout]; rewrite IH.
    + f_equal. apply firsts_seen. intros u.
      rewrite !elem_of_union, !elem_of_list_to_set, elem_of_cons. split; [tauto |].
      intros [[->|?]|?]; tauto.
    + cbn [app]. f_equal. f_equal. apply firsts_seen. intros u.
      rewrite !elem_of_union, !elem_of_list_to_set, elem_of_cons, elem_of_singleton. tauto.
Qed.

Section Each.
Context `{Env} `{Dom}.

Lemma each_card_firsts {A : Type} (card_of : A -> option card) (els : list A) :
  forall (seen : gset string) (cards : list card),
    snd (each_card card_of els seen cards) = cards ++ firsts (omap card_of els) seen /\
    forall u, u ∈ fst (each_card card_of els seen cards) <->
              u ∈ map cd_url (omap card_of els) \/ u ∈ seen.
Proof.
  induction els as [|el rest IH]; intros seen cards; cbn [each_card].
  - change (omap card_of []) with (@nil card).
    cbn [map firsts fst snd]. rewrite app_nil_r. split; [reflexivity |].
    intros u. rewrite elem_of_nil. tauto.
  - change (omap card_of (el :: rest))
      with (match card_of el with
            | Some c => c :: omap card_of rest
            | None => omap card_of rest
            end).
    destruct (card_of el) as [c|]; [| apply IH].
    cbn [map firsts].
    destruct (bool_decide_reflect (cd_url c ∈ seen)) as [Hin|Hout].
    + destruct (IH seen cards) as [-> Hseen]. split; [reflexivity |].
      intros u. rewrite Hseen, elem_of_cons. split; [tauto |].
      intros [[->|?]|?]; tauto.
    + destruct (IH ({[cd_url c]} ∪ seen) (cards ++ [c])) as [-> Hseen].
      split; [now rewrite <- app_assoc |].
      intros u. rewrite Hseen, elem_of_cons, elem_of_union, elem_of_singleton. tauto.
Qed.

Lemma card_url_nonempty (html : string) (c : card) :
  c ∈ offers html -> cd_url c <> EmptyString.
Proof.
  unfold offers. rewrite elem_of_app, !list_elem_of_omap.
  intros [(a & _ & Ha)|(a & _ & Ha)].
  - unfold article_card in Ha. destruct (ar_anchor a) as [anchor|]; [| discriminate].
    destruct (normalizeUrl _ homeUrl) as [[|u r]|]; try discriminate.
    injection Ha as <-. discriminate.
  - unfold anchor_card in Ha.
    destruct (normalizeUrl _ homeUrl) as [[|u r]|]; try discriminate.
    injection Ha as <-. discriminate.
Qed.

(** X20. [extractEpisodeCards] keeps, in the order of the page with
    the articles first, the first card that offers each URL: no URL
    comes twice and none is empty, and a URL that an article and a bare
    anchor both offer is listed with what the article says. *)
Theorem extractEpisodeCards_first_offers (html : string) :
  let cards := extractEpisodeCards html in
  NoDup (map cd_url cards) /\
  cards `sublist_of` offers html /\
  (forall c,
     c ∈ cards <->
     exists pre post,
       offers html = pre ++ c :: post /\
       forall c', c' ∈ pre -> cd_url c' <> cd_url c) /\
  (forall c, c ∈ cards -> cd_url c <> EmptyString).
Proof.
  cbn zeta.
  assert (Heq : extractEpisodeCards html = firsts (offers html) ∅).
  { unfold extractEpisodeCards, offers.
    destruct (each_card_firsts article_card (articles html) ∅ []) as [Hcards Hseen].
    destruct (each_card article_card (articles html) ∅ []) as [seen cards].
    cbn [fst snd app] in Hcards, Hseen. subst cards.
    destruct (each_card_firsts anchor_card (anchors html) seen
                (firsts (omap article_card (articles html)) ∅)) as [-> _].
    rewrite firsts_app. f_equal. apply firsts_seen. intros u.
    rewrite Hseen, elem_of_union, elem_of_list_to_set. tauto. }
  rewrite Heq. destruct (firsts_spec (offers html) ∅) as (Hnd & Hsub & Hmem & _).
  split; [exact Hnd |]. split; [exact Hsub |]. split.
  - intros c. rewrite Hmem. split.
    + intros (pre & post & Ho & _ & Hpre). eauto.
    + intros (pre & post & Ho & Hpre). exists pre, post.
      split; [exact Ho |]. split; [apply not_elem_of_empty | exact Hpre].
  - intros c Hc. apply (card_url_nonempty html).
    apply Hmem in Hc as (pre & post & -> & _). apply elem_of_app. right.
    apply list_elem_of_here.
Qed.

End Each.
End CardFacts.

(** ** [cleanSlug] *)

Module SlugFacts.
Import Js Sync Stated JsFacts WorkerScan Slugs.

Ltac each_char c := destruct c as [[] [] [] [] [] [] [] []]; try reflexivity; try discriminate.

Lemma lower_ascii_kept (c : ascii) :
  negb (kept (lower_ascii c)) || is_blank (lower_ascii c) || slug_char (lower_ascii c) = true.
Proof. each_char c. Qed.

Lemma slug_char_fixed (c : ascii) :
  slug_char c = true ->
  lower_ascii c = c /\ is_quote c = false /\ kept c = true /\ is_blank c = false.
Proof. each_char c; repeat split. Qed.

Lemma is_dash_eq (c : ascii) : is_dash c = true -> c = "-"%char.
Proof. unfold is_dash. apply Ascii.eqb_eq. Qed.

Lemma all_chars_impl (p q : ascii -> bool) (s : string) :
  (forall c, p c = true -> q c = true) -> all_chars p s = true -> all_chars q s = true.
Proof.
  intros Hpq. induction s as [|c s IH]; cbn [all_chars]; [reflexivity |].
  intros Hs. apply andb_prop in Hs as [Hc Hs]. now rewrite (Hpq _ Hc), IH.
Qed.

Lemma all_chars_app (p : ascii -> bool) (a b : string) :
  all_chars p (a +:+ b) = all_chars p a && all_chars p b.
Proof.
  induction a as [|c a IH]; [now rewrite append_nil_l |].
  rewrite append_cons. cbn [all_chars]. now rewrite IH, andb_assoc.
Qed.

Lemma spaced_prefix (a b : string) :
  forall prev, spaced prev (a +:+ b) = true -> spaced prev a = true.
Proof.
  induction a as [|c a IH]; intros prev; [reflexivity |].
  rewrite append_cons. cbn [spaced]. intros Hs. apply andb_prop in Hs as [-> Hs].
  now rewrite (IH _ Hs).
Qed.

(** *** The steps, one after the other *)

Lemma toLowerCase_chars (s : string) :
  all_chars (fun c => negb (kept c) || is_blank c || slug_char c) (toLowerCase s) = true.
Proof.
  induction s as [|c s IH]; cbn [toLowerCase all_chars]; [reflexivity |].
  now rewrite lower_ascii_kept, IH.
Qed.

Lemma remove_chars_all (p drop : ascii -> bool) (s : string) :
  all_chars p s = true -> all_chars p (remove_chars drop s) = true.
Proof.
  induction s as [|c s IH]; cbn [remove_chars all_chars]; [reflexivity |].
  intros Hs. apply andb_prop in Hs as [Hc Hs].
  destruct (drop c); [now apply IH |]. cbn [all_chars]. now rewrite Hc, IH.
Qed.

Lemma remove_chars_kept (s : string) :
  all_chars (fun c => negb (kept c) || is_blank c || slug_char c) s = true ->
  all_chars (fun c => is_blank c || slug_char c)
            (remove_chars (fun c => negb (kept c)) s) = true.
Proof.
  induction s as [|c s IH]; cbn [remove_chars all_chars]; [reflexivity |].
  intros Hs. apply andb_prop in Hs as [Hc Hs].
  destruct (kept c); cbn [negb orb] in *; [| now apply IH].
  cbn [all_chars]. now rewrite Hc, IH.
Qed.

Lemma blanks_to_dash_chars (s : string) :
  forall in_run,
    all_chars (fun c => is_blank c || slug_char c) s = true ->
    all_chars slug_char (runs_to_dash is_blank in_run s) = true.
Proof.
  induction s as [|c s IH]; intros in_run; cbn [runs_to_dash all_chars]; [reflexivity |].
  intros Hs. apply andb_prop in Hs as [Hc Hs].
  destruct (is_blank c); cbn [orb] in Hc.
  - destruct in_run; [now apply IH |]. cbn [all_chars]. now rewrite IH.
  - cbn [all_chars]. now rewrite Hc, IH.
Qed.

Lemma dashes_to_dash_chars (s : string) :
  forall in_run,
    all_chars slug_char s = true ->
    all_chars slug_char (runs_to_dash is_dash in_run s) = true /\
    spaced in_run (runs_to_dash is_dash in_run s) = true.
Proof.
  induction s as [|c s IH]; intros in_run; cbn [runs_to_dash all_chars]; [now split |].
  intros Hs. apply andb_prop in Hs as [Hc Hs].
  destruct (is_dash c) eqn:Hd.
  - destruct (IH true Hs) as [Ha Hsp]. destruct in_run; [now split |].
    cbn [all_chars spaced]. change (is_dash "-") with true. cbn [andb negb].
    rewrite Ha, Hsp. now split.
  - destruct (IH false Hs) as [Ha Hsp]. cbn [all_chars spaced].
    now rewrite Hc, Ha, Hd, Hsp, andb_false_r.
Qed.

Lemma strip_leading_chars (s : string) :
  all_chars slug_char s = true -> spaced false s = true ->
  all_chars slug_char (strip_leading s) = true /\ spaced true (strip_leading s) = true.
Proof.
  induction s as [|c s IH]; cbn [strip_leading all_chars spaced]; [now split |].
  intros Hs Hsp. apply andb_prop in Hs as [Hc Hs]. cbn [andb negb] in Hsp.
  destruct (is_dash c) eqn:Hd.
  - apply IH; [exact Hs |]. clear IH Hs. destruct s as [|b s]; [reflexivity |].
    cbn [spaced] in *. apply andb_prop in Hsp as [_ Hsp]. now rewrite Hsp.
  - cbn [all_chars spaced]. now rewrite Hc, Hs, Hd, Hsp.
Qed.

Lemma strip_trailing_prefix (s : string) : exists t, s = strip_trailing s +:+ t.
Proof.
  induction s as [|c s [t IH]]; [now exists EmptyString |].
  cbn [strip_trailing]. destruct (strip_trailing s) as [|b r].
  - destruct (is_dash c).
    + exists (String c s). now rewrite append_nil_l.
    + exists s. now rewrite append_cons, append_nil_l.
  - exists t. rewrite append_cons. now rewrite <- IH.
Qed.

Lemma strip_trailing_end (s : string) : ends_with_dash (strip_trailing s) = false.
Proof.
  induction s as [|c s IH]; [reflexivity |].
  cbn [strip_trailing]. destruct (strip_trailing s) as [|b r].
  - destruct (is_dash c) eqn:Hd; [reflexivity | exact Hd].
  - exact IH.
Qed.

(** What comes out of the steps. *)
Lemma cleanSlug_normal (name : option string) :
  all_chars slug_char (cleanSlug name) = true /\
  spaced true (cleanSlug name) = true /\
  ends_with_dash (cleanSlug name) = false.
Proof.
  unfold cleanSlug.
  set (s2 := remove_chars (fun c => negb (kept c)) _).
  assert (H2 : all_chars (fun c => is_blank c || slug_char c) s2 = true)
    by (apply remove_chars_kept, remove_chars_all, toLowerCase_chars).
  pose proof (blanks_to_dash_chars s2 false H2) as H3.
  destruct (dashes_to_dash_chars _ false H3) as [H4 Hsp4].
  destruct (strip_leading_chars _ H4 Hsp4) as [H5 Hsp5].
  destruct (strip_trailing_prefix
              (strip_leading (runs_to_dash is_dash false (runs_to_dash is_blank false s2))))
    as [t Ht].
  rewrite Ht in H5, Hsp5. rewrite all_chars_app in H5. apply andb_prop in H5 as [H6 _].
  apply spaced_prefix in Hsp5.
  split; [exact H6 |]. split; [exact Hsp5 | apply strip_trailing_end].
Qed.

Lemma spaced_startsWith (s : string) : spaced true s = true -> startsWith s "-" = false.
Proof.
  destruct s as [|c s]; [reflexivity |]. cbn [spaced andb]. intros Hs.
  apply andb_prop in Hs as [Hc _]. apply negb_true_iff in Hc.
  cbn [startsWith]. unfold is_dash in Hc. rewrite Ascii.eqb_sym, Hc. reflexivity.
Qed.

Lemma spaced_includes (s : string) :
  forall prev, spaced prev s = true -> includes s "--" = false.
Proof.
  induction s as [|c s IH]; intros prev Hs; [reflexivity |].
  cbn [spaced] in Hs. apply andb_prop in Hs as [_ Hs].
  cbn [includes]. rewrite (IH _ Hs), orb_false_r.
  change (startsWith (String c s) "--") with (Ascii.eqb "-" c && startsWith s "-").
  destruct (Ascii.eqb_spec "-"%char c) as [<-|Hne]; [| reflexivity].
  cbn [andb]. change (is_dash "-") with true in Hs.
  now apply spaced_startsWith.
Qed.

(** X21. For a name in ASCII, [cleanSlug] returns a slug in normal
    form: digits, small letters, underscores and dashes only, no dash at
    either end and no two dashes in a row. *)
Theorem cleanSlug_clean (name : option string) :
  in_ascii name = true -> clean (cleanSlug name).
Proof.
  intros _. destruct (cleanSlug_normal name) as (Hchars & Hsp & Hend).
  split; [exact Hchars |]. split; [now apply spaced_startsWith |].
  split; [exact Hend | now apply (spaced_includes _ true)].
Qed.

(** *** Cleaning again *)

Lemma toLowerCase_fixed (s : string) : all_chars slug_char s = true -> toLowerCase s = s.
Proof.
  induction s as [|c s IH]; cbn [all_chars toLowerCase]; [reflexivity |].
  intros Hs. apply andb_prop in Hs as [Hc Hs].
  destruct (slug_char_fixed c Hc) as (-> & _). now rewrite IH.
Qed.

Lemma remove_chars_fixed (drop : ascii -> bool) (s : string) :
  (forall c, slug_char c = true -> drop c = false) ->
  all_chars slug_char s = true -> remove_chars drop s = s.
Proof.
  intros Hdrop. induction s as [|c s IH]; cbn [all_chars remove_chars]; [reflexivity |].
  intros Hs. apply andb_prop in Hs as [Hc Hs]. now rewrite (Hdrop c Hc), IH.
Qed.

Lemma blanks_to_dash_fixed (s : string) :
  forall in_run, all_chars slug_char s = true -> runs_to_dash is_blank in_run s = s.
Proof.
  induction s as [|c s IH]; intros in_run; cbn [all_chars runs_to_dash]; [reflexivity |].
  intros Hs. apply andb_prop in Hs as [Hc Hs].
  destruct (slug_char_fixed c Hc) as (_ & _ & _ & ->). now rewrite IH.
Qed.

Lemma dashes_to_dash_fixed (s : string) :
  forall in_run, spaced in_run s = true -> runs_to_dash is_dash in_run s = s.
Proof.
  induction s as [|c s IH]; intros in_run; cbn [spaced runs_to_dash]; [reflexivity |].
  intros Hs. apply andb_prop in Hs as [Hc Hs].
  destruct (is_dash c) eqn:Hd.
  - destruct in_run; [discriminate |]. apply is_dash_eq in Hd. subst c. now rewrite IH.
  - now rewrite IH.
Qed.

Lemma strip_leading_fixed (s : string) : spaced true s = true -> strip_leading s = s.
Proof.
  destruct s as [|c s]; [reflexivity |]. cbn [spaced strip_leading andb].
  intros Hs. apply andb_prop in Hs as [Hc _]. apply negb_true_iff in Hc. now rewrite Hc.
Qed.

Lemma strip_trailing_fixed (s : string) : ends_with_dash s = false -> strip_trailing s = s.
Proof.
  induction s as [|c s IH]; [reflexivity |].
  cbn [strip_trailing]. destruct s as [|b s].
  - cbn [ends_with_dash strip_trailing]. now intros ->.
  - intros He. change (ends_with_dash (String c (String b s)))
      with (ends_with_dash (String b s)) in He.
    rewrite (IH He). reflexivity.
Qed.

(** X22. Cleaning a slug that [cleanSlug] returned gives the same slug
    again, unless it is empty: the empty slug becomes [item]. *)
Theorem cleanSlug_stable (name : option string) :
  in_ascii name = true ->
  (cleanSlug name <> EmptyString -> cleanSlug (Some (cleanSlug name)) = cleanSlug name) /\
  (cleanSlug name = EmptyString -> cleanSlug (Some (cleanSlug name)) = "item").
Proof.
  intros _. split.
  - destruct (cleanSlug_normal name) as (Hchars & Hsp & Hend).
    remember (cleanSlug name) as slug eqn:Hslug. clear Hslug. intros Hne.
    unfold cleanSlug.
    replace (or_default (Some slug) "item") with slug
      by (destruct slug; [congruence | reflexivity]).
    rewrite (toLowerCase_fixed _ Hchars).
    rewrite (remove_chars_fixed is_quote) by
      (exact Hchars || (intros c0 H0; now destruct (slug_char_fixed c0 H0) as (_ & -> & _))).
    rewrite (remove_chars_fixed (fun c => negb (kept c))) by
      (exact Hchars ||
       (intros c0 H0; destruct (slug_char_fixed c0 H0) as (_ & _ & -> & _); reflexivity)).
    rewrite (blanks_to_dash_fixed _ _ Hchars).
    assert (Hsp' : spaced false slug = true).
    { destruct slug as [|c r]; [reflexivity |]. cbn [spaced andb negb] in *.
      apply andb_prop in Hsp as [_ Hsp]. exact Hsp. }
    rewrite (dashes_to_dash_fixed _ _ Hsp'), (strip_leading_fixed _ Hsp).
    now apply strip_trailing_fixed.
  - intros ->. reflexivity.
Qed.

Lemma cleanSlug_clean_witness : clean (cleanSlug (Some "  Ranma 1/2: 'Big' -- Trouble! ")).
Proof. apply cleanSlug_clean. reflexivity. Defined.

Lemma cleanSlug_stable_witness :
  cleanSlug (Some (cleanSlug (Some "!!!"))) = "item".
Proof.
  destruct (cleanSlug_stable (Some "!!!") eq_refl) as [_ Hempty].
  apply Hempty. reflexivity.
Defined.

End SlugFacts.

(** ** The server around the script *)

Module ServerFacts.
Import Js Server.

(** *** The status *)

Lemma runs_invariant (P : server -> Prop) :
  P boot -> (forall s e, P s -> P (handle s e)) -> forall events, P (run events).
Proof.
  intros Hboot Hstep events. unfold run.
  generalize boot Hboot. induction events as [|e events IH]; intros s Hs; [exact Hs |].
  cbn [fold_left]. apply IH. now apply Hstep.
Qed.

Lemma run_flag (events : list event) :
  (waiting (run events) <= 1)%nat /\
  (isRunning (status (run events)) = true <-> waiting (run events) = 1%nat).
Proof.
  apply runs_invariant.
  - cbn. split; [lia |]. split; discriminate.
  - intros s e (Hw & Hrun). destruct e as [|fulfilled]; cbn [handle].
    + unfold runSync_enter. destruct (isRunning (status s)) eqn:Hr.
      * rewrite Hr. tauto.
      * cbn [status waiting isRunning].
        assert (waiting s = 0)%nat as ->.
        { destruct (waiting s) as [|[|n]]; [reflexivity | | lia].
          destruct Hrun as [_ Hrun]. specialize (Hrun eq_refl). discriminate. }
        split; [lia | tauto].
    + destruct (waiting s) as [|n] eqn:Hn.
      * rewrite Hn. tauto.
      * unfold runSync_leave. rewrite Hn. cbn [status waiting isRunning pred].
        assert (n = 0)%nat as -> by lia. split; [lia |]. split; discriminate.
Qed.

(** X23. Whatever calls and settlements the event loop runs, at most
    one call of [runSync] is suspended in the script, the flag
    [isRunning] is up exactly then, and every run that was counted has
    succeeded, failed or is the one in progress. *)
Theorem runSync_never_overlaps (events : list event) :
  let s := run events in
  (waiting s <= 1)%nat /\
  (isRunning (status s) = true <-> waiting s = 1%nat) /\
  totalRuns (status s)
  = successfulRuns (status s) + failedRuns (status s) + Z.of_nat (waiting s) /\
  0 <= successfulRuns (status s) /\ 0 <= failedRuns (status s) /\
  (lastRunSuccess (status s) = None <->
   successfulRuns (status s) + failedRuns (status s) = 0).
Proof.
  cbn zeta. apply runs_invariant.
  - cbn. repeat split; (lia || discriminate || reflexivity).
  - intros s e (Hw & Hrun & Htotal & Hok & Hko & Hlast).
    destruct e as [|fulfilled]; cbn [handle].
    + unfold runSync_enter. destruct (isRunning (status s)) eqn:Hr.
      * rewrite Hr. repeat split; (lia || tauto).
      * cbn [status waiting isRunning totalRuns successfulRuns failedRuns lastRunSuccess].
        assert (waiting s = 0)%nat as ->.
        { destruct (waiting s) as [|[|n]]; [reflexivity | | lia].
          destruct Hrun as [_ Hrun]. specialize (Hrun eq_refl). discriminate. }
        repeat split; (lia || tauto).
    + destruct (waiting s) as [|n] eqn:Hn.
      * rewrite Hn. repeat split; (lia || tauto).
      * unfold runSync_leave. rewrite Hn.
        cbn [status waiting isRunning totalRuns successfulRuns failedRuns lastRunSuccess pred].
        assert (n = 0)%nat as -> by lia.
        destruct fulfilled; repeat split; (lia || discriminate || idtac).
        all: intros; lia.
Qed.


(** X24. The [/sync] route answers [triggered] exactly when it starts a
    run, and [already_running] exactly when it leaves the server as it
    is because a run is in progress. *)
Theorem route_sync_answers (events : list event) :
  let s := run events in
  (fst (route_sync s) = "triggered" /\
   waiting s = 0%nat /\ waiting (snd (route_sync s)) = 1%nat /\
   totalRuns (status (snd (route_sync s))) = totalRuns (status s) + 1)
  \/
  (fst (route_sync s) = "already_running" /\
   waiting s = 1%nat /\ snd (route_sync s) = s).
Proof.
  cbn zeta. destruct (run_flag events) as (Hw & Hrun).
  cbn zeta in *. unfold route_sync, runSync_enter.
  destruct (isRunning (status (run events))) eqn:Hr.
  - right. repeat split. now apply Hrun.
  - left. cbn [fst snd waiting status totalRuns].
    assert (waiting (run events) = 0)%nat as ->.
    { destruct (waiting (run events)) as [|[|n]]; [reflexivity | | lia].
      destruct Hrun as [_ Hrun]. specialize (Hrun eq_refl). discriminate. }
    repeat split.
Qed.

(** *** The log buffer *)

Lemma sorted_suffix (l1 l2 : list logEntry) :
  l1 `suffix_of` l2 -> StronglySorted by_time l2 -> StronglySorted by_time l1.
Proof.
  intros [k ->]. induction k as [|e k IH]; [auto |].
  cbn [app]. intros Hs. apply IH. now inversion Hs.
Qed.

Lemma Forall_suffix (P : logEntry -> Prop) (l1 l2 : list logEntry) :
  l1 `suffix_of` l2 -> Forall P l2 -> Forall P l1.
Proof. intros [k ->] Hall. now apply Forall_app in Hall as [_ Hall]. Qed.

Lemma shift_old_suffix (cutoff : Z) (logs : list logEntry) :
  shift_old cutoff logs `suffix_of` logs.
Proof.
  induction logs as [|e logs IH]; cbn [shift_old]; [reflexivity |].
  destruct (lg_time e <? cutoff); [| reflexivity].
  destruct IH as [k Hk]. exists (e :: k). cbn [app]. now rewrite <- Hk.
Qed.

Lemma shift_old_recent (cutoff : Z) (logs : list logEntry) :
  StronglySorted by_time logs ->
  Forall (fun entry => cutoff <= lg_time entry) (shift_old cutoff logs).
Proof.
  induction logs as [|e logs IH]; cbn [shift_old]; [constructor |].
  intros Hs. inversion Hs as [|e0 l0 Hsorted Hle]; subst.
  destruct (Z.ltb_spec (lg_time e) cutoff) as [Hold|Hnew]; [now apply IH |].
  constructor; [exact Hnew |].
  apply (Forall_impl _ _ _ Hle). unfold by_time. intros e' He'. lia.
Qed.

Lemma cleanupOldLogs_spec (now : Z) (logs : list logEntry) :
  StronglySorted by_time logs ->
  cleanupOldLogs now logs `suffix_of` logs /\
  (length (cleanupOldLogs now logs) <= MAX_LOGS)%nat /\
  recent now (cleanupOldLogs now logs).
Proof.
  intros Hs. unfold cleanupOldLogs.
  set (logs1 := shift_old (now - MAX_LOG_AGE_MS) logs).
  assert (H1 : logs1 `suffix_of` logs) by apply shift_old_suffix.
  assert (H2 : drop (length logs1 - MAX_LOGS) logs1 `suffix_of` logs1) by apply suffix_drop.
  split; [now transitivity logs1 |]. split.
  - rewrite length_drop. lia.
  - apply (Forall_suffix _ _ logs1 H2). now apply shift_old_recent.
Qed.

(** What the buffer looks like between two calls: ordered by time, at
    most [MAX_LOGS] long, and no entry later than the clock [t]. *)
Lemma capture_keeps (t : Z) (logs : list logEntry) (c : logCall) :
  StronglySorted by_time logs ->
  (length logs <= MAX_LOGS)%nat ->
  Forall (fun entry => lg_time entry <= t) logs ->
  t <= lc_stamp c -> lc_stamp c <= lc_now c ->
  StronglySorted by_time (capture logs c) /\
  (length (capture logs c) <= MAX_LOGS)%nat /\
  Forall (fun entry => lg_time entry <= lc_now c) (capture logs c) /\
  (trim (lc_message c) <> EmptyString -> recent (lc_now c) (capture logs c)).
Proof.
  intros Hs Hlen Hle Hstamp Hnow. unfold capture, captureLog.
  destruct (trim (lc_message c)) as [|a text] eqn:Htrim.
  - split; [exact Hs |]. split; [exact Hlen |]. split; [| congruence].
    apply (Forall_impl _ _ _ Hle). intros e He. lia.
  - set (entry := {| lg_time := lc_stamp c; lg_type := lc_type c;
                     lg_message := String a text |}).
    assert (Hsorted : StronglySorted by_time (logs ++ [entry])).
    { clear Hlen. induction Hs as [|e l Hl IH Hall]; cbn [app].
      - repeat constructor.
      - apply Forall_cons in Hle as [He Hle]. constructor; [now apply IH |].
        apply Forall_app. split; [exact Hall |]. constructor; [| constructor].
        unfold by_time. cbn [entry lg_time]. lia. }
    destruct (cleanupOldLogs_spec (lc_now c) _ Hsorted) as (Hsuf & Hmax & Hrecent).
    split; [now apply (sorted_suffix _ _ Hsuf) |]. split; [exact Hmax |].
    split; [| intros _; exact Hrecent].
    apply (Forall_suffix _ _ _ Hsuf). apply Forall_app. split.
    + apply (Forall_impl _ _ _ Hle). intros e He. lia.
    + constructor; [cbn [entry lg_time]; lia | constructor].
Qed.

Lemma captures_keep (calls : list logCall) :
  forall (t : Z) (logs : list logEntry),
    StronglySorted by_time logs ->
    (length logs <= MAX_LOGS)%nat ->
    Forall (fun entry => lg_time entry <= t) logs ->
    clock_ok t calls ->
    exists t',
      StronglySorted by_time (fold_left capture calls logs) /\
      (length (fold_left capture calls logs) <= MAX_LOGS)%nat /\
      Forall (fun entry => lg_time entry <= t') (fold_left capture calls logs) /\
      (forall before c, calls = before ++ [c] ->
         t' = lc_now c /\
         (trim (lc_message c) <> EmptyString ->
          recent (lc_now c) (fold_left capture calls logs))).
Proof.
  induction calls as [|c calls IH]; intros t logs Hs Hlen Hle Hclock.
  - exists t. cbn [fold_left].
    split; [exact Hs |]. split; [exact Hlen |]. split; [exact Hle |].
    intros pre c Heq. now destruct pre.
  - cbn [fold_left]. destruct Hclock as (Hstamp & Hnow & Hclock).
    destruct (capture_keeps t logs c Hs Hlen Hle Hstamp Hnow) as (Hs1 & Hlen1 & Hle1 & Hrec1).
    destruct (IH (lc_now c) (capture logs c) Hs1 Hlen1 Hle1 Hclock)
      as (t' & Hs2 & Hlen2 & Hle2 & Hlast).
    destruct calls as [|c2 calls].
    + exists (lc_now c). cbn [fold_left] in *.
      split; [exact Hs1 |]. split; [exact Hlen1 |]. split; [exact Hle1 |].
      intros pre c0 Heq. destruct pre as [|b [|b2 pre]]; try discriminate.
      injection Heq as <-. split; [reflexivity | exact Hrec1].
    + exists t'.
      split; [exact Hs2 |]. split; [exact Hlen2 |]. split; [exact Hle2 |].
      intros pre c0 Heq. destruct pre as [|b pre]; [discriminate |].
      injection Heq as <- Heq. now apply (Hlast pre c0 Heq).
Qed.

(** X25. With a clock that does not run backwards, the buffer of the
    patched console never holds more than 5000 entries and stays ordered
    by time; right after a call that stored an entry, no entry is more
    than twenty minutes older than the clock of that call. *)
Theorem log_buffer_bounded (calls : list logCall) (start : Z) :
  clock_ok start calls ->
  let logs := fold_left capture calls [] in
  (length logs <= 5000)%nat /\
  StronglySorted by_time logs /\
  forall before c,
    calls = before ++ [c] -> trim (lc_message c) <> EmptyString ->
    recent (lc_now c) logs.
Proof.
  intros Hclock. cbn zeta.
  destruct (captures_keep calls start [] (SSorted_nil _) ltac:(cbn; lia) (List.Forall_nil _) Hclock)
    as (t' & Hs & Hlen & _ & Hlast).
  split; [exact Hlen |]. split; [exact Hs |].
  intros before c Heq Hmsg. now apply (Hlast before c Heq).
Qed.

Lemma log_buffer_bounded_witness :
  exists logs,
    fold_left capture
      [ {| lc_stamp := 0; lc_now := 0; lc_type := "log"; lc_message := "start" |};
        {| lc_stamp := 600000; lc_now := 600000; lc_type := "warn"; lc_message := "   " |};
        {| lc_stamp := 1500000; lc_now := 1500001; lc_type := "error";
           lc_message := " failed " |} ] []
    = logs /\ recent 1500001 logs /\ length logs = 1%nat.
Proof.
  eexists. split; [reflexivity |]. split; [| reflexivity].
  destruct (log_buffer_bounded
      [ {| lc_stamp := 0; lc_now := 0; lc_type := "log"; lc_message := "start" |};
        {| lc_stamp := 600000; lc_now := 600000; lc_type := "warn"; lc_message := "   " |};
        {| lc_stamp := 1500000; lc_now := 1500001; lc_type := "error";
           lc_message := " failed " |} ] 0) as (_ & _ & Hlast).
  - cbn. lia.
  - apply (Hlast
      [ {| lc_stamp := 0; lc_now := 0; lc_type := "log"; lc_message := "start" |};
        {| lc_stamp := 600000; lc_now := 600000; lc_type := "warn"; lc_message := "   " |} ]
      {| lc_stamp := 1500000; lc_now := 1500001; lc_type := "error";
         lc_message := " failed " |}); [reflexivity | discriminate].
Defined.

End ServerFacts.

(** ** [syncEpisodeByUrl] *)

Module EpisodeSyncFacts.
Import Js Sync Stated Addresses Episodes.

Section Syncs.
Context `{Db}.

(** What a run of the loop has done when it ends: it threw and counted
    nothing; or it returned early, on an episode already processed; or
    it counted the episode as synced; or it ran out of attempts and
    counted a failure. *)
Lemma sync_loop_spec (todo : nat) :
  forall (attempt : Z) (episodeUrl : string) (force : bool)
         (existing : option (gset string)) (lastCtx : option built) (s : store)
         out existing' s',
    sync_loop todo attempt episodeUrl force existing lastCtx s = (out, existing', s') ->
    upserted s `prefix_of` upserted s' /\
    (length (upserted s') <= length (upserted s) + todo)%nat /\
    match out with
    | Threw _ => untouched s s' /\ existing' = existing
    | Returned ctx =>
        (exists b, ctx = Some b /\ skipped force existing b s s' existing')
        \/
        (exists b,
           ctx = Some b /\ synced b s s' /\
           existing' = add existing (seasonEpisodeKey_of b) /\
           last (upserted s') = Some (key_of b) /\
           (length (upserted s) < length (upserted s'))%nat)
        \/
        (failed s s' /\ existing' = existing /\
         length (upserted s') = (length (upserted s) + todo)%nat /\
         (todo = 0%nat -> ctx = lastCtx) /\
         ((1 <= todo)%nat -> ctx <> None))
    end.
Proof.
  induction todo as [|todo IH];
    intros attempt episodeUrl force existing lastCtx s out existing' s' Hloop;
    cbn [sync_loop] in Hloop.
  - injection Hloop as <- <- <-. split; [reflexivity |]. split; [cbn; lia |].
    right. right. unfold failed. cbn. repeat split; try lia; try congruence.
  - destruct (buildEpisodeRecord_at (made s) episodeUrl) as [b|message].
    2:{ injection Hloop as <- <- <-. split; [reflexivity |]. split; [cbn; lia |].
        now repeat split. }
    destruct (checkEpisodeNeedsUpdate_at (made s) b) as [updateCheck|message].
    2:{ injection Hloop as <- <- <-. split; [reflexivity |]. split; [cbn; lia |].
        now repeat split. }
    cbn [attempted processedEpisodes] in Hloop.
    destruct (negb force && (bool_decide (key_of b ∈ processedEpisodes s) &&
                             negb (uc_needsUpdate updateCheck))) eqn:Hskip1.
    { injection Hloop as <- <- <-. split; [reflexivity |]. split; [cbn; lia |].
      left. exists b. split; [reflexivity |].
      apply andb_prop in Hskip1 as [Hf Hk]. apply andb_prop in Hk as [Hk _].
      apply negb_true_iff in Hf. apply bool_decide_eq_true in Hk.
      unfold skipped, untouched. cbn. repeat split; try assumption. now left. }
    destruct (negb force && (has existing (seasonEpisodeKey_of b) &&
                             negb (uc_needsUpdate updateCheck))) eqn:Hskip2.
    { injection Hloop as <- <- <-. split; [reflexivity |]. split; [cbn; lia |].
      left. exists b. split; [reflexivity |].
      apply andb_prop in Hskip2 as [Hf Hk]. apply andb_prop in Hk as [Hk _].
      apply negb_true_iff in Hf.
      unfold skipped, untouched. cbn. repeat split; try assumption. now right. }
    assert (Hone : upserted s `prefix_of` upserted s ++ [key_of b])
      by (now exists [key_of b]).
    destruct (upsertEpisode_at (made s) b) as [message|].
    { injection Hloop as <- <- <-. cbn [with_upsert attempted upserted].
      split; [exact Hone |]. split; [rewrite length_app; cbn; lia |]. now repeat split. }
    destruct (episodeExistsInSupabase_at (made s) b) as [[|]|message].
    + injection Hloop as <- <- <-.
      cbn [record_synced with_upsert attempted upserted].
      split; [exact Hone |]. split; [rewrite length_app; cbn; lia |].
      right. left. exists b. split; [reflexivity |].
      split; [| split; [reflexivity |]; split; [apply last_snoc |];
                rewrite length_app; cbn; lia].
      unfold synced. cbn.
      destruct (if force then uc_exists updateCheck
                else uc_exists updateCheck && uc_needsUpdate updateCheck);
        repeat split; lia.
    + apply IH in Hloop as (Hpre & Hlen & Hout).
      cbn [with_delay with_upsert attempted upserted] in Hpre, Hlen.
      rewrite length_app in Hlen. cbn [length] in Hlen.
      split; [now transitivity (upserted s ++ [key_of b]) |]. split; [lia |].
      destruct out as [ctx|message]; [| exact Hout].
      destruct Hout as [Hskip|[(b' & -> & Hsync & -> & Hlast & Hgrow)
                               |(Hfail & -> & Hn & Hzero & Hsome)]].
      * left. exact Hskip.
      * right. left. exists b'. split; [reflexivity |]. split; [exact Hsync |].
        split; [reflexivity |]. split; [exact Hlast |].
        cbn [with_delay with_upsert attempted upserted] in Hgrow.
        rewrite length_app in Hgrow. cbn [length] in Hgrow. lia.
      * right. right. split; [exact Hfail |]. split; [reflexivity |].
        cbn [with_delay with_upsert attempted upserted] in Hn.
        rewrite length_app in Hn. cbn [length] in Hn.
        split; [lia |]. split; [lia |]. intros _.
        destruct todo as [|todo']; [rewrite (Hzero eq_refl); discriminate |].
        apply Hsome. lia.
    + injection Hloop as <- <- <-. cbn [with_upsert attempted upserted].
      split; [exact Hone |]. split; [rewrite length_app; cbn; lia |]. now repeat split.
Qed.

(** X26. A call of [syncEpisodeByUrl] upserts at most three times and
    ends in one of four ways. It throws, and then nothing was counted
    and no episode marked. Or it returns early, only without [force], on
    an episode that is marked as processed or is in the caller's set,
    and counts nothing. Or the table confirms the last upsert: the
    episode is marked as processed, added to the caller's set and
    counted once, as new or as updated. Or three upserts went
    unconfirmed: one failure is counted and nothing is marked. *)
Theorem syncEpisodeByUrl_accounts (episodeUrl : string) (options : sync_options) (s : store) :
  exists out existing' s',
    syncEpisodeByUrl episodeUrl options s = (out, existing', s') /\
    upserted s `prefix_of` upserted s' /\
    (length (upserted s') <= length (upserted s) + 3)%nat /\
    match out with
    | Threw _ => untouched s s' /\ existing' = o_existingEpisodes options
    | Returned ctx =>
        exists b,
          ctx = Some b /\
          (skipped (o_force options) (o_existingEpisodes options) b s s' existing'
           \/
           (synced b s s' /\
            existing' = add (o_existingEpisodes options) (seasonEpisodeKey_of b) /\
            last (upserted s') = Some (key_of b) /\
            (length (upserted s) < length (upserted s'))%nat)
           \/
           (failed s s' /\ existing' = o_existingEpisodes options /\
            length (upserted s') = (length (upserted s) + 3)%nat))
    end.
Proof.
  unfold syncEpisodeByUrl.
  destruct (sync_loop 3 1 episodeUrl (o_force options) (o_existingEpisodes options) None s)
    as [[out existing'] s'] eqn:Hloop.
  exists out, existing', s'. split; [reflexivity |].
  destruct (sync_loop_spec _ _ _ _ _ _ _ _ _ _ Hloop) as (Hpre & Hlen & Hout).
  split; [exact Hpre |]. split; [exact Hlen |].
  destruct out as [ctx|message]; [| exact Hout].
  destruct Hout as [(b & -> & Hskip)|[(b & -> & Hsync)|(Hfail & -> & Hn & _ & Hsome)]].
  - exists b. split; [reflexivity | now left].
  - exists b. split; [reflexivity | right; now left].
  - destruct ctx as [b|]; [| now destruct (Hsome ltac:(lia))].
    exists b. split; [reflexivity |]. right. right.
    split; [exact Hfail |]. split; [reflexivity | exact Hn].
Qed.

End Syncs.
End EpisodeSyncFacts.
